(** * update.py: the incremental COVID-19 bulletin harvester

    A shallow embedding of [update.py] and the properties of its
    specification.

    Python [str] values are modelled as lists of characters whose code
    points are below 256 (type [ascii]); on that range [str.lower], [\d],
    [\s] and case-insensitive matching are exactly what is written below.
    Calls that leave the process (HTTP, the PDF reader, the spreadsheet
    service) read from and write to an explicit [world] record. *)

From Stdlib Require Import String Ascii List ZArith NArith Lia Bool.
From Stdlib Require Import Sorting.Sorted Sorting.Permutation.
Import ListNotations.

Local Open Scope list_scope.

(** ** Python strings *)

Definition str : Type := list ascii.

Definition lit (s : string) : str := list_ascii_of_string s.

Definition code (c : ascii) : N := N_of_ascii c.

Definition in_range (lo hi : N) (c : ascii) : bool :=
  (N.leb lo (code c) && N.leb (code c) hi)%bool.

(** [str.lower] on one character: A-Z and the Latin-1 capitals
    (U+00C0..U+00DE but U+00D7) move up by 32. *)
Definition lower_char (c : ascii) : ascii :=
  if (in_range 65 90 c
      || (in_range 192 222 c && negb (N.eqb (code c) 215)))%bool
  then ascii_of_N (code c + 32)
  else c.

Definition lower (s : str) : str := map lower_char s.

(** [str.isdigit]-style decimal digit, as matched by [\d]. *)
Definition is_digit (c : ascii) : bool := in_range 48 57 c.

(** Whitespace as [str.strip] and [\s] see it. *)
Definition is_space (c : ascii) : bool :=
  (in_range 9 13 c || in_range 28 32 c
   || N.eqb (code c) 133 || N.eqb (code c) 160)%bool.

(** [string.punctuation]. *)
Definition is_punct (c : ascii) : bool :=
  (in_range 33 47 c || in_range 58 64 c
   || in_range 91 96 c || in_range 123 126 c)%bool.

Definition chr_eqb (a b : ascii) : bool := Ascii.eqb a b.

Fixpoint str_eqb (a b : str) : bool :=
  match a, b with
  | [], [] => true
  | x :: a', y :: b' => (chr_eqb x y && str_eqb a' b')%bool
  | _, _ => false
  end.

(** [s.startswith(p)] *)
Fixpoint startswith (p s : str) : bool :=
  match p, s with
  | [], _ => true
  | x :: p', y :: s' => (chr_eqb x y && startswith p' s')%bool
  | _ :: _, [] => false
  end.

(** [p in s] *)
Fixpoint contains (p s : str) : bool :=
  if startswith p s then true
  else match s with
       | [] => false
       | _ :: s' => contains p s'
       end.

(** [s.replace(old, new)] for a non-empty [old]: a left-to-right scan over
    non-overlapping occurrences; [skip] counts the characters of the
    occurrence just replaced that are still to be passed over. *)
Fixpoint replace_from (old new : str) (skip : nat) (s : str) : str :=
  match s with
  | [] => []
  | x :: s' =>
      match skip with
      | S n => replace_from old new n s'
      | O =>
          if startswith old s
          then new ++ replace_from old new (length old - 1) s'
          else x :: replace_from old new O s'
      end
  end.

Definition replace (old new s : str) : str := replace_from old new O s.

Fixpoint lstrip (s : str) : str :=
  match s with
  | x :: s' => if is_space x then lstrip s' else s
  | [] => []
  end.

(** [s.strip()] *)
Definition strip (s : str) : str := rev (lstrip (rev (lstrip s))).

(** Lexicographic order by code point, the order of [list.sort] on [str]. *)
Fixpoint str_leb (a b : str) : bool :=
  match a, b with
  | [], _ => true
  | _ :: _, [] => false
  | x :: a', y :: b' =>
      if N.ltb (code x) (code y) then true
      else if N.ltb (code y) (code x) then false
      else str_leb a' b'
  end.

(** ** Regular expressions

    The fragment of [re] that the program and [datetime.strptime] use:
    literals, classes, sequence, ordered alternation, greedy repetition of
    a class, and numbered groups; matching is by backtracking in priority
    order, always with [re.IGNORECASE]. *)

Inductive cclass : Type :=
| CChr (c : ascii)
| CDigit
| CSpace
| CDot
| CRange (lo hi : ascii).

Inductive regex : Type :=
| REps
| RCls (c : cclass)
| RSeq (r1 r2 : regex)
| RAlt (r1 r2 : regex)
| RStar (c : cclass)
| RGrp (n : nat) (r : regex).

Definition cmatch (c : cclass) (x : ascii) : bool :=
  match c with
  | CChr a => chr_eqb (lower_char a) (lower_char x)
  | CDigit => is_digit x
  | CSpace => is_space x
  | CDot => negb (N.eqb (code x) 10)
  | CRange lo hi => in_range (code lo) (code hi) x
  end.

Fixpoint RStr (s : str) : regex :=
  match s with
  | [] => REps
  | [x] => RCls (CChr x)
  | x :: s' => RSeq (RCls (CChr x)) (RStr s')
  end.

Definition RLit (s : string) : regex := RStr (lit s).
Definition RPlus (c : cclass) : regex := RSeq (RCls c) (RStar c).
Definition ROpt (r : regex) : regex := RAlt r REps.

Fixpoint RAlts (rs : list regex) : regex :=
  match rs with
  | [] => REps
  | [r] => r
  | r :: rs' => RAlt r (RAlts rs')
  end.

Fixpoint RSeqs (rs : list regex) : regex :=
  match rs with
  | [] => REps
  | [r] => r
  | r :: rs' => RSeq r (RSeqs rs')
  end.

(** Captured groups, most recent binding first. *)
Definition groups : Type := list (nat * str).

Fixpoint group (n : nat) (g : groups) : option str :=
  match g with
  | [] => None
  | (m, s) :: g' => if Nat.eqb m n then Some s else group n g'
  end.

Section Matcher.
Context {A : Type}.

Fixpoint star_match (c : cclass) (s : str) (k : str -> option A)
  : option A :=
  match s with
  | x :: s' =>
      if cmatch c x
      then match star_match c s' k with
           | Some m => Some m
           | None => k s
           end
      else k s
  | [] => k []
  end.

Fixpoint rmatch (r : regex) (s : str) (g : groups)
         (k : str -> groups -> option A) : option A :=
  match r with
  | REps => k s g
  | RCls c =>
      match s with
      | x :: s' => if cmatch c x then k s' g else None
      | [] => None
      end
  | RSeq r1 r2 => rmatch r1 s g (fun s1 g1 => rmatch r2 s1 g1 k)
  | RAlt r1 r2 =>
      match rmatch r1 s g k with
      | Some m => Some m
      | None => rmatch r2 s g k
      end
  | RStar c => star_match c s (fun s1 => k s1 g)
  | RGrp n r1 =>
      rmatch r1 s g
        (fun s1 g1 => k s1 ((n, firstn (length s - length s1) s) :: g1))
  end.
End Matcher.

(** [re.match]: the first match in priority order at the start of [s],
    with the unconsumed rest. *)
Definition re_match (r : regex) (s : str) : option (groups * str) :=
  rmatch r s [] (fun rest g => Some (g, rest)).

(** [re.search]: the leftmost start position that has a match. *)
Fixpoint re_search (r : regex) (s : str) : option groups :=
  match rmatch r s [] (fun _ g => Some g) with
  | Some m => Some m
  | None =>
      match s with
      | [] => None
      | _ :: s' => re_search r s'
      end
  end.

(** The language of a pattern, independent of any matching strategy. *)
Inductive lang : regex -> str -> Prop :=
| L_eps : lang REps []
| L_cls c x : cmatch c x = true -> lang (RCls c) [x]
| L_seq r1 r2 s1 s2 :
    lang r1 s1 -> lang r2 s2 -> lang (RSeq r1 r2) (s1 ++ s2)
| L_alt_l r1 r2 s : lang r1 s -> lang (RAlt r1 r2) s
| L_alt_r r1 r2 s : lang r2 s -> lang (RAlt r1 r2) s
| L_star c s : Forall (fun x => cmatch c x = true) s -> lang (RStar c) s
| L_grp n r s : lang r s -> lang (RGrp n r) s.

(** [txt] has a match of [r] somewhere. *)
Definition has_match (r : regex) (txt : str) : Prop :=
  exists pre mid post, txt = pre ++ mid ++ post /\ lang r mid.

(** ** datetime *)

Local Open Scope Z_scope.

(** [datetime.datetime]; seconds and microseconds are 0 in every value the
    program builds, so they are left out. *)
Record datetime : Type := mkdt {
  year : Z; month : Z; day : Z; hour : Z; minute : Z
}.

Definition is_leap (y : Z) : bool :=
  ((y mod 4 =? 0) && (negb (y mod 100 =? 0) || (y mod 400 =? 0)))%bool.

Definition days_in_month (y m : Z) : Z :=
  if m =? 2 then (if is_leap y then 29 else 28)
  else if ((m =? 4) || (m =? 6) || (m =? 9) || (m =? 11))%bool then 30
  else 31.

Definition between (lo v hi : Z) : bool := ((lo <=? v) && (v <=? hi))%bool.

(** The range checks of the [datetime] constructor. *)
Definition valid_dt (d : datetime) : bool :=
  (between 1 (year d) 9999 && between 1 (month d) 12
   && between 1 (day d) (days_in_month (year d) (month d))
   && between 0 (hour d) 23 && between 0 (minute d) 59)%bool.

(** [datetime(y, m, d, H, M)]; [None] stands for [ValueError]. *)
Definition datetime_new (y m d H M : Z) : option datetime :=
  let v := mkdt y m d H M in
  if valid_dt v then Some v else None.

(** [datetime.min] *)
Definition datetime_min : datetime := mkdt 1 1 1 0 0.

(** [dt.replace(year=y)] *)
Definition replace_year (y : Z) (d : datetime) : option datetime :=
  datetime_new y (month d) (day d) (hour d) (minute d).

Definition lex (c1 c2 : comparison) : comparison :=
  match c1 with
  | Eq => c2
  | _ => c1
  end.

Definition dt_compare (a b : datetime) : comparison :=
  lex (year a ?= year b)
    (lex (month a ?= month b)
       (lex (day a ?= day b)
          (lex (hour a ?= hour b) (minute a ?= minute b)))).

(** [a <= b] on datetimes *)
Definition dt_leb (a b : datetime) : bool :=
  match dt_compare a b with
  | Gt => false
  | _ => true
  end.

Definition dt_le (a b : datetime) : Prop := dt_leb a b = true.
Definition dt_lt (a b : datetime) : Prop := dt_leb b a = false.

(** *** strftime *)

Definition digit_char (v : Z) : ascii := ascii_of_N (48 + Z.to_N v).

Definition pad2 (v : Z) : str :=
  [digit_char (v / 10 mod 10); digit_char (v mod 10)].

Definition pad4 (v : Z) : str :=
  [digit_char (v / 1000 mod 10); digit_char (v / 100 mod 10);
   digit_char (v / 10 mod 10); digit_char (v mod 10)].

(** [FILE_DT_FMT = "%Y-%m-%d_%H%M"] *)
Definition strftime_file (d : datetime) : str :=
  pad4 (year d) ++ lit "-" ++ pad2 (month d) ++ lit "-" ++ pad2 (day d)
  ++ lit "_" ++ pad2 (hour d) ++ pad2 (minute d).

(** [SHEET_DT_FMT = "%Y-%m-%d %H:%M"] *)
Definition strftime_sheet (d : datetime) : str :=
  pad4 (year d) ++ lit "-" ++ pad2 (month d) ++ lit "-" ++ pad2 (day d)
  ++ lit " " ++ pad2 (hour d) ++ lit ":" ++ pad2 (minute d).

(** *** strptime

    [_strptime] turns a format into a regular expression with one named
    group per directive, matches it at the start of the text, refuses
    unconverted trailing data, and builds the datetime from the groups.
    Groups are numbered here by directive. *)

Definition gA : nat := 1.
Definition gB : nat := 2.
Definition gd : nat := 3.
Definition gY : nat := 4.
Definition gI : nat := 5.
Definition gp : nat := 6.
Definition gm : nat := 7.
Definition gH : nat := 8.
Definition gM : nat := 9.

(** [LocaleTime.f_weekday], [f_month] and [am_pm] in the C locale. *)
Definition f_weekday : list str :=
  map lit ["monday"; "tuesday"; "wednesday"; "thursday"; "friday";
           "saturday"; "sunday"]%string.

Definition f_month : list str :=
  map lit [""; "january"; "february"; "march"; "april"; "may"; "june";
           "july"; "august"; "september"; "october"; "november";
           "december"]%string.

Definition am_pm : list str := map lit ["am"; "pm"]%string.

(** [sorted(to_convert, key=len, reverse=True)]: stable, longest first. *)
Fixpoint insert_by_len (x : str) (l : list str) : list str :=
  match l with
  | [] => [x]
  | y :: l' =>
      if Nat.leb (length y) (length x) then x :: l
      else y :: insert_by_len x l'
  end.

Definition sorted_by_len (l : list str) : list str :=
  fold_right insert_by_len [] l.

(** [TimeRE.__seqToRE] *)
Definition seqToRE (n : nat) (to_convert : list str) : regex :=
  RGrp n (RAlts (map RStr (sorted_by_len to_convert))).

Definition digits (lo hi : string) : regex :=
  match lit lo, lit hi with
  | [a], [b] => RCls (CRange a b)
  | _, _ => REps
  end.

Definition re_d : regex :=
  RGrp gd (RAlts [RSeq (RLit "3") (digits "0" "1");
                  RSeq (digits "1" "2") (RCls CDigit);
                  RSeq (RLit "0") (digits "1" "9");
                  digits "1" "9";
                  RSeq (RLit " ") (digits "1" "9")]).

Definition re_m : regex :=
  RGrp gm (RAlts [RSeq (RLit "1") (digits "0" "2");
                  RSeq (RLit "0") (digits "1" "9");
                  digits "1" "9"]).

Definition re_H : regex :=
  RGrp gH (RAlts [RSeq (RLit "2") (digits "0" "3");
                  RSeq (digits "0" "1") (RCls CDigit);
                  RCls CDigit]).

Definition re_I : regex :=
  RGrp gI (RAlts [RSeq (RLit "1") (digits "0" "2");
                  RSeq (RLit "0") (digits "1" "9");
                  digits "1" "9"]).

Definition re_M : regex :=
  RGrp gM (RAlts [RSeq (digits "0" "5") (RCls CDigit); RCls CDigit]).

Definition re_Y : regex :=
  RGrp gY (RSeqs [RCls CDigit; RCls CDigit; RCls CDigit; RCls CDigit]).

Definition re_A : regex := seqToRE gA f_weekday.
Definition re_B : regex := seqToRE gB f_month.
Definition re_p : regex := seqToRE gp am_pm.
Definition re_ws : regex := RPlus CSpace.

(** ["%A %B %d %Y %I%p"] *)
Definition LABEL_YEAR_RE : regex :=
  RSeqs [re_A; re_ws; re_B; re_ws; re_d; re_ws; re_Y; re_ws; re_I; re_p].

(** ["%A %B %d %I%p"] *)
Definition LABEL_RE : regex :=
  RSeqs [re_A; re_ws; re_B; re_ws; re_d; re_ws; re_I; re_p].

(** [FILE_DT_FMT] *)
Definition FILE_RE : regex :=
  RSeqs [re_Y; RLit "-"; re_m; RLit "-"; re_d; RLit "_"; re_H; re_M].

(** [SHEET_DT_FMT] *)
Definition SHEET_RE : regex :=
  RSeqs [re_Y; RLit "-"; re_m; RLit "-"; re_d; re_ws; re_H; RLit ":"; re_M].

Definition digit_val (c : ascii) : Z := Z.of_N (code c) - 48.

(** [int(s)] on the texts the directives capture: optional surrounding
    blanks, then decimal digits. *)
Definition py_int (s : str) : Z :=
  fold_left (fun acc c => 10 * acc + digit_val c) (strip s) 0.

(** [l.index(x)] *)
Fixpoint index_of (x : str) (l : list str) : Z :=
  match l with
  | [] => 0
  | y :: l' => if str_eqb x y then 0 else 1 + index_of x l'
  end.

(** The hour of a 12-hour clock reading. *)
Definition hour_of_I (h : Z) (ampm : str) : Z :=
  if (str_eqb ampm [] || str_eqb ampm (nth 0 am_pm []))%bool
  then (if h =? 12 then 0 else h)
  else if str_eqb ampm (nth 1 am_pm [])
       then (if h =? 12 then h else h + 12)
       else h.

(** From the groups of a match to the datetime, with the defaults of
    [_strptime]: year 1900, month 1, day 1, hour 0, minute 0.  (For
    29 February without a year [_strptime] computes with 1904 and then
    hands 1900 to the constructor, which refuses it, as here.) *)
Definition datetime_of_groups (g : groups) : option datetime :=
  let y := match group gY g with
           | Some s => py_int s
           | None => 1900
           end in
  let m := match group gm g with
           | Some s => py_int s
           | None =>
               match group gB g with
               | Some s => index_of (lower s) f_month
               | None => 1
               end
           end in
  let d := match group gd g with
           | Some s => py_int s
           | None => 1
           end in
  let H := match group gH g with
           | Some s => py_int s
           | None =>
               match group gI g with
               | Some s =>
                   hour_of_I (py_int s)
                     (match group gp g with
                      | Some a => lower a
                      | None => []
                      end)
               | None => 0
               end
           end in
  let M := match group gM g with
           | Some s => py_int s
           | None => 0
           end in
  datetime_new y m d H M.

(** [datetime.strptime(text, fmt)] for the format whose regular expression
    is [r]; [None] stands for [ValueError]. *)
Definition strptime (r : regex) (text : str) : option datetime :=
  match re_match r text with
  | Some (g, []) => datetime_of_groups g
  | _ => None
  end.

(** ** Python dictionaries

    A [dict] keeps its keys in insertion order; assigning to a key that is
    present keeps its place, and the loops of the program iterate in that
    order, so a dictionary is an association list without repeated keys. *)

Definition dict (V : Type) : Type := list (str * V).

Fixpoint dict_get {V : Type} (k : str) (d : dict V) : option V :=
  match d with
  | [] => None
  | (k', v) :: d' => if str_eqb k k' then Some v else dict_get k d'
  end.

Definition dict_mem {V : Type} (k : str) (d : dict V) : bool :=
  match dict_get k d with
  | Some _ => true
  | None => false
  end.

(** [d[k] = v] *)
Fixpoint dict_set {V : Type} (k : str) (v : V) (d : dict V) : dict V :=
  match d with
  | [] => [(k, v)]
  | (k', v') :: d' =>
      if str_eqb k k' then (k, v) :: d' else (k', v') :: dict_set k v d'
  end.

(** [del d[k]] for a key that is present *)
Fixpoint dict_del {V : Type} (k : str) (d : dict V) : dict V :=
  match d with
  | [] => []
  | (k', v') :: d' =>
      if str_eqb k k' then d' else (k', v') :: dict_del k d'
  end.

Definition dict_keys {V : Type} (d : dict V) : list str := map fst d.

(** ** Exceptions and results *)

Inductive exn : Type :=
| SystemExit_msg (msg : str)
| SystemExit_code (status : Z)
| ValueError
| KeyError
| IndexError
| PdfReadError
| HttpError
| AuthError.

Inductive result (A : Type) : Type :=
| Ok (a : A)
| Raise (e : exn).

Arguments Ok {A} a.
Arguments Raise {A} e.

(** The status the process ends with: [sys.exit(0)] and a normal return
    give 0, [sys.exit(message)] and an uncaught exception give 1. *)
Definition exit_status {A : Type} (r : result A) : Z :=
  match r with
  | Ok _ => 0
  | Raise (SystemExit_code n) => n
  | Raise _ => 1
  end.

(** A [for] loop whose body may raise. *)
Fixpoint for_each {A S : Type} (body : A -> S -> result S) (l : list A)
         (s : S) : result S :=
  match l with
  | [] => Ok s
  | x :: l' =>
      match body x s with
      | Ok s' => for_each body l' s'
      | Raise e => Raise e
      end
  end.

(** ** Constants *)

Definition DOMAIN : str := lit "https://www2.monroecounty.gov".
Definition ARCHIVE_URL : str :=
  lit "https://www2.monroecounty.gov/health-COVID-19-archive".
Definition HREF_ROOT : str := lit "/files/health/coronavirus/".
Definition PDF_DIR : str := lit "pdfs".

Definition digits1 : regex := RGrp 1 (RPlus CDigit).

Definition REGEXS : list regex :=
  [ RSeqs [RLit "There are "; digits1; RLit " confirmed cases"];
    RSeqs [RLit "Deaths related to COVID-19"; RPlus (CChr " ");
           digits1; RLit " patient"; ROpt (RLit "s")];
    RSeqs [digits1; RLit " people are hospitalized"];
    RSeqs [digits1; RLit " "; RGrp 2 (RAlt (RLit "of") (RLit "are"));
           RStar CDot; RLit " in ICU"];
    RSeqs [digits1; RLit " people in"; ROpt (RGrp 2 (RLit "to"));
           RLit " mandatory quarantine"] ].

(** ** get_links *)

(** An [a] element of the page that has an [href]: its text and the
    attribute. *)
Record anchor : Type := mkanchor { a_text : str; a_href : str }.

Definition space : ascii := " "%char.
Definition newline : ascii := ascii_of_N 10.

Definition is_sp (c : ascii) : bool := chr_eqb c space.

(** [re.sub(' +', ' ', text)] *)
Fixpoint squeeze (s : str) : str :=
  match s with
  | [] => []
  | x :: s' =>
      if is_sp x
      then match s' with
           | y :: _ => if is_sp y then squeeze s' else x :: squeeze s'
           | [] => [x]
           end
      else x :: squeeze s'
  end.

(** The label of a link as the first loop of [get_links] cleans it. *)
Definition normalize (t : str) : str :=
  let text := lower t in
  let text := map (fun c => if N.ltb 127 (code c) then space else c) text in
  let text := map (fun c => if is_punct c then space else c) text in
  squeeze text.

(** [re.search('statement|zip code', text)] *)
Definition excluded (text : str) : bool :=
  (contains (lit "statement") text || contains (lit "zip code") text)%bool.

(** [soup.find_all('a', href=re.compile(HREF_ROOT))] *)
Definition find_all (soup : list anchor) : list anchor :=
  filter (fun a => contains HREF_ROOT (a_href a)) soup.

Definition full_url (href : str) : str :=
  if startswith (lit "/") href then DOMAIN ++ href else href.

(** First loop: the dictionary label -> url. *)
Definition collect (soup : list anchor) : dict str :=
  fold_left
    (fun links a =>
       let text := normalize (a_text a) in
       if excluded text then links
       else dict_set text (full_url (a_href a)) links)
    (find_all soup) [].

Definition corrected : str := lit "corrected".

(** Body of the second loop. *)
Definition supersede_step (text : str) (links : dict str)
  : result (dict str) :=
  if contains corrected text then
    let uncorrected := strip (replace corrected [] text) in
    if dict_mem uncorrected links then
      match dict_get text links with
      | Some url => Ok (dict_del text (dict_set uncorrected url links))
      | None => Raise KeyError
      end
    else Raise (SystemExit_msg (lit "ERROR: uncorrected link not found"))
  else Ok links.

Definition supersede (links : dict str) : result (dict str) :=
  for_each supersede_step (dict_keys links) links.

Definition parse_label (text : str) : option datetime :=
  if contains (lit "2020") text then strptime LABEL_YEAR_RE text
  else match strptime LABEL_RE text with
       | Some dt => replace_year 2020 dt
       | None => None
       end.

(** Body of the third loop. *)
Definition rekey_step (text : str) (links : dict str) : result (dict str) :=
  match parse_label text with
  | None => Raise ValueError
  | Some dt =>
      match dict_get text links with
      | Some url => Ok (dict_del text (dict_set (strftime_file dt) url links))
      | None => Raise KeyError
      end
  end.

Definition rekey (links : dict str) : result (dict str) :=
  for_each rekey_step (dict_keys links) links.

Definition get_links (soup : list anchor) : result (dict str) :=
  match supersede (collect soup) with
  | Ok links => rekey links
  | Raise e => Raise e
  end.

(** ** Bulletin text and field extraction *)

(** [re.sub('  +', '\n', txt)]: [in_run] is set while the blanks of a run
    that was already replaced are skipped. *)
Fixpoint sub_blanks (in_run : bool) (s : str) : str :=
  match s with
  | [] => []
  | x :: s' =>
      if is_sp x then
        if in_run then sub_blanks true s'
        else match s' with
             | y :: _ =>
                 if is_sp y then newline :: sub_blanks true s'
                 else x :: sub_blanks false s'
             | [] => [x]
             end
      else x :: sub_blanks false s'
  end.

Definition page_separator : str := [newline] ++ repeat "-"%char 79 ++ [newline].

(** What [parse_pdf] adds to [out] for one page. *)
Definition page_text (txt : str) : str :=
  sub_blanks false (replace [newline] [] txt) ++ page_separator.

Definition pages_text (pages : list str) : str :=
  fold_left (fun out txt => out ++ page_text txt) pages [].

(** [search_for]; the value is a Python [str] or [None]. *)
Definition search_for (regex : regex) (txt : str) : option str :=
  match re_search regex txt with
  | Some m => group 1 m
  | None => Some (lit "n/a")
  end.

(** The inner loop of [parse_pdfs]: one value per pattern. *)
Definition extract (txt : str) : list (option str) :=
  fold_left (fun vals regex => vals ++ [search_for regex txt]) REGEXS [].

(** A row for the sheet: [None] is Python's [None]. *)
Definition row : Type := list (option str).

Definition make_row (dt : datetime) (txt : str) : row :=
  fold_left (fun vals regex => vals ++ [search_for regex txt]) REGEXS
    [Some (strftime_sheet dt); None].

(** ** The world outside the process *)

Inductive file_content : Type :=
| PdfFile (pages : list str)
| NotPdf.

Record world : Type := mkworld {
  (* the [a] elements of the archive page; [None]: the request fails *)
  w_listing : option (list anchor);
  (* what a GET of a url returns; [None]: the request fails *)
  w_web : str -> option file_content;
  (* the files of PDF_DIR by name *)
  w_pdfs : dict file_content;
  (* whether credentials can be obtained *)
  w_auth : bool;
  (* whether the read and the append request go through *)
  w_read_ok : bool;
  w_append_ok : bool;
  (* the rows of the sheet below the header row *)
  w_sheet : list row;
  (* the batches of the append requests carried out, oldest first *)
  w_appends : list (list row);
  (* lines printed *)
  w_stdout : list str
}.

Definition M (A : Type) : Type := world -> result A * world.

Definition ret {A : Type} (a : A) : M A := fun w => (Ok a, w).

Definition raise {A : Type} (e : exn) : M A := fun w => (Raise e, w).

Definition bind {A B : Type} (c : M A) (f : A -> M B) : M B :=
  fun w =>
    match c w with
    | (Ok a, w') => f a w'
    | (Raise e, w') => (Raise e, w')
    end.

Declare Scope py_scope.
Delimit Scope py_scope with py.
Notation "x <- c1 ;; c2" := (bind c1 (fun x => c2))
  (at level 61, c1 at next level, right associativity) : py_scope.
Notation "c1 ;; c2" := (bind c1 (fun _ => c2))
  (at level 61, right associativity) : py_scope.
Local Open Scope py_scope.

Definition lift {A : Type} (r : result A) : M A := fun w => (r, w).

Definition gets {A : Type} (f : world -> A) : M A := fun w => (Ok (f w), w).

Definition print (line : str) : M unit :=
  fun w =>
    (Ok tt,
     mkworld (w_listing w) (w_web w) (w_pdfs w) (w_auth w) (w_read_ok w)
       (w_append_ok w) (w_sheet w) (w_appends w) (w_stdout w ++ [line])).

Definition write_file (name : str) (c : file_content) : M unit :=
  fun w =>
    (Ok tt,
     mkworld (w_listing w) (w_web w) (dict_set name c (w_pdfs w)) (w_auth w)
       (w_read_ok w) (w_append_ok w) (w_sheet w) (w_appends w) (w_stdout w)).

(** A [for] loop in [M]. *)
Fixpoint for_eachM {A : Type} (body : A -> M unit) (l : list A) : M unit :=
  match l with
  | [] => ret tt
  | x :: l' => body x ;; for_eachM body l'
  end.

(** ** The functions of the program *)

Definition get_soup (url : str) : M (list anchor) :=
  listing <- gets w_listing ;;
  match listing with
  | None => raise (SystemExit_msg (lit "ERROR: could not connect to: " ++ url))
  | Some soup => ret soup
  end.

Definition download_pdf (url filename : str) : M unit :=
  web <- gets w_web ;;
  match web url with
  | None => raise (SystemExit_msg (lit "ERROR: could not access file: " ++ url))
  | Some content => write_file filename content
  end.

Definition pdf_ext : str := lit ".pdf".

Definition download_pdfs (links : dict str) : M unit :=
  for_eachM
    (fun item =>
       let filename := fst item ++ pdf_ext in
       pdfs <- gets w_pdfs ;;
       if dict_mem filename pdfs then ret tt
       else
         print (lit "downloading " ++ PDF_DIR ++ lit "/" ++ filename
                ++ lit " <- " ++ replace (DOMAIN ++ HREF_ROOT) [] (snd item)) ;;
         download_pdf (snd item) filename)
    links.

Definition get_sheet_service : M unit :=
  ok <- gets w_auth ;;
  if ok then ret tt else raise AuthError.

Definition cell_A (r : row) : list str :=
  match r with
  | Some a :: _ => [a]
  | _ => []
  end.

Fixpoint drop_empty (l : list (list str)) : list (list str) :=
  match l with
  | [] :: l' => drop_empty l'
  | _ => l
  end.

(** The [values] of the range [A2:A]: one list per row, blank rows at the
    end left out. *)
Definition read_column (sheet : list row) : list (list str) :=
  rev (drop_empty (rev (map cell_A sheet))).

(** The part of [get_last_update] after the request. *)
Definition last_update_of (values : list (list str)) : result datetime :=
  match rev values with
  | [] => Ok datetime_min
  | last_row :: _ =>
      match last_row with
      | [] => Raise IndexError
      | cell :: _ =>
          match strptime SHEET_RE cell with
          | Some dt => Ok dt
          | None => Raise ValueError
          end
      end
  end.

Definition get_last_update : M datetime :=
  ok <- gets w_read_ok ;;
  if ok then
    sheet <- gets w_sheet ;;
    dt <- lift (last_update_of (read_column sheet)) ;;
    print (lit "last updated datetime: " ++ strftime_sheet dt) ;;
    ret dt
  else raise HttpError.

Definition append_to_sheet (info : list row) : M unit :=
  print (lit "updating spreadsheet...") ;;
  fun w =>
    if w_append_ok w then
      (Ok tt,
       mkworld (w_listing w) (w_web w) (w_pdfs w) (w_auth w) (w_read_ok w)
         (w_append_ok w) (w_sheet w ++ info) (w_appends w ++ [info])
         (w_stdout w))
    else (Raise HttpError, w).

Fixpoint endswith_from (p s : str) (n : nat) : bool :=
  match n with
  | O => str_eqb p s
  | S n' => match s with
            | [] => false
            | _ :: s' => endswith_from p s' n'
            end
  end.

(** [s.endswith(p)] *)
Definition endswith (p s : str) : bool :=
  endswith_from p s (length s - length p).

(** Names that [glob] gives for ["*.pdf"]: hidden files are passed over. *)
Definition is_pdf_name (name : str) : bool :=
  (endswith pdf_ext name && negb (startswith (lit ".") name))%bool.

Fixpoint insert_sorted (x : str) (l : list str) : list str :=
  match l with
  | [] => [x]
  | y :: l' => if str_leb x y then x :: l else y :: insert_sorted x l'
  end.

(** [l.sort()] on distinct strings. *)
Definition sort_strs (l : list str) : list str :=
  fold_right insert_sorted [] l.

(** [glob.glob(os.path.join(pdf_dir, '*.pdf'))] followed by [pdfs.sort()].
    Every path is [pdf_dir], a separator and the file name, so the paths
    are kept as the names. *)
Definition sorted_pdfs (pdfs : dict file_content) : list str :=
  sort_strs (filter is_pdf_name (dict_keys pdfs)).

Definition parse_pdf (name : str) : M str :=
  pdfs <- gets w_pdfs ;;
  match dict_get name pdfs with
  | Some (PdfFile pages) => ret (pages_text pages)
  | _ => raise PdfReadError
  end.

(** [name[:-4]] *)
Definition drop_ext (name : str) : str := firstn (length name - 4) name.

(** Body of the loop of [parse_pdfs]; the rows so far are threaded. *)
Definition parse_one (last_update : datetime) (pdf : str) (info : list row)
  : M (list row) :=
  match strptime FILE_RE (drop_ext pdf) with
  | None => raise ValueError
  | Some dt =>
      if dt_leb dt last_update then ret info
      else
        print (lit "parsing info from: " ++ PDF_DIR ++ lit "/" ++ pdf) ;;
        txt <- parse_pdf pdf ;;
        ret (info ++ [make_row dt txt])
  end.

Fixpoint parse_loop (last_update : datetime) (pdfs : list str)
         (info : list row) : M (list row) :=
  match pdfs with
  | [] => ret info
  | pdf :: rest =>
      info' <- parse_one last_update pdf info ;;
      parse_loop last_update rest info'
  end.

Definition parse_pdfs (last_update : datetime) : M (list row) :=
  pdfs <- gets w_pdfs ;;
  parse_loop last_update (sorted_pdfs pdfs) [].

Definition main : M unit :=
  soup <- get_soup ARCHIVE_URL ;;
  links <- lift (get_links soup) ;;
  download_pdfs links ;;
  get_sheet_service ;;
  last_update <- get_last_update ;;
  info <- parse_pdfs last_update ;;
  if Nat.eqb (length info) 0 then
    print (lit "no new information to update") ;;
    raise (SystemExit_code 0)
  else append_to_sheet info.

(** ** Groups of a pattern *)

(** Whether every match of [r] sets group [n]. *)
Fixpoint binds (n : nat) (r : regex) : bool :=
  match r with
  | RSeq r1 r2 => (binds n r1 || binds n r2)%bool
  | RAlt r1 r2 => (binds n r1 && binds n r2)%bool
  | RGrp m r1 => (Nat.eqb m n || binds n r1)%bool
  | _ => false
  end.

(** The patterns inside the groups numbered [n] of [r]. *)
Fixpoint bodies (n : nat) (r : regex) : list regex :=
  match r with
  | RSeq r1 r2 => bodies n r1 ++ bodies n r2
  | RAlt r1 r2 => bodies n r1 ++ bodies n r2
  | RGrp m r1 => (if Nat.eqb m n then [r1] else []) ++ bodies n r1
  | _ => []
  end.

(** How the groups [g'] after a match of [r] relate to the groups [g]
    before it. *)
Definition groups_after (r : regex) (g g' : groups) : Prop :=
  (forall n, group n g <> None \/ binds n r = true -> group n g' <> None)
  /\ (forall n v, group n g' = Some v ->
                 group n g = Some v
                 \/ Exists (fun b => lang b v) (bodies n r)).

(** ** Comparing strings and first matches *)

(** Three-way lexicographic comparison by code point. *)
Fixpoint str_compare (a b : str) : comparison :=
  match a, b with
  | [], [] => Eq
  | [], _ :: _ => Lt
  | _ :: _, [] => Gt
  | x :: a', y :: b' => lex (N.compare (code x) (code y)) (str_compare a' b')
  end.

(** The matcher, started on [s1 ++ rest] with groups [g], first reaches
    its continuation at [rest], with groups [g']. *)
Definition first_match (r : regex) (s1 rest : str) (g g' : groups) : Prop :=
  forall (A : Type) (k : str -> groups -> option A) (m : A),
    k rest g' = Some m -> rmatch r (s1 ++ rest) g k = Some m.

(** A file name of the cache as [download_pdfs] writes it. *)
Definition canonical (name : str) : Prop :=
  exists dt, valid_dt dt = true /\ name = strftime_file dt ++ pdf_ext.

(** ** Scenarios *)

Definition anchor_of (text href : string) : anchor :=
  mkanchor (lit text) (lit href).

(** A bulletin and its corrected republication. *)
Definition corrected_listing : list anchor :=
  [ anchor_of "Monday March 16 2020 2PM"
      "/files/health/coronavirus/health-update-1.pdf";
    anchor_of "Monday March 16 2020 2PM Corrected"
      "/files/health/coronavirus/health-update-1-v2.pdf" ].

(** The same, with the word in the middle of the label. *)
Definition corrected_inside_listing : list anchor :=
  [ anchor_of "Monday March 16 2020 2PM"
      "/files/health/coronavirus/health-update-1.pdf";
    anchor_of "Monday March 16 Corrected 2020 2PM"
      "/files/health/coronavirus/health-update-1-v2.pdf" ].

(** Two labels for one hour, one with the year and one without. *)
Definition same_hour_listing : list anchor :=
  [ anchor_of "Monday March 16 2020 2PM"
      "/files/health/coronavirus/health-update-1.pdf";
    anchor_of "Monday, March 16, 2PM"
      "/files/health/coronavirus/another-update.pdf" ].

Definition url_of (file : string) : str :=
  DOMAIN ++ HREF_ROOT ++ lit file.

(** The base label in the words of the specification: the word removed and
    whitespace collapsed. *)
Definition collapsed_base_label (text : str) : str :=
  strip (squeeze (replace corrected [] text)).

Definition not_corrected (text : str) : bool :=
  negb (contains corrected text).

(** The key under which the third loop of [get_links] files a label. *)
Definition key_of (text : str) : str :=
  match parse_label text with
  | Some dt => strftime_file dt
  | None => []
  end.

(** The third loop of [get_links] seen as one pass over the labels. *)
Definition rekeyed (links acc : dict str) : dict str :=
  fold_left (fun R tu => dict_set (key_of (fst tu)) (snd tu) R) links acc.

(** ** Views of the world used in the statements *)

(** [w] with other printed lines. *)
Definition with_stdout (w : world) (out : list str) : world :=
  mkworld (w_listing w) (w_web w) (w_pdfs w) (w_auth w) (w_read_ok w)
    (w_append_ok w) (w_sheet w) (w_appends w) out.

(** The names [glob] finds in the cache directory. *)
Definition pdf_names (w : world) : list str :=
  filter is_pdf_name (dict_keys (w_pdfs w)).

(** The timestamp that [parse_pdfs] reads off a file name. *)
Definition stamp (name : str) : option datetime :=
  strptime FILE_RE (drop_ext name).

(** [dt] is the timestamp of a file of the cache directory. *)
Definition cached (w : world) (dt : datetime) : Prop :=
  exists name, In name (pdf_names w) /\ stamp name = Some dt.

(** The loop of [parse_pdfs] without its printing: what it returns depends
    on the files and the frontier only. *)
Fixpoint select_rows (pdfs : dict file_content) (last_update : datetime)
         (names : list str) (info : list row) : result (list row) :=
  match names with
  | [] => Ok info
  | pdf :: rest =>
      match strptime FILE_RE (drop_ext pdf) with
      | None => Raise ValueError
      | Some dt =>
          if dt_leb dt last_update
          then select_rows pdfs last_update rest info
          else match dict_get pdf pdfs with
               | Some (PdfFile pages) =>
                   select_rows pdfs last_update rest
                     (info ++ [make_row dt (pages_text pages)])
               | _ => Raise PdfReadError
               end
      end
  end.

(** The file [name] of the cache is one the PDF reader accepts. *)
Definition readable (pdfs : dict file_content) (name : str) : Prop :=
  exists pages, dict_get name pdfs = Some (PdfFile pages).

(** The display timestamp of a row, read back. *)
Definition row_stamp (r : row) : option datetime :=
  match r with
  | Some cell :: _ => strptime SHEET_RE cell
  | _ => None
  end.

Definition selected_row (s : datetime * str) : row :=
  make_row (fst s) (snd s).

(** A world with the given cache and sheet, an empty listing, and every
    service available. *)
Definition quiet_world (pdfs : dict file_content) (sheet : list row) : world :=
  mkworld (Some []) (fun _ => None) pdfs true true true sheet [] [].

Definition page_142 : file_content :=
  PdfFile [lit "There are 142 confirmed cases in Monroe County."].

(** The store ends at 2020-03-15 09:00; bulletins of 14 and 16 March are
    cached. *)
Definition frontier_world : world :=
  quiet_world
    [(lit "2020-03-16_1400.pdf", page_142);
     (lit "2020-03-14_0900.pdf", page_142)]
    [[Some (lit "2020-03-15 09:00"); None; Some (lit "96")]].

(** An empty store, and a cached bulletin stamped with the least
    datetime. *)
Definition min_world : world :=
  quiet_world [(lit "0001-01-01_0000.pdf", page_142)] [].

(** A sheet whose last row is older than its first. *)
Definition unsorted_sheet : list row :=
  [[Some (lit "2020-03-16 14:00"); None; Some (lit "120")];
   [Some (lit "2020-03-15 09:00"); None; Some (lit "96")]].

(** A row of [values] in the timestamp column that reads as [dt]. *)
Definition reads_as (r : list str) (dt : datetime) : Prop :=
  exists cell more, r = cell :: more /\ strptime SHEET_RE cell = Some dt.

(** The store is as it was. *)
Definition store_kept (w w' : world) : Prop :=
  w_sheet w' = w_sheet w /\ w_appends w' = w_appends w.

(** A computation that never writes to the store. *)
Definition keeps_store {A : Type} (c : M A) : Prop :=
  forall w, store_kept w (snd (c w)).

(** How a whole run may leave the store: one batch appended on a normal
    return, nothing otherwise. *)
Definition one_batch_or_nothing (w : world) (out : result unit * world)
  : Prop :=
  (fst out = Ok tt
   /\ exists info,
       info <> []
       /\ w_appends (snd out) = w_appends w ++ [info]
       /\ w_sheet (snd out) = w_sheet w ++ info)
  \/ (fst out <> Ok tt /\ store_kept w (snd out)).

(** Everything but the cache and the printed lines is as it was. *)
Definition services_kept (w w' : world) : Prop :=
  w_listing w' = w_listing w /\ w_web w' = w_web w
  /\ w_auth w' = w_auth w /\ w_read_ok w' = w_read_ok w
  /\ w_append_ok w' = w_append_ok w
  /\ w_sheet w' = w_sheet w /\ w_appends w' = w_appends w.

(** The cache of [w'] holds the files of [w] unchanged, and beyond them
    only files named after keys of [links]. *)
Definition cache_grown (links : dict str) (w w' : world) : Prop :=
  (forall name, In name (dict_keys (w_pdfs w)) ->
                dict_get name (w_pdfs w') = dict_get name (w_pdfs w))
  /\ (forall name, In name (dict_keys (w_pdfs w')) ->
                   In name (dict_keys (w_pdfs w))
                   \/ exists key, In key (dict_keys links)
                                  /\ name = key ++ pdf_ext).

(** One turn of the loop of [download_pdfs]. *)
Definition download_item (item : str * str) : M unit :=
  let filename := fst item ++ pdf_ext in
  pdfs <- gets w_pdfs ;;
  if dict_mem filename pdfs then ret tt
  else
    print (lit "downloading " ++ PDF_DIR ++ lit "/" ++ filename
           ++ lit " <- " ++ replace (DOMAIN ++ HREF_ROOT) [] (snd item)) ;;
    download_pdf (snd item) filename.

(** The end of [main], once the rows are known. *)
Definition finish (info : list row) : M unit :=
  if Nat.eqb (length info) 0 then
    print (lit "no new information to update") ;;
    raise (SystemExit_code 0)
  else append_to_sheet info.

(** A result other than a normal return or [sys.exit(0)]. *)
Definition loud {A : Type} (r : result A) : Prop :=
  match r with
  | Ok _ => False
  | Raise (SystemExit_code _) => False
  | Raise _ => True
  end.

(** A run that got as far as the end of [main]: the intermediate values
    and worlds. *)
Record reached_finish (w : world) (links : dict str) (w1 : world)
       (lu : datetime) (w2 : world) (info : list row) (w3 : world) : Prop :=
  mk_reached {
    rf_listing : exists soup, w_listing w = Some soup
                              /\ get_links soup = Ok links;
    rf_download : download_pdfs links w = (Ok tt, w1);
    rf_auth : w_auth w1 = true;
    rf_frontier : get_last_update w1 = (Ok lu, w2);
    rf_parse : parse_pdfs lu w2 = (Ok info, w3)
  }.

(** Nothing in the cache but the listing is offline. *)
Definition offline_world : world :=
  mkworld None (fun _ => None) [] true true true
    [[Some (lit "2020-03-15 09:00"); None; Some (lit "96")]] [] [].

(** A cached bulletin that the (empty) listing does not mention. *)
Definition unlisted_world : world :=
  quiet_world [(lit "2020-03-16_1400.pdf", page_142)]
    [[Some (lit "2020-03-15 09:00"); None; Some (lit "96")]].

(** Two cached bulletins, one under a name with a one-digit month. *)
Definition odd_name_world : world :=
  quiet_world
    [(lit "2020-03-17_0900.pdf", page_142);
     (lit "2020-3-16_1400.pdf", page_142)] [].

(** ** More views used in the statements *)

(** A captured value: a non-empty run of digits. *)
Definition numeric (v : str) : Prop := v <> [] /\ forallb is_digit v = true.

(** The sentence of the scenario, and a bulletin that begins with it and
    says nothing of the ICU. *)
Definition cases_sentence : str := lit "There are 142 confirmed cases".

Definition bulletin_142 : str :=
  cases_sentence ++ lit " in Monroe County. 12 people are hospitalized".

(** The fourth pattern of [REGEXS]. *)
Definition ICU_RE : regex := nth 3 REGEXS REps.

(** [a <= b] on strings. *)
Definition str_le (a b : str) : Prop := str_leb a b = true.

(** ** Views used in the further properties *)

(** What the first loop of [get_links] does to one character of a label
    before blanks are squeezed. *)
Definition norm_char (x : ascii) : ascii :=
  let c := lower_char x in
  let c := if N.ltb 127 (code c) then space else c in
  if is_punct c then space else c.

(** Two blanks in a row somewhere in [s]. *)
Fixpoint double_blank (s : str) : bool :=
  match s with
  | [] => false
  | x :: s' =>
      match s' with
      | [] => false
      | y :: _ => ((is_sp x && is_sp y) || double_blank s')%bool
      end
  end.

(** The first loop of [get_links] over the selected anchors, from a given
    dictionary. *)
Definition collect_from (l : list anchor) (acc : dict str) : dict str :=
  fold_left
    (fun links a =>
       let text := normalize (a_text a) in
       if excluded text then links
       else dict_set text (full_url (a_href a)) links)
    l acc.

(** [url] is the address of a link of the page that [get_links] keeps. *)
Definition from_listing (soup : list anchor) (url : str) : Prop :=
  exists a, In a soup
            /\ contains HREF_ROOT (a_href a) = true
            /\ excluded (normalize (a_text a)) = false
            /\ url = full_url (a_href a).

(** Every value of the dictionary satisfies [P]. *)
Definition all_values {V : Type} (P : V -> Prop) (d : dict V) : Prop :=
  forall k v, In (k, v) d -> P v.

Definition uncorrected_missing : exn :=
  SystemExit_msg (lit "ERROR: uncorrected link not found").

(** A link whose label is no date. *)
Definition bad_label_listing : list anchor :=
  [ anchor_of "Monday March 16 2020 2PM"
      "/files/health/coronavirus/health-update-1.pdf";
    anchor_of "Press briefing" "/files/health/coronavirus/briefing.pdf" ].

Definition bad_label_world : world :=
  mkworld (Some bad_label_listing) (fun _ => Some NotPdf) [] true true true
    [] [] [].

Definition access_error (url : str) : exn :=
  SystemExit_msg (lit "ERROR: could not access file: " ++ url).

(** The listing names one bulletin, whose address does not answer. *)
Definition unreachable_world : world :=
  mkworld
    (Some [anchor_of "Monday March 16 2020 2PM"
             "/files/health/coronavirus/health-update-1.pdf"])
    (fun _ => None) [] true true true [] [] [].

(** The listing names one bulletin, which is fetched. *)
Definition fetching_world : world :=
  mkworld
    (Some [anchor_of "Monday March 16 2020 2PM"
             "/files/health/coronavirus/health-update-1.pdf"])
    (fun _ => Some page_142) [] true true true [] [] [].

(** A stray file among the cached bulletins. *)
Definition stray_world : world :=
  quiet_world
    [(lit "2020-03-14_0900.pdf", page_142); (lit "notes.pdf", page_142)]
    [[Some (lit "2020-03-15 09:00"); None; Some (lit "96")]].

(** No character that the class matches is a line break. *)
Definition cls_one_line (c : cclass) : bool := negb (cmatch c newline).

(** No match of [r] holds a line break. *)
Fixpoint one_line (r : regex) : bool :=
  match r with
  | REps => true
  | RCls c => cls_one_line c
  | RSeq r1 r2 => (one_line r1 && one_line r2)%bool
  | RAlt r1 r2 => (one_line r1 && one_line r2)%bool
  | RStar c => cls_one_line c
  | RGrp _ r1 => one_line r1
  end.

(** [r] matches the empty string. *)
Fixpoint nullable (r : regex) : bool :=
  match r with
  | REps => true
  | RCls _ => false
  | RSeq r1 r2 => (nullable r1 && nullable r2)%bool
  | RAlt r1 r2 => (nullable r1 || nullable r2)%bool
  | RStar _ => true
  | RGrp _ r1 => nullable r1
  end.

Definition cls_range_free (c : cclass) : bool :=
  match c with
  | CRange _ _ => false
  | _ => true
  end.

(** The pattern uses no range of characters. *)
Fixpoint range_free (r : regex) : bool :=
  match r with
  | REps => true
  | RCls c => cls_range_free c
  | RSeq r1 r2 => (range_free r1 && range_free r2)%bool
  | RAlt r1 r2 => (range_free r1 && range_free r2)%bool
  | RStar c => cls_range_free c
  | RGrp _ r1 => range_free r1
  end.

(** [r] is a sequence [A (D) B] whose group [n] is [D]. *)
Inductive around (n : nat) : regex -> regex -> regex -> regex -> Prop :=
| around_here D B : around n (RSeq (RGrp n D) B) REps D B
| around_later X Y A D B :
    around n Y A D B -> around n (RSeq X Y) (RSeq X A) D B.

(** The class matches no decimal digit. *)
Definition cls_no_digit (c : cclass) : bool :=
  forallb (fun d => negb (cmatch c d)) (lit "0123456789").

(** Every match of [r] begins with a character that is no digit. *)
Fixpoint starts_plain (r : regex) : bool :=
  match r with
  | RCls c => cls_no_digit c
  | RSeq r1 _ => starts_plain r1
  | RAlt r1 r2 => (starts_plain r1 && starts_plain r2)%bool
  | RGrp _ r1 => starts_plain r1
  | _ => false
  end.

(** Every match of [r] is empty or ends with a character that is no
    digit. *)
Fixpoint ends_plain (r : regex) : bool :=
  match r with
  | REps => true
  | RCls c => cls_no_digit c
  | RStar c => cls_no_digit c
  | RSeq r1 r2 =>
      (ends_plain r2 && (negb (nullable r2) || ends_plain r1))%bool
  | RAlt r1 r2 => (ends_plain r1 && ends_plain r2)%bool
  | RGrp _ r1 => ends_plain r1
  end.

(** The number of digits in a string, and a bound on it over the matches
    of a pattern. *)
Definition dcount (s : str) : nat := length (filter is_digit s).

Fixpoint dmax (r : regex) : option nat :=
  match r with
  | REps => Some O
  | RCls c => Some (if cls_no_digit c then O else 1%nat)
  | RStar c => if cls_no_digit c then Some O else None
  | RSeq r1 r2 =>
      match dmax r1, dmax r2 with
      | Some a, Some b => Some (a + b)%nat
      | _, _ => None
      end
  | RAlt r1 r2 =>
      match dmax r1, dmax r2 with
      | Some a, Some b => Some (Nat.max a b)
      | _, _ => None
      end
  | RGrp _ r1 => dmax r1
  end.

(** [v] stands in [txt] as a whole number: no digit right before it and
    none right after it. *)
Definition whole_number (v txt : str) : Prop :=
  exists pre post,
    txt = pre ++ v ++ post
    /\ (forall p c, pre = p ++ [c] -> is_digit c = false)
    /\ (forall c q, post = c :: q -> is_digit c = false).

(** A text with its capitals A-Z replaced by the small letters; every
    other character stays as it is. *)
Definition ascii_lower_char (c : ascii) : ascii :=
  if in_range 65 90 c then ascii_of_N (code c + 32) else c.

Definition ascii_lower (s : str) : str := map ascii_lower_char s.

Definition ascii_lower_groups (g : groups) : groups :=
  map (fun nv => (fst nv, ascii_lower (snd nv))) g.

(** The exit status is 0 for these ends of [main] only. *)
Definition ends_well (w3 : world) (info : list row) : Prop :=
  info = [] \/ w_append_ok w3 = true.

(** Pages of a bulletin used below. *)
Definition three_pages : list str :=
  [lit "County update"; lit "There are 142 confirmed cases";
   lit "There are 150 confirmed cases"].

Definition broken_pages : list str :=
  [lit "There are 142"; lit " confirmed cases"].

Definition wide_page : list str :=
  [lit "Deaths related to COVID-19  5 patients"].

Definition narrow_page : list str :=
  [lit "Deaths related to COVID-19 5 patients"].

Definition shouted : str := lit "THERE ARE 142 CONFIRMED CASES".

Definition ward_text : str := lit "in ward 7142 people are hospitalized".

Definition next_year_listing : list anchor :=
  [anchor_of "Monday, January 4, 2021 5pm"
             "/files/health/coronavirus/update-2021-01-04.pdf"].

(** The first filled cell of column A in [rows]. *)
Fixpoint first_cell (rows : list row) : option str :=
  match rows with
  | [] => None
  | r :: rest =>
      match cell_A r with
      | c :: _ => Some c
      | [] => first_cell rest
      end
  end.

(** The last filled cell of column A of the sheet. *)
Definition last_cell (sheet : list row) : option str := first_cell (rev sheet).

(** * Properties *)

(** ** Strings *)

Lemma chr_eqb_eq (a b : ascii) : chr_eqb a b = true <-> a = b.
Proof. unfold chr_eqb. apply Ascii.eqb_eq. Qed.

Lemma chr_eqb_refl (a : ascii) : chr_eqb a a = true.
Proof. apply chr_eqb_eq. reflexivity. Qed.

Lemma str_eqb_eq (a b : str) : str_eqb a b = true <-> a = b.
Proof.
  revert b. induction a as [|x a IH]; intros [|y b]; simpl;
    try (split; [discriminate | discriminate]); try tauto.
  rewrite andb_true_iff, chr_eqb_eq, IH.
  split; [intros [-> ->]; reflexivity | intros E; inversion E; auto].
Qed.

Lemma str_eqb_refl (a : str) : str_eqb a a = true.
Proof. apply str_eqb_eq. reflexivity. Qed.

Lemma str_eqb_neq (a b : str) : str_eqb a b = false <-> a <> b.
Proof.
  rewrite <- str_eqb_eq. destruct (str_eqb a b); split; congruence.
Qed.

Lemma startswith_app (p s : str) :
  startswith p s = true <-> exists t, s = p ++ t.
Proof.
  revert s. induction p as [|x p IH]; intros s; simpl.
  - split; [exists s; reflexivity | reflexivity].
  - destruct s as [|y s].
    + split; [discriminate | intros [t E]; discriminate].
    + rewrite andb_true_iff, chr_eqb_eq, IH. split.
      * intros [-> [t ->]]. exists t. reflexivity.
      * intros [t E]. inversion E. subst. eauto.
Qed.

Lemma contains_app (p s : str) :
  contains p s = true <-> exists a b, s = a ++ p ++ b.
Proof.
  induction s as [|y s IH]; simpl.
  - destruct (startswith p []) eqn:E.
    + apply startswith_app in E. destruct E as [t E].
      split; [intros _; exists [], t; exact E | reflexivity].
    + split; [discriminate|]. intros (a & b & E').
      destruct a; [|discriminate]. simpl in E'.
      assert (startswith p [] = true) by (apply startswith_app; eauto).
      congruence.
  - destruct (startswith p (y :: s)) eqn:E.
    + apply startswith_app in E. destruct E as [t E].
      split; [intros _; exists [], t; exact E | reflexivity].
    + rewrite IH. split.
      * intros (a & b & ->). exists (y :: a), b. reflexivity.
      * intros (a & b & E'). destruct a as [|z a].
        -- assert (startswith p (y :: s) = true)
             by (apply startswith_app; eauto).
           congruence.
        -- inversion E'. subst. eauto.
Qed.

(** ** The matcher and the language of a pattern *)

Section MatcherFacts.
Context {A : Type}.

Lemma star_match_sound (c : cclass) (s : str) (k : str -> option A) m :
  star_match c s k = Some m ->
  exists s1 s2, s = s1 ++ s2 /\ Forall (fun x => cmatch c x = true) s1
                /\ k s2 = Some m.
Proof.
  induction s as [|x s IH]; simpl; intros H.
  - exists [], []. auto.
  - destruct (cmatch c x) eqn:Ec.
    + destruct (star_match c s k) eqn:Es.
      * inversion H; subst. destruct (IH eq_refl) as (s1 & s2 & -> & F & K).
        exists (x :: s1), s2. auto.
      * exists [], (x :: s). auto.
    + exists [], (x :: s). auto.
Qed.

Lemma star_match_complete (c : cclass) (s1 s2 : str) (k : str -> option A) :
  Forall (fun x => cmatch c x = true) s1 ->
  star_match c (s1 ++ s2) k = None -> k s2 = None.
Proof.
  induction 1 as [|x s1 Hx F IH]; simpl; intros H.
  - destruct s2 as [|y s2]; simpl in H; [exact H|].
    destruct (cmatch c y); [|exact H].
    destruct (star_match c s2 k); [discriminate | exact H].
  - rewrite Hx in H.
    destruct (star_match c (s1 ++ s2) k) eqn:Es; [discriminate|].
    apply IH. reflexivity.
Qed.

Lemma rmatch_sound (r : regex) :
  forall (s : str) (g : groups) (k : str -> groups -> option A) m,
    rmatch r s g k = Some m ->
    exists s1 s2 g', s = s1 ++ s2 /\ lang r s1 /\ k s2 g' = Some m.
Proof.
  induction r as [|c|r1 IH1 r2 IH2|r1 IH1 r2 IH2|c|n r IH];
    intros s g k m H; simpl in H.
  - exists [], s, g. repeat split; [constructor | exact H].
  - destruct s as [|x s]; [discriminate|].
    destruct (cmatch c x) eqn:Ec; [|discriminate].
    exists [x], s, g. repeat split; [constructor; exact Ec | exact H].
  - apply IH1 in H. destruct H as (s1 & s2 & g1 & -> & L1 & H).
    apply IH2 in H. destruct H as (s3 & s4 & g2 & -> & L2 & H).
    exists (s1 ++ s3), s4, g2. rewrite app_assoc.
    repeat split; [constructor; assumption | exact H].
  - destruct (rmatch r1 s g k) eqn:E1.
    + inversion H; subst. apply IH1 in E1.
      destruct E1 as (s1 & s2 & g1 & -> & L1 & K).
      exists s1, s2, g1. repeat split; [apply L_alt_l; exact L1 | exact K].
    + apply IH2 in H. destruct H as (s1 & s2 & g1 & -> & L1 & K).
      exists s1, s2, g1. repeat split; [apply L_alt_r; exact L1 | exact K].
  - apply star_match_sound in H. destruct H as (s1 & s2 & -> & F & K).
    exists s1, s2, g. repeat split; [constructor; exact F | exact K].
  - apply IH in H. destruct H as (s1 & s2 & g1 & -> & L1 & K).
    eexists s1, s2, _. repeat split; [constructor; exact L1 | exact K].
Qed.

Lemma rmatch_complete (r : regex) :
  forall (s1 s2 : str) (g : groups) (k : str -> groups -> option A),
    lang r s1 ->
    rmatch r (s1 ++ s2) g k = None ->
    exists g', k s2 g' = None.
Proof.
  induction r as [|c|r1 IH1 r2 IH2|r1 IH1 r2 IH2|c|n r IH];
    intros s1 s2 g k L H; inversion L; subst; simpl in H.
  - eauto.
  - rewrite H1 in H. eauto.
  - rewrite <- app_assoc in H.
    destruct (IH1 _ _ _ _ H2 H) as [g1 H1].
    exact (IH2 _ _ _ _ H4 H1).
  - destruct (rmatch r1 (s1 ++ s2) g k) eqn:E; [discriminate|].
    exact (IH1 _ _ _ _ H3 E).
  - destruct (rmatch r1 (s1 ++ s2) g k) eqn:E; [discriminate|].
    exact (IH2 _ _ _ _ H3 H).
  - exists g. exact (star_match_complete _ _ _ _ H1 H).
  - destruct (IH _ _ _ _ H3 H) as [g1 H1]. eauto.
Qed.
End MatcherFacts.

Lemma re_search_sound (r : regex) (s : str) m :
  re_search r s = Some m -> has_match r s.
Proof.
  induction s as [|x s IH]; simpl.
  - destruct (rmatch r [] [] (fun _ g => Some g)) eqn:E; [|discriminate].
    intros _. apply rmatch_sound in E. destruct E as (s1 & s2 & g' & E & L & _).
    exists [], s1, s2. auto.
  - destruct (rmatch r (x :: s) [] (fun _ g => Some g)) eqn:E.
    + intros _. apply rmatch_sound in E.
      destruct E as (s1 & s2 & g' & E & L & _).
      exists [], s1, s2. auto.
    + intros H. destruct (IH H) as (pre & mid & post & -> & L).
      exists (x :: pre), mid, post. auto.
Qed.

Lemma re_search_here (r : regex) (s : str) :
  rmatch r s [] (fun _ g => Some g) <> None -> re_search r s <> None.
Proof.
  destruct s; simpl; destruct (rmatch r _ [] (fun _ g => Some g));
    congruence.
Qed.

Lemma re_search_complete (r : regex) (s : str) :
  has_match r s -> re_search r s <> None.
Proof.
  intros (pre & mid & post & -> & L).
  induction pre as [|x pre IH].
  - apply re_search_here. intros Em.
    destruct (rmatch_complete r _ _ _ _ L Em) as [g' Hg]. discriminate.
  - simpl. destruct (rmatch r _ [] (fun _ g => Some g));
      [discriminate | exact IH].
Qed.

Lemma re_search_None_iff (r : regex) (s : str) :
  re_search r s = None <-> ~ has_match r s.
Proof.
  split.
  - intros H M. exact (re_search_complete r s M H).
  - intros H. destruct (re_search r s) eqn:E; [|reflexivity].
    exfalso. apply H. exact (re_search_sound r s _ E).
Qed.

(** ** What a successful match captures *)

Lemma firstn_consumed (s1 s2 : str) :
  firstn (length (s1 ++ s2) - length s2) (s1 ++ s2) = s1.
Proof.
  rewrite length_app.
  replace (length s1 + length s2 - length s2)%nat with (length s1) by lia.
  rewrite firstn_app, firstn_all, Nat.sub_diag. simpl. apply app_nil_r.
Qed.

Lemma groups_after_refl (r : regex) (g : groups) :
  (forall n, binds n r = false) -> groups_after r g g.
Proof.
  intros Hb. split.
  - intros n [H|H]; [exact H | rewrite Hb in H; discriminate].
  - intros n v H. left. exact H.
Qed.

Section Captures.
Context {A : Type}.

Lemma rmatch_inv (r : regex) :
  forall (s : str) (g : groups) (k : str -> groups -> option A) m,
    rmatch r s g k = Some m ->
    exists s1 s2 g',
      s = s1 ++ s2 /\ lang r s1 /\ k s2 g' = Some m /\ groups_after r g g'.
Proof.
  induction r as [|c|r1 IH1 r2 IH2|r1 IH1 r2 IH2|c|n r IH];
    intros s g k m H; simpl in H.
  - exists [], s, g.
    split; [reflexivity|]. split; [constructor|]. split; [exact H|].
    apply groups_after_refl; reflexivity.
  - destruct s as [|x s]; [discriminate|].
    destruct (cmatch c x) eqn:Ec; [|discriminate].
    exists [x], s, g.
    split; [reflexivity|]. split; [constructor; exact Ec|].
    split; [exact H|]. apply groups_after_refl; reflexivity.
  - apply IH1 in H. destruct H as (s1 & s2 & g1 & -> & L1 & H & [P1 Q1]).
    apply IH2 in H. destruct H as (s3 & s4 & g2 & -> & L2 & H & [P2 Q2]).
    exists (s1 ++ s3), s4, g2. rewrite app_assoc.
    repeat split; [constructor; assumption | exact H | |].
    + intros n [Hn|Hn]; apply P2; [left; apply P1; auto|].
      simpl in Hn. apply orb_true_iff in Hn. destruct Hn as [Hn|Hn].
      * left. apply P1. auto.
      * right. exact Hn.
    + intros n v Hv. simpl. rewrite Exists_app.
      destruct (Q2 n v Hv) as [Hv'|Hv']; [|auto].
      destruct (Q1 n v Hv'); auto.
  - destruct (rmatch r1 s g k) eqn:E1.
    + inversion H; subst. apply IH1 in E1.
      destruct E1 as (s1 & s2 & g1 & -> & L1 & K & [P1 Q1]).
      exists s1, s2, g1.
      repeat split; [apply L_alt_l; exact L1 | exact K | |].
      * intros n [Hn|Hn]; apply P1; [auto|]. simpl in Hn.
        apply andb_true_iff in Hn. tauto.
      * intros n v Hv. simpl. rewrite Exists_app.
        destruct (Q1 n v Hv); auto.
    + apply IH2 in H. destruct H as (s1 & s2 & g1 & -> & L1 & K & [P1 Q1]).
      exists s1, s2, g1.
      repeat split; [apply L_alt_r; exact L1 | exact K | |].
      * intros n [Hn|Hn]; apply P1; [auto|]. simpl in Hn.
        apply andb_true_iff in Hn. tauto.
      * intros n v Hv. simpl. rewrite Exists_app.
        destruct (Q1 n v Hv); auto.
  - apply star_match_sound in H. destruct H as (s1 & s2 & -> & F & K).
    exists s1, s2, g.
    split; [reflexivity|]. split; [constructor; exact F|].
    split; [exact K|]. apply groups_after_refl; reflexivity.
  - apply IH in H. destruct H as (s1 & s2 & g1 & -> & L1 & K & [P1 Q1]).
    rewrite firstn_consumed in K.
    exists s1, s2, ((n, s1) :: g1).
    repeat split; [constructor; exact L1 | exact K | |].
    + intros n' Hn. simpl. destruct (Nat.eqb n n') eqn:En; [discriminate|].
      apply P1. destruct Hn as [Hn|Hn]; [auto|]. simpl in Hn.
      rewrite En in Hn. auto.
    + intros n' v Hv. simpl in *. destruct (Nat.eqb n n') eqn:En.
      * inversion Hv; subst. right. simpl. apply Exists_cons_hd. exact L1.
      * simpl. destruct (Q1 n' v Hv); auto.
Qed.
End Captures.

Lemma re_search_inv (r : regex) (s : str) m :
  re_search r s = Some m -> groups_after r [] m.
Proof.
  induction s as [|x s IH]; simpl;
    destruct (rmatch r _ [] (fun _ g => Some g)) eqn:E;
    try discriminate; intros H; try (apply IH; exact H);
    inversion H; subst; apply rmatch_inv in E;
    destruct E as (s1 & s2 & g' & _ & _ & K & G);
    inversion K; subst; exact G.
Qed.

(** ** Field extraction *)

Lemma fold_append {X Y : Type} (f : X -> Y) (l : list X) (acc : list Y) :
  fold_left (fun vals x => vals ++ [f x]) l acc = acc ++ map f l.
Proof.
  revert acc. induction l as [|x l IH]; intros acc; simpl.
  - symmetry. apply app_nil_r.
  - rewrite IH, <- app_assoc. reflexivity.
Qed.

Lemma extract_map (txt : str) :
  extract txt = map (fun regex => search_for regex txt) REGEXS.
Proof.
  unfold extract.
  exact (fold_append (fun regex => search_for regex txt) REGEXS []).
Qed.

Lemma make_row_extract (dt : datetime) (txt : str) :
  make_row dt txt = [Some (strftime_sheet dt); None] ++ extract txt.
Proof.
  unfold make_row. rewrite extract_map.
  exact (fold_append (fun regex => search_for regex txt) REGEXS _).
Qed.

Lemma lang_plus_digits (v : str) :
  lang (RPlus CDigit) v -> v <> [] /\ forallb is_digit v = true.
Proof.
  intros L. inversion L as [| |r1 r2 s1 s2 L1 L2| | | |]; subst.
  inversion L1; subst. inversion L2; subst. split; [discriminate|].
  simpl in *. apply andb_true_iff. split; [assumption|].
  apply forallb_forall. apply Forall_forall. assumption.
Qed.

Lemma search_for_value (r : regex) (txt : str) :
  In r REGEXS ->
  (re_search r txt = None /\ search_for r txt = Some (lit "n/a"))
  \/ (re_search r txt <> None
      /\ exists v, search_for r txt = Some v /\ numeric v).
Proof.
  intros Hr. unfold search_for. destruct (re_search r txt) as [m|] eqn:E.
  - right. split; [discriminate|]. apply re_search_inv in E.
    destruct E as [P Q].
    assert (B : binds 1 r = true /\ bodies 1 r = [RPlus CDigit]).
    { simpl in Hr.
      repeat (destruct Hr as [<-|Hr]; [split; reflexivity|]).
      contradiction. }
    destruct B as [B1 B2].
    destruct (group 1 m) as [v|] eqn:Ev.
    + exists v. split; [reflexivity|]. destruct (Q _ _ Ev) as [H|H].
      * discriminate.
      * rewrite B2 in H. inversion H as [? ? L|? ? L]; subst.
        -- apply lang_plus_digits. exact L.
        -- inversion L.
    + exfalso. apply (P 1%nat); auto.
  - left. auto.
Qed.

Lemma not_numeric_sentinel : ~ numeric (lit "n/a").
Proof. intros [_ H]. discriminate. Qed.

(** C8. For every bulletin text the loop over the patterns yields exactly
    one value per pattern of [REGEXS], five in all, whatever matches; the
    row has the two leading cells and those five; and every value is a
    string (the sentinel or a captured run of digits), never [None] and
    never an error. *)
Theorem extract_length (txt : str) :
  length (extract txt) = length REGEXS
  /\ length REGEXS = 5%nat
  /\ (forall dt, length (make_row dt txt) = 7%nat)
  /\ (forall v, In v (extract txt) ->
                v = Some (lit "n/a") \/ exists ds, v = Some ds /\ numeric ds).
Proof.
  rewrite extract_map. split; [apply length_map|]. split; [reflexivity|].
  split.
  - intros dt. rewrite make_row_extract, extract_map. reflexivity.
  - intros v Hv. apply in_map_iff in Hv. destruct Hv as (r & <- & Hr).
    destruct (search_for_value r txt Hr) as [[_ H]|[_ H]]; auto.
Qed.

Lemma cases_first (post : str) :
  search_for (nth 0 REGEXS REps) (cases_sentence ++ post) = Some (lit "142").
Proof.
  unfold search_for.
  destruct (cases_sentence ++ post) as [|c rest] eqn:E; [discriminate|].
  injection E as <- <-.
  unfold re_search. cbn -[Nat.sub firstn].
  match goal with
  | |- context [firstn ?n _] => replace n with 3%nat by lia
  end.
  reflexivity.
Qed.

Lemma nth_error_extract (txt : str) (i : nat) (r : regex) :
  nth_error REGEXS i = Some r ->
  nth_error (extract txt) i = Some (search_for r txt)
  /\ forall dt, nth_error (make_row dt txt) (2 + i) = Some (search_for r txt).
Proof.
  intros H.
  assert (E : nth_error (extract txt) i = Some (search_for r txt)).
  { rewrite extract_map.
    exact (map_nth_error (fun regex => search_for regex txt) i REGEXS H). }
  split; [exact E|]. intros dt. rewrite make_row_extract. exact E.
Qed.

(** C4, as the code has it. For every bulletin text and every position of
    the pattern list: when the pattern has no match anywhere in the text,
    the value at that position (and the cell of the row two places further)
    is the string "n/a"; when it has a match, the value is a captured run
    of digits, so it is not the sentinel. For a text that begins with
    "There are 142 confirmed cases" and has no match of the ICU pattern, the
    case-count value is "142" and the ICU value is "n/a". *)
Theorem extract_sentinel :
  (forall txt i r,
      nth_error REGEXS i = Some r -> ~ has_match r txt ->
      nth_error (extract txt) i = Some (Some (lit "n/a"))
      /\ forall dt,
          nth_error (make_row dt txt) (2 + i) = Some (Some (lit "n/a")))
  /\ (forall txt i r,
         nth_error REGEXS i = Some r -> has_match r txt ->
         exists v, nth_error (extract txt) i = Some (Some v)
                   /\ numeric v /\ v <> lit "n/a")
  /\ (forall post,
         ~ has_match ICU_RE (cases_sentence ++ post) ->
         nth_error (extract (cases_sentence ++ post)) 0
         = Some (Some (lit "142"))
         /\ nth_error (extract (cases_sentence ++ post)) 3
            = Some (Some (lit "n/a"))).
Proof.
  split; [|split].
  - intros txt i r Hi Hn.
    destruct (nth_error_extract txt i r Hi) as [E1 E2].
    apply re_search_None_iff in Hn.
    assert (S : search_for r txt = Some (lit "n/a"))
      by (unfold search_for; rewrite Hn; reflexivity).
    rewrite E1, S. split; [reflexivity|]. intros dt. rewrite E2, S.
    reflexivity.
  - intros txt i r Hi Hm.
    destruct (nth_error_extract txt i r Hi) as [E1 _].
    apply nth_error_In in Hi.
    destruct (search_for_value r txt Hi) as [[N _]|[_ (v & Ev & Hv)]].
    + exfalso. apply re_search_None_iff in N. contradiction.
    + exists v. rewrite E1, Ev. split; [reflexivity|]. split; [exact Hv|].
      intros ->. exact (not_numeric_sentinel Hv).
  - intros post Hn. split.
    + rewrite (proj1 (nth_error_extract _ 0 _ eq_refl)).
      f_equal. apply cases_first.
    + rewrite (proj1 (nth_error_extract _ 3 ICU_RE eq_refl)).
      f_equal. apply re_search_None_iff in Hn. unfold search_for.
      rewrite Hn. reflexivity.
Qed.

Lemma bulletin_142_no_icu : ~ has_match ICU_RE bulletin_142.
Proof. apply re_search_None_iff. vm_compute. reflexivity. Qed.

Lemma extract_sentinel_witness :
  nth_error (extract bulletin_142) 0 = Some (Some (lit "142"))
  /\ nth_error (extract bulletin_142) 3 = Some (Some (lit "n/a"))
  /\ nth_error (make_row datetime_min bulletin_142) 5
     = Some (Some (lit "n/a")).
Proof.
  destruct extract_sentinel as (S1 & _ & S3).
  destruct (S3 _ bulletin_142_no_icu) as [E0 E3].
  split; [exact E0|]. split; [exact E3|].
  exact (proj2 (S1 bulletin_142 3%nat ICU_RE eq_refl bulletin_142_no_icu)
           datetime_min).
Defined.

(** C4 as it is worded does not hold: the value for a pattern without a
    match is not the string "not available". *)
Lemma sentinel_not_available_fails :
  ~ (forall txt i r,
        nth_error REGEXS i = Some r -> ~ has_match r txt ->
        nth_error (extract txt) i = Some (Some (lit "not available"))).
Proof.
  intros H.
  specialize (H bulletin_142 3%nat ICU_RE eq_refl bulletin_142_no_icu).
  vm_compute in H. discriminate.
Qed.

(** ** The order on datetimes *)

Lemma dt_leb_spec (a b : datetime) :
  dt_leb a b = true <->
  (year a < year b \/ (year a = year b /\
  (month a < month b \/ (month a = month b /\
  (day a < day b \/ (day a = day b /\
  (hour a < hour b \/ (hour a = hour b /\ minute a <= minute b)))))))).
Proof.
  unfold dt_leb, dt_compare.
  destruct (Z.compare_spec (year a) (year b));
    destruct (Z.compare_spec (month a) (month b));
    destruct (Z.compare_spec (day a) (day b));
    destruct (Z.compare_spec (hour a) (hour b));
    destruct (Z.compare_spec (minute a) (minute b));
    simpl; split; intros; try discriminate; try reflexivity; try lia.
Qed.

Lemma dt_leb_false (a b : datetime) :
  dt_leb a b = false <-> ~ dt_leb a b = true.
Proof. destruct (dt_leb a b); split; congruence. Qed.

Lemma dt_eq (a b : datetime) :
  year a = year b -> month a = month b -> day a = day b ->
  hour a = hour b -> minute a = minute b -> a = b.
Proof. destruct a, b; simpl; intros; subst; reflexivity. Qed.

Lemma dt_le_refl (a : datetime) : dt_le a a.
Proof. apply dt_leb_spec. lia. Qed.

Lemma dt_le_trans (a b c : datetime) : dt_le a b -> dt_le b c -> dt_le a c.
Proof. unfold dt_le. rewrite !dt_leb_spec. lia. Qed.

Lemma dt_le_antisym (a b : datetime) : dt_le a b -> dt_le b a -> a = b.
Proof.
  unfold dt_le. rewrite !dt_leb_spec. intros H1 H2. apply dt_eq; lia.
Qed.

Lemma dt_lt_le (a b : datetime) : dt_lt a b -> dt_le a b.
Proof.
  unfold dt_lt, dt_le. rewrite dt_leb_false, !dt_leb_spec. lia.
Qed.

Lemma dt_lt_irrefl (a : datetime) : ~ dt_lt a a.
Proof. unfold dt_lt. rewrite dt_leb_false, dt_leb_spec. lia. Qed.

Lemma dt_le_lt_trans (a b c : datetime) : dt_le a b -> dt_lt b c -> dt_lt a c.
Proof.
  unfold dt_lt, dt_le. rewrite !dt_leb_false, !dt_leb_spec. lia.
Qed.

Lemma dt_lt_le_trans (a b c : datetime) : dt_lt a b -> dt_le b c -> dt_lt a c.
Proof.
  unfold dt_lt, dt_le. rewrite !dt_leb_false, !dt_leb_spec. lia.
Qed.

Lemma dt_lt_trans (a b c : datetime) : dt_lt a b -> dt_lt b c -> dt_lt a c.
Proof. intros H1 H2. apply dt_lt_le in H1. eapply dt_le_lt_trans; eauto. Qed.

Lemma valid_dt_bounds (d : datetime) :
  valid_dt d = true ->
  1 <= year d <= 9999 /\ 1 <= month d <= 12 /\ 1 <= day d <= 31
  /\ 0 <= hour d <= 23 /\ 0 <= minute d <= 59.
Proof.
  unfold valid_dt, between. rewrite !andb_true_iff, !Z.leb_le.
  intros ((((Hy & Hm) & Hd) & HH) & HM).
  assert (days_in_month (year d) (month d) <= 31).
  { unfold days_in_month.
    repeat match goal with |- context [if ?c then _ else _] => destruct c end;
      lia. }
  lia.
Qed.

Lemma datetime_new_Some (y m d H M : Z) (dt : datetime) :
  datetime_new y m d H M = Some dt ->
  dt = mkdt y m d H M /\ valid_dt dt = true.
Proof.
  unfold datetime_new. destruct (valid_dt (mkdt y m d H M)) eqn:E;
    [|discriminate].
  intros H0. inversion H0; subst. auto.
Qed.

Lemma datetime_new_valid (dt : datetime) :
  valid_dt dt = true ->
  datetime_new (year dt) (month dt) (day dt) (hour dt) (minute dt) = Some dt.
Proof.
  intros V. unfold datetime_new. destruct dt; simpl. rewrite V. reflexivity.
Qed.

Lemma datetime_min_least (d : datetime) :
  valid_dt d = true -> dt_le datetime_min d.
Proof.
  intros V. apply valid_dt_bounds in V. apply dt_leb_spec. simpl. lia.
Qed.

Lemma above_min (d : datetime) :
  valid_dt d = true -> d <> datetime_min -> dt_lt datetime_min d.
Proof.
  intros V N. unfold dt_lt. apply dt_leb_false. intros H.
  apply N. apply dt_le_antisym; [exact H | apply datetime_min_least, V].
Qed.

(** ** Digits *)

Lemma digit_cases (v : Z) :
  0 <= v <= 9 ->
  v = 0 \/ v = 1 \/ v = 2 \/ v = 3 \/ v = 4 \/ v = 5 \/ v = 6 \/ v = 7
  \/ v = 8 \/ v = 9.
Proof. lia. Qed.

Ltac each_digit H :=
  apply digit_cases in H;
  repeat (destruct H as [H|H]); subst.

Lemma code_digit_char (v : Z) :
  0 <= v <= 9 -> code (digit_char v) = (48 + Z.to_N v)%N.
Proof. intros H. each_digit H; reflexivity. Qed.

Lemma is_digit_digit_char (v : Z) :
  0 <= v <= 9 -> is_digit (digit_char v) = true.
Proof. intros H. each_digit H; reflexivity. Qed.

Lemma is_space_digit_char (v : Z) :
  0 <= v <= 9 -> is_space (digit_char v) = false.
Proof. intros H. each_digit H; reflexivity. Qed.

Lemma digit_val_digit_char (v : Z) :
  0 <= v <= 9 -> digit_val (digit_char v) = v.
Proof. intros H. each_digit H; reflexivity. Qed.

Lemma mod10_digit (v : Z) : 0 <= v mod 10 <= 9.
Proof. pose proof (Z.mod_pos_bound v 10). lia. Qed.

Create HintDb digits.
#[local] Hint Resolve mod10_digit : digits.

Lemma strip_digits2 (a b : Z) :
  0 <= a <= 9 -> 0 <= b <= 9 ->
  strip [digit_char a; digit_char b] = [digit_char a; digit_char b].
Proof.
  intros Ha Hb. unfold strip. simpl.
  rewrite (is_space_digit_char a Ha). simpl.
  rewrite (is_space_digit_char b Hb). reflexivity.
Qed.

Lemma strip_digits4 (a b c d : Z) :
  0 <= a <= 9 -> 0 <= d <= 9 ->
  strip [digit_char a; digit_char b; digit_char c; digit_char d]
  = [digit_char a; digit_char b; digit_char c; digit_char d].
Proof.
  intros Ha Hd. unfold strip. simpl.
  rewrite (is_space_digit_char a Ha). simpl.
  rewrite (is_space_digit_char d Hd). reflexivity.
Qed.

Lemma py_int_pad2 (v : Z) : 0 <= v <= 99 -> py_int (pad2 v) = v.
Proof.
  intros H. unfold py_int, pad2.
  rewrite strip_digits2 by auto with digits. cbn [fold_left].
  rewrite !digit_val_digit_char by auto with digits.
  Z.to_euclidean_division_equations. lia.
Qed.

Lemma py_int_pad4 (v : Z) : 0 <= v <= 9999 -> py_int (pad4 v) = v.
Proof.
  intros H. unfold py_int, pad4.
  rewrite strip_digits4 by auto with digits. cbn [fold_left].
  rewrite !digit_val_digit_char by auto with digits.
  Z.to_euclidean_division_equations. lia.
Qed.

(** ** First matches compose *)

Lemma first_cls (c : cclass) (x : ascii) (rest : str) (g : groups) :
  cmatch c x = true -> first_match (RCls c) [x] rest g g.
Proof. intros Hc A k m H. simpl. rewrite Hc. exact H. Qed.

Lemma first_seq (r1 r2 : regex) (s1 s2 rest : str) (g g1 g2 : groups) :
  first_match r1 s1 (s2 ++ rest) g g1 ->
  first_match r2 s2 rest g1 g2 ->
  first_match (RSeq r1 r2) (s1 ++ s2) rest g g2.
Proof.
  intros H1 H2 A k m H. simpl. rewrite <- app_assoc.
  apply H1. apply H2. exact H.
Qed.

Lemma first_grp (n : nat) (r : regex) (s1 rest : str) (g g1 : groups) :
  first_match r s1 rest g g1 ->
  first_match (RGrp n r) s1 rest g ((n, s1) :: g1).
Proof.
  intros H1 A k m H. simpl. apply H1. rewrite firstn_consumed. exact H.
Qed.

Lemma first_star_nil (c : cclass) (x : ascii) (rest : str) (g : groups) :
  cmatch c x = false -> first_match (RStar c) [] (x :: rest) g g.
Proof. intros Hc A k m H. simpl. rewrite Hc. exact H. Qed.

(** Two known characters decide each two-digit directive. *)
Ltac first_two :=
  let A := fresh "A" in
  let k := fresh "k" in
  let m := fresh "m" in
  let H := fresh "H" in
  intros A k m H; cbn -[Nat.sub firstn];
  try rewrite H; try reflexivity; exact H.

Lemma z_range_cases (n : nat) (lo v : Z) :
  lo <= v < lo + Z.of_nat n ->
  In v (map (fun i => lo + Z.of_nat i) (seq 0 n)).
Proof.
  intros H. apply in_map_iff. exists (Z.to_nat (v - lo)). split; [lia|].
  apply in_seq. lia.
Qed.

Ltac each_value v n lo :=
  let H := fresh "H" in
  assert (H : In v (map (fun i => lo + Z.of_nat i) (seq 0 n)))
    by (apply z_range_cases; lia);
  simpl in H;
  repeat (destruct H as [H|H]; [subst v|]); [..|contradiction].

Lemma first_m (v : Z) (rest : str) (g : groups) :
  1 <= v <= 12 -> first_match re_m (pad2 v) rest g ((gm, pad2 v) :: g).
Proof.
  intros Hv. apply first_grp. each_value v 12%nat 1; first_two.
Qed.

Lemma first_d (v : Z) (rest : str) (g : groups) :
  1 <= v <= 31 -> first_match re_d (pad2 v) rest g ((gd, pad2 v) :: g).
Proof.
  intros Hv. apply first_grp. each_value v 31%nat 1; first_two.
Qed.

Lemma first_H (v : Z) (rest : str) (g : groups) :
  0 <= v <= 23 -> first_match re_H (pad2 v) rest g ((gH, pad2 v) :: g).
Proof.
  intros Hv. apply first_grp. each_value v 24%nat 0; first_two.
Qed.

Lemma first_M (v : Z) (rest : str) (g : groups) :
  0 <= v <= 59 -> first_match re_M (pad2 v) rest g ((gM, pad2 v) :: g).
Proof.
  intros Hv. apply first_grp. each_value v 60%nat 0; first_two.
Qed.

Lemma first_Y (v : Z) (rest : str) (g : groups) :
  first_match re_Y (pad4 v) rest g ((gY, pad4 v) :: g).
Proof.
  apply first_grp. unfold pad4. cbn [RSeqs].
  change [digit_char (v / 1000 mod 10); digit_char (v / 100 mod 10);
          digit_char (v / 10 mod 10); digit_char (v mod 10)]
    with ([digit_char (v / 1000 mod 10)]
            ++ [digit_char (v / 100 mod 10)]
            ++ [digit_char (v / 10 mod 10)] ++ [digit_char (v mod 10)]).
  repeat (eapply first_seq;
          [apply first_cls; apply is_digit_digit_char; auto with digits|]).
  apply first_cls; apply is_digit_digit_char; auto with digits.
Qed.

Lemma first_lit1 (c : ascii) (rest : str) (g : groups) :
  first_match (RCls (CChr c)) [c] rest g g.
Proof. apply first_cls. simpl. apply chr_eqb_refl. Qed.

Lemma first_ws_digit (v : Z) (rest : str) (g : groups) :
  0 <= v <= 9 -> first_match re_ws [space] (digit_char v :: rest) g g.
Proof.
  intros Hv. change [space] with ([space] ++ []). eapply first_seq.
  - apply first_cls. reflexivity.
  - apply first_star_nil. simpl. apply is_space_digit_char. exact Hv.
Qed.

Lemma first_ws_pad2 (v : Z) (rest : str) (g : groups) :
  first_match re_ws [space] (pad2 v ++ rest) g g.
Proof. apply first_ws_digit. auto with digits. Qed.

(** ** strptime after strftime *)

Lemma strptime_of_first (r : regex) (s : str) (g' : groups) :
  first_match r s [] [] g' -> strptime r s = datetime_of_groups g'.
Proof.
  intros H. unfold strptime, re_match.
  specialize (H _ (fun rest g => Some (g, rest)) (g', []) eq_refl).
  rewrite app_nil_r in H. rewrite H. reflexivity.
Qed.

Lemma first_FILE (d : datetime) :
  valid_dt d = true ->
  first_match FILE_RE (strftime_file d) [] []
    [(gM, pad2 (minute d)); (gH, pad2 (hour d)); (gd, pad2 (day d));
     (gm, pad2 (month d)); (gY, pad4 (year d))].
Proof.
  intros V. apply valid_dt_bounds in V.
  unfold FILE_RE, strftime_file. cbn [RSeqs].
  eapply first_seq; [apply first_Y|].
  eapply first_seq; [apply first_lit1|].
  eapply first_seq; [apply first_m; lia|].
  eapply first_seq; [apply first_lit1|].
  eapply first_seq; [apply first_d; lia|].
  eapply first_seq; [apply first_lit1|].
  eapply first_seq; [apply first_H; lia|].
  apply first_M; lia.
Qed.

Lemma first_SHEET (d : datetime) :
  valid_dt d = true ->
  first_match SHEET_RE (strftime_sheet d) [] []
    [(gM, pad2 (minute d)); (gH, pad2 (hour d)); (gd, pad2 (day d));
     (gm, pad2 (month d)); (gY, pad4 (year d))].
Proof.
  intros V. apply valid_dt_bounds in V.
  unfold SHEET_RE, strftime_sheet. cbn [RSeqs].
  eapply first_seq; [apply first_Y|].
  eapply first_seq; [apply first_lit1|].
  eapply first_seq; [apply first_m; lia|].
  eapply first_seq; [apply first_lit1|].
  eapply first_seq; [apply first_d; lia|].
  eapply first_seq; [rewrite <- app_assoc; apply first_ws_pad2|].
  eapply first_seq; [apply first_H; lia|].
  eapply first_seq; [apply first_lit1|].
  apply first_M; lia.
Qed.

Lemma datetime_of_canonical_groups (d : datetime) :
  valid_dt d = true ->
  datetime_of_groups
    [(gM, pad2 (minute d)); (gH, pad2 (hour d)); (gd, pad2 (day d));
     (gm, pad2 (month d)); (gY, pad4 (year d))] = Some d.
Proof.
  intros V. pose proof (valid_dt_bounds d V) as B.
  unfold datetime_of_groups. cbn [group gM gH gd gm gY gB gI gp Nat.eqb].
  rewrite !py_int_pad2, py_int_pad4 by lia.
  apply datetime_new_valid. exact V.
Qed.

Lemma strptime_strftime_file (d : datetime) :
  valid_dt d = true -> strptime FILE_RE (strftime_file d) = Some d.
Proof.
  intros V. rewrite (strptime_of_first _ _ _ (first_FILE d V)).
  apply datetime_of_canonical_groups. exact V.
Qed.

Lemma strptime_strftime_sheet (d : datetime) :
  valid_dt d = true -> strptime SHEET_RE (strftime_sheet d) = Some d.
Proof.
  intros V. rewrite (strptime_of_first _ _ _ (first_SHEET d V)).
  apply datetime_of_canonical_groups. exact V.
Qed.

Lemma datetime_of_groups_valid (g : groups) (d : datetime) :
  datetime_of_groups g = Some d -> valid_dt d = true.
Proof.
  unfold datetime_of_groups. intros H. apply datetime_new_Some in H. tauto.
Qed.

Lemma strptime_valid (r : regex) (s : str) (d : datetime) :
  strptime r s = Some d -> valid_dt d = true.
Proof.
  unfold strptime. destruct (re_match r s) as [[g [|c rest]]|];
    try discriminate.
  apply datetime_of_groups_valid.
Qed.

(** ** The order on strings, and on canonical names *)

Lemma lex_assoc (a b c : comparison) : lex (lex a b) c = lex a (lex b c).
Proof. destruct a; reflexivity. Qed.

Lemma lex_Eq_r (a : comparison) : lex a Eq = a.
Proof. destruct a; reflexivity. Qed.

Lemma str_leb_compare (a b : str) :
  str_leb a b = match str_compare a b with Gt => false | _ => true end.
Proof.
  revert b. induction a as [|x a IH]; intros [|y b]; simpl; try reflexivity.
  rewrite IH. unfold N.ltb. rewrite (N.compare_antisym (code x) (code y)).
  destruct (N.compare (code x) (code y)); reflexivity.
Qed.

Lemma str_compare_refl (a : str) : str_compare a a = Eq.
Proof.
  induction a as [|x a IH]; simpl; [reflexivity|].
  rewrite N.compare_refl. exact IH.
Qed.

Lemma str_compare_app (a1 b1 a2 b2 : str) :
  length a1 = length b1 ->
  str_compare (a1 ++ a2) (b1 ++ b2)
  = lex (str_compare a1 b1) (str_compare a2 b2).
Proof.
  revert b1. induction a1 as [|x a1 IH]; intros [|y b1] H; simpl in *;
    try discriminate; [reflexivity|].
  rewrite IH by lia. symmetry. apply lex_assoc.
Qed.

Lemma str_leb_refl (a : str) : str_leb a a = true.
Proof. rewrite str_leb_compare, str_compare_refl. reflexivity. Qed.

Lemma str_leb_total (a b : str) : str_leb a b = false -> str_leb b a = true.
Proof.
  revert b. induction a as [|x a IH]; intros [|y b]; simpl;
    try discriminate; try reflexivity.
  destruct (N.ltb_spec (code x) (code y)); [discriminate|].
  destruct (N.ltb_spec (code y) (code x)); [reflexivity|]. apply IH.
Qed.

Lemma str_leb_trans (a b c : str) :
  str_leb a b = true -> str_leb b c = true -> str_leb a c = true.
Proof.
  revert b c. induction a as [|x a IH]; intros [|y b] [|z c]; simpl;
    try discriminate; try reflexivity.
  destruct (N.ltb_spec (code x) (code y)), (N.ltb_spec (code y) (code x)),
    (N.ltb_spec (code y) (code z)), (N.ltb_spec (code z) (code y)),
    (N.ltb_spec (code x) (code z)), (N.ltb_spec (code z) (code x));
    try discriminate; try reflexivity; try lia.
  apply IH.
Qed.

Lemma compare_digit_chars (u v : Z) :
  0 <= u <= 9 -> 0 <= v <= 9 ->
  N.compare (code (digit_char u)) (code (digit_char v)) = (u ?= v).
Proof.
  intros Hu Hv. rewrite !code_digit_char by assumption.
  each_digit Hu; each_digit Hv; reflexivity.
Qed.

Lemma lex_digits2 (u v : Z) :
  0 <= u <= 99 -> 0 <= v <= 99 ->
  lex (u / 10 mod 10 ?= v / 10 mod 10) (u mod 10 ?= v mod 10) = (u ?= v).
Proof.
  intros Hu Hv.
  destruct (Z.compare_spec (u / 10 mod 10) (v / 10 mod 10));
    destruct (Z.compare_spec (u mod 10) (v mod 10));
    destruct (Z.compare_spec u v); simpl; try reflexivity; exfalso;
    Z.to_euclidean_division_equations; lia.
Qed.

Lemma str_compare_pad2 (u v : Z) :
  0 <= u <= 99 -> 0 <= v <= 99 -> str_compare (pad2 u) (pad2 v) = (u ?= v).
Proof.
  intros Hu Hv. unfold pad2. cbn [str_compare].
  rewrite !compare_digit_chars by auto with digits.
  rewrite lex_Eq_r. apply lex_digits2; assumption.
Qed.

Lemma pad4_pad2 (u : Z) :
  0 <= u <= 9999 -> pad4 u = pad2 (u / 100) ++ pad2 (u mod 100).
Proof.
  intros Hu. unfold pad4, pad2. cbn [app].
  replace (u / 100 / 10 mod 10) with (u / 1000 mod 10)
    by (Z.to_euclidean_division_equations; lia).
  replace (u mod 100 / 10 mod 10) with (u / 10 mod 10)
    by (Z.to_euclidean_division_equations; lia).
  replace ((u mod 100) mod 10) with (u mod 10)
    by (Z.to_euclidean_division_equations; lia).
  reflexivity.
Qed.

Lemma str_compare_pad4 (u v : Z) :
  0 <= u <= 9999 -> 0 <= v <= 9999 ->
  str_compare (pad4 u) (pad4 v) = (u ?= v).
Proof.
  intros Hu Hv. rewrite !pad4_pad2 by assumption.
  rewrite str_compare_app by reflexivity.
  rewrite !str_compare_pad2
    by (Z.to_euclidean_division_equations; lia).
  destruct (Z.compare_spec (u / 100) (v / 100));
    destruct (Z.compare_spec (u mod 100) (v mod 100));
    destruct (Z.compare_spec u v); simpl; try reflexivity; exfalso;
    Z.to_euclidean_division_equations; lia.
Qed.

Lemma str_compare_strftime_file (a b : datetime) :
  valid_dt a = true -> valid_dt b = true ->
  str_compare (strftime_file a) (strftime_file b) = dt_compare a b.
Proof.
  intros Va Vb. apply valid_dt_bounds in Va, Vb.
  unfold strftime_file, dt_compare.
  repeat (rewrite str_compare_app by reflexivity).
  rewrite str_compare_pad4, !str_compare_pad2 by lia.
  rewrite !str_compare_refl. reflexivity.
Qed.

Lemma str_leb_canonical (a b : datetime) :
  valid_dt a = true -> valid_dt b = true ->
  str_leb (strftime_file a ++ pdf_ext) (strftime_file b ++ pdf_ext)
  = dt_leb a b.
Proof.
  intros Va Vb. rewrite str_leb_compare.
  rewrite str_compare_app by reflexivity.
  rewrite str_compare_strftime_file, str_compare_refl, lex_Eq_r
    by assumption.
  reflexivity.
Qed.

(** ** Sorting *)

Lemma insert_sorted_perm (x : str) (l : list str) :
  Permutation (insert_sorted x l) (x :: l).
Proof.
  induction l as [|y l IH]; simpl; [reflexivity|].
  destruct (str_leb x y); [reflexivity|].
  rewrite IH. apply perm_swap.
Qed.

Lemma sort_strs_perm (l : list str) : Permutation (sort_strs l) l.
Proof.
  induction l as [|x l IH]; simpl; [reflexivity|].
  rewrite insert_sorted_perm. constructor. exact IH.
Qed.

Lemma insert_sorted_sorted (x : str) (l : list str) :
  StronglySorted str_le l -> StronglySorted str_le (insert_sorted x l).
Proof.
  induction 1 as [|y l S IH F]; simpl.
  - repeat constructor.
  - destruct (str_leb x y) eqn:E.
    + constructor; [constructor; assumption|]. constructor; [exact E|].
      eapply Forall_impl; [|exact F]. intros z Hz.
      eapply str_leb_trans; eauto.
    + constructor; [exact IH|].
      assert (P := insert_sorted_perm x l).
      apply Forall_forall. intros z Hz.
      apply (Permutation_in _ P) in Hz. destruct Hz as [<-|Hz].
      * apply str_leb_total. exact E.
      * rewrite Forall_forall in F. auto.
Qed.

Lemma sort_strs_sorted (l : list str) : StronglySorted str_le (sort_strs l).
Proof.
  induction l as [|x l IH]; simpl; [constructor|].
  apply insert_sorted_sorted. exact IH.
Qed.

Lemma sort_strs_In (l : list str) (x : str) : In x (sort_strs l) <-> In x l.
Proof.
  split; apply Permutation_in; [|symmetry]; apply sort_strs_perm.
Qed.

(** ** Dictionaries *)

Section DictFacts.
Context {V : Type}.
Implicit Types (d : dict V) (k : str) (v : V).

Lemma dict_mem_In k d : dict_mem k d = true <-> In k (dict_keys d).
Proof.
  unfold dict_mem. induction d as [|[k' v'] d IH]; simpl.
  - split; [discriminate | contradiction].
  - destruct (str_eqb k k') eqn:E.
    + apply str_eqb_eq in E. subst. tauto.
    + apply str_eqb_neq in E. rewrite IH. split; [auto|].
      intros [H|H]; [congruence | exact H].
Qed.

Lemma dict_mem_false k d : dict_mem k d = false <-> ~ In k (dict_keys d).
Proof.
  rewrite <- dict_mem_In. destruct (dict_mem k d); split; congruence.
Qed.

Lemma dict_get_None k d : dict_get k d = None <-> ~ In k (dict_keys d).
Proof.
  rewrite <- dict_mem_false. unfold dict_mem.
  destruct (dict_get k d); split; congruence.
Qed.

Lemma dict_get_In k v d : dict_get k d = Some v -> In (k, v) d.
Proof.
  induction d as [|[k' v'] d IH]; simpl; [discriminate|].
  destruct (str_eqb k k') eqn:E.
  - apply str_eqb_eq in E. subst. intros H. inversion H. auto.
  - auto.
Qed.

Lemma dict_get_set_eq k v d : dict_get k (dict_set k v d) = Some v.
Proof.
  induction d as [|[k' v'] d IH]; simpl.
  - rewrite str_eqb_refl. reflexivity.
  - destruct (str_eqb k k') eqn:E; simpl.
    + rewrite str_eqb_refl. reflexivity.
    + rewrite E. exact IH.
Qed.

Lemma dict_get_set_neq k k' v d :
  k' <> k -> dict_get k' (dict_set k v d) = dict_get k' d.
Proof.
  intros N. induction d as [|[k2 v2] d IH]; simpl.
  - apply str_eqb_neq in N. rewrite N. reflexivity.
  - destruct (str_eqb k k2) eqn:E; simpl.
    + apply str_eqb_eq in E. subst k2. apply str_eqb_neq in N.
      rewrite N. reflexivity.
    + rewrite IH. reflexivity.
Qed.

Lemma dict_keys_set_mem k v d :
  In k (dict_keys d) -> dict_keys (dict_set k v d) = dict_keys d.
Proof.
  induction d as [|[k' v'] d IH]; simpl; [contradiction|].
  destruct (str_eqb k k') eqn:E; simpl.
  - apply str_eqb_eq in E. subst. reflexivity.
  - apply str_eqb_neq in E. intros [H|H]; [congruence|].
    rewrite IH by assumption. reflexivity.
Qed.

Lemma dict_set_new k v d :
  ~ In k (dict_keys d) -> dict_set k v d = d ++ [(k, v)].
Proof.
  induction d as [|[k' v'] d IH]; simpl; [reflexivity|].
  intros N. destruct (str_eqb k k') eqn:E.
  - apply str_eqb_eq in E. subst. tauto.
  - rewrite IH by tauto. reflexivity.
Qed.

Lemma dict_set_app_r k v d1 d2 :
  ~ In k (dict_keys d1) -> dict_set k v (d1 ++ d2) = d1 ++ dict_set k v d2.
Proof.
  induction d1 as [|[k' v'] d1 IH]; simpl; [reflexivity|].
  intros N. destruct (str_eqb k k') eqn:E.
  - apply str_eqb_eq in E. subst. tauto.
  - rewrite IH by tauto. reflexivity.
Qed.

Lemma dict_set_NoDup k v d :
  NoDup (dict_keys d) -> NoDup (dict_keys (dict_set k v d)).
Proof.
  intros N. destruct (dict_mem k d) eqn:E.
  - apply dict_mem_In in E. rewrite dict_keys_set_mem; assumption.
  - apply dict_mem_false in E. rewrite dict_set_new by assumption.
    unfold dict_keys. rewrite map_app. simpl.
    apply NoDup_app; [exact N | repeat constructor; auto | ].
    intros x Hx [<-|[]]. exact (E Hx).
Qed.

Lemma dict_keys_del k d1 d2 v :
  ~ In k (dict_keys d1) ->
  dict_del k (d1 ++ (k, v) :: d2) = d1 ++ d2.
Proof.
  induction d1 as [|[k' v'] d1 IH]; simpl; intros N.
  - rewrite str_eqb_refl. reflexivity.
  - destruct (str_eqb k k') eqn:E.
    + apply str_eqb_eq in E. subst. tauto.
    + rewrite IH by tauto. reflexivity.
Qed.

Lemma dict_get_del_eq k d :
  NoDup (dict_keys d) -> dict_get k (dict_del k d) = None.
Proof.
  induction d as [|[k' v'] d IH]; simpl; intros N; [reflexivity|].
  inversion N as [|? ? N1 N2]; subst.
  destruct (str_eqb k k') eqn:E; simpl.
  - apply str_eqb_eq in E. subst. apply dict_get_None. exact N1.
  - rewrite E. apply IH. exact N2.
Qed.

Lemma dict_get_del_neq k k' d :
  k' <> k -> dict_get k' (dict_del k d) = dict_get k' d.
Proof.
  intros N. induction d as [|[k2 v2] d IH]; simpl; [reflexivity|].
  destruct (str_eqb k k2) eqn:E; simpl.
  - apply str_eqb_eq in E. subst k2. apply str_eqb_neq in N.
    rewrite N. reflexivity.
  - rewrite IH. reflexivity.
Qed.

Lemma dict_split k v d :
  dict_get k d = Some v ->
  exists d1 d2, d = d1 ++ (k, v) :: d2 /\ ~ In k (dict_keys d1).
Proof.
  induction d as [|[k' v'] d IH]; simpl; [discriminate|].
  destruct (str_eqb k k') eqn:E.
  - apply str_eqb_eq in E. subst. intros H. inversion H; subst.
    exists [], d. auto.
  - apply str_eqb_neq in E. intros H.
    destruct (IH H) as (d1 & d2 & -> & N).
    exists ((k', v') :: d1), d2. split; [reflexivity|].
    simpl. intros [H1|H1]; [congruence | auto].
Qed.
End DictFacts.

(** ** Removing the word "corrected" *)

Lemma replace_from_length (old : str) (s : str) (skip : nat) :
  (length (replace_from old [] skip s) <= length s)%nat.
Proof.
  revert skip. induction s as [|x s IH]; intros skip; simpl; [lia|].
  destruct skip as [|n].
  - destruct (startswith old (x :: s)); simpl.
    + specialize (IH (length old - 1)%nat). lia.
    + specialize (IH O). lia.
  - specialize (IH n). lia.
Qed.

Lemma contains_cons (p : str) (x : ascii) (s : str) :
  contains p (x :: s) = true -> startswith p (x :: s) = false ->
  contains p s = true.
Proof. simpl. intros H E. rewrite E in H. exact H. Qed.

Lemma replace_shorter (old s : str) :
  contains old s = true -> old <> [] ->
  (length (replace old [] s) < length s)%nat.
Proof.
  intros H N. unfold replace. induction s as [|x s IH].
  - destruct old; [congruence | discriminate].
  - cbn [replace_from]. destruct (startswith old (x :: s)) eqn:E.
    + pose proof (replace_from_length old s (length old - 1)). simpl. lia.
    + simpl. specialize (IH (contains_cons _ _ _ H E)). lia.
Qed.

Lemma lstrip_length (s : str) : (length (lstrip s) <= length s)%nat.
Proof.
  induction s as [|x s IH]; simpl; [lia|].
  destruct (is_space x); simpl; lia.
Qed.

Lemma strip_length (s : str) : (length (strip s) <= length s)%nat.
Proof.
  unfold strip. rewrite length_rev.
  pose proof (lstrip_length (rev (lstrip s))). rewrite length_rev in H.
  pose proof (lstrip_length s). lia.
Qed.

Lemma uncorrected_differs (text : str) :
  contains corrected text = true ->
  strip (replace corrected [] text) <> text.
Proof.
  intros H E.
  assert (L : (length (replace corrected [] text) < length text)%nat)
    by (apply replace_shorter; [exact H | discriminate]).
  pose proof (strip_length (replace corrected [] text)) as L'.
  rewrite E in L'. lia.
Qed.

(** ** The supersession pass *)

Lemma collect_NoDup (soup : list anchor) : NoDup (dict_keys (collect soup)).
Proof.
  unfold collect.
  assert (G : forall l (d : dict str),
             NoDup (dict_keys d) ->
             NoDup (dict_keys
                      (fold_left
                         (fun links a =>
                            let text := normalize (a_text a) in
                            if excluded text then links
                            else dict_set text (full_url (a_href a)) links)
                         l d))).
  { induction l as [|a l IH]; intros d N; simpl; [exact N|].
    apply IH. destruct (excluded (normalize (a_text a))); [exact N|].
    apply dict_set_NoDup. exact N. }
  apply G. constructor.
Qed.

Lemma split_unique (l1 l2 F q : list str) (x : str) :
  l1 ++ x :: l2 = F ++ x :: q -> ~ In x l1 -> NoDup (F ++ x :: q) ->
  l1 = F /\ l2 = q.
Proof.
  revert F. induction l1 as [|k l1 IH]; intros [|f F] E N1 N; simpl in *.
  - injection E as ->. auto.
  - injection E as <- E. apply NoDup_cons_iff in N. exfalso.
    apply (proj1 N). apply in_elt.
  - injection E as -> E. tauto.
  - injection E as -> E. apply NoDup_cons_iff in N.
    destruct (IH F E (fun H => N1 (or_intror H)) (proj2 N)) as [-> ->].
    auto.
Qed.

Lemma supersede_step_keys (text : str) (F q : list str) (d d' : dict str) :
  dict_keys d = F ++ text :: q -> NoDup (F ++ text :: q) ->
  supersede_step text d = Ok d' ->
  dict_keys d' = F ++ (if not_corrected text then [text] else []) ++ q.
Proof.
  intros K N. unfold supersede_step, not_corrected.
  destruct (contains corrected text) eqn:C; simpl.
  - destruct (dict_mem _ d) eqn:M; [|discriminate].
    destruct (dict_get text d) as [url|] eqn:G; [|discriminate].
    intros H. inversion H; subst d'. clear H.
    apply dict_mem_In in M.
    set (base := strip (replace corrected [] text)) in *.
    assert (K' : dict_keys (dict_set base url d) = F ++ text :: q)
      by (rewrite dict_keys_set_mem; assumption).
    assert (G' : dict_get text (dict_set base url d) = Some url).
    { rewrite dict_get_set_neq; [exact G|].
      intros E. symmetry in E. revert E. apply uncorrected_differs, C. }
    destruct (dict_split _ _ _ G') as (d1 & d2 & E & N1).
    rewrite E, dict_keys_del by assumption.
    rewrite E in K'. unfold dict_keys in *. rewrite map_app in *.
    simpl in K'.
    assert (S : map fst d1 = F /\ map fst d2 = q)
      by (apply (split_unique _ _ _ _ _ K' N1 N)).
    destruct S as [-> ->]. reflexivity.
  - intros H. inversion H; subst. exact K.
Qed.

Lemma supersede_keys_from (q F : list str) (d d' : dict str) :
  dict_keys d = F ++ q -> NoDup (F ++ q) ->
  for_each supersede_step q d = Ok d' ->
  dict_keys d' = F ++ filter not_corrected q.
Proof.
  revert F d. induction q as [|text q IH]; intros F d K N; simpl.
  - intros H. inversion H; subst. exact K.
  - destruct (supersede_step text d) as [d1|e] eqn:S; [|discriminate].
    intros H. pose proof (supersede_step_keys _ _ _ _ _ K N S) as K1.
    destruct (not_corrected text) eqn:C; simpl in K1.
    + rewrite (IH (F ++ [text]) d1); rewrite <- ?app_assoc; auto.
    + apply (IH F d1); auto.
      apply NoDup_remove_1 in N. exact N.
Qed.

Lemma supersede_keys (links links' : dict str) :
  NoDup (dict_keys links) -> supersede links = Ok links' ->
  dict_keys links' = filter not_corrected (dict_keys links).
Proof.
  intros N H. exact (supersede_keys_from _ [] _ _ eq_refl N H).
Qed.

Lemma supersede_NoDup (links links' : dict str) :
  NoDup (dict_keys links) -> supersede links = Ok links' ->
  NoDup (dict_keys links').
Proof.
  intros N H. rewrite (supersede_keys _ _ N H). apply NoDup_filter. exact N.
Qed.

(** C2, as the code has it. In the second loop of [get_links], for a label
    that contains "corrected" the base label is the label with every
    occurrence of the word removed and the blanks at its two ends stripped.
    If the base label is a key of the working map, the base entry takes the
    URL of the corrected entry, the corrected entry is removed and nothing
    else changes; if it is not, the run ends with the message
    "ERROR: uncorrected link not found". A label without the word is left
    alone, and after the whole pass exactly the labels without the word
    remain. The listing of the scenario yields the single entry
    2020-03-16_1400 -> .../health-update-1-v2.pdf. *)
Theorem supersede_rule :
  (forall links text url,
      NoDup (dict_keys links) ->
      contains corrected text = true ->
      dict_get text links = Some url ->
      let base := strip (replace corrected [] text) in
      (dict_mem base links = true ->
       exists links',
         supersede_step text links = Ok links'
         /\ dict_get base links' = Some url
         /\ dict_get text links' = None
         /\ forall k, k <> base -> k <> text ->
                      dict_get k links' = dict_get k links)
      /\ (dict_mem base links = false ->
          supersede_step text links
          = Raise (SystemExit_msg (lit "ERROR: uncorrected link not found"))))
  /\ (forall links text,
         contains corrected text = false ->
         supersede_step text links = Ok links)
  /\ (forall links links',
         NoDup (dict_keys links) -> supersede links = Ok links' ->
         dict_keys links' = filter not_corrected (dict_keys links))
  /\ get_links corrected_listing
     = Ok [(lit "2020-03-16_1400", url_of "health-update-1-v2.pdf")].
Proof.
  split; [|split; [|split]].
  - intros links text url N C G base. unfold supersede_step. rewrite C.
    fold base. split.
    + intros M. rewrite M, G. eexists. split; [reflexivity|].
      assert (D : base <> text) by (apply uncorrected_differs, C).
      split; [|split].
      * rewrite dict_get_del_neq by exact D. apply dict_get_set_eq.
      * apply dict_get_del_eq. apply dict_set_NoDup. exact N.
      * intros k Kb Kt. rewrite dict_get_del_neq by exact Kt.
        apply dict_get_set_neq. exact Kb.
    + intros M. rewrite M. reflexivity.
  - intros links text C. unfold supersede_step. rewrite C. reflexivity.
  - exact supersede_keys.
  - vm_compute. reflexivity.
Qed.

Lemma supersede_rule_witness :
  let links := collect corrected_listing in
  let text := lit "monday march 16 2020 2pm corrected" in
  let base := lit "monday march 16 2020 2pm" in
  exists links',
    supersede_step text links = Ok links'
    /\ dict_get base links' = Some (url_of "health-update-1-v2.pdf")
    /\ dict_get text links' = None.
Proof.
  destruct supersede_rule as (S1 & _).
  destruct (S1 (collect corrected_listing)
              (lit "monday march 16 2020 2pm corrected")
              (url_of "health-update-1-v2.pdf")
              (collect_NoDup _) eq_refl eq_refl) as [S _].
  destruct (S eq_refl) as (links' & E1 & E2 & E3 & _).
  exists links'. split; [exact E1|]. split; [exact E2 | exact E3].
Defined.

(** C2 as it is worded does not hold: with the word in the middle of the
    label, the label with the word removed and whitespace collapsed is in
    the working map, yet the entry is not replaced and the run fails. *)
Lemma collapsed_base_label_fails :
  let links := collect corrected_inside_listing in
  let text := lit "monday march 16 corrected 2020 2pm" in
  dict_get text links = Some (url_of "health-update-1-v2.pdf")
  /\ contains corrected text = true
  /\ collapsed_base_label text = lit "monday march 16 2020 2pm"
  /\ dict_mem (collapsed_base_label text) links = true
  /\ get_links corrected_inside_listing
     = Raise (SystemExit_msg (lit "ERROR: uncorrected link not found")).
Proof. vm_compute. repeat split; reflexivity. Qed.

(** ** Re-keying by timestamp *)

Lemma no_label_starts_with_digit (v : Z) (rest : str) :
  0 <= v <= 9 ->
  re_match LABEL_YEAR_RE (digit_char v :: rest) = None
  /\ re_match LABEL_RE (digit_char v :: rest) = None.
Proof. intros H. each_digit H; split; reflexivity. Qed.

Lemma encoding_is_no_label (dt : datetime) :
  parse_label (strftime_file dt) = None.
Proof.
  unfold parse_label, strptime.
  change (strftime_file dt)
    with (digit_char (year dt / 1000 mod 10)
            :: tl (pad4 (year dt)) ++ lit "-" ++ pad2 (month dt) ++ lit "-"
               ++ pad2 (day dt) ++ lit "_" ++ pad2 (hour dt)
               ++ pad2 (minute dt)).
  destruct (no_label_starts_with_digit (year dt / 1000 mod 10)
              (tl (pad4 (year dt)) ++ lit "-" ++ pad2 (month dt) ++ lit "-"
               ++ pad2 (day dt) ++ lit "_" ++ pad2 (hour dt)
               ++ pad2 (minute dt)) (mod10_digit _)) as [E1 E2].
  rewrite E1, E2. destruct (contains _ _); reflexivity.
Qed.

Lemma rekey_all_parse (q : list str) (d cat : dict str) :
  for_each rekey_step q d = Ok cat ->
  forall t, In t q -> exists dt, parse_label t = Some dt.
Proof.
  revert d. induction q as [|t q IH]; intros d H t' Hin; simpl in H;
    [contradiction|].
  destruct Hin as [<-|Hin].
  - unfold rekey_step in H. destruct (parse_label t) as [dt|]; eauto.
    discriminate.
  - destruct (rekey_step t d) as [d1|e]; [|discriminate]. eauto.
Qed.

Lemma dict_get_head {V : Type} (k : str) (v : V) (d : dict V) :
  dict_get k ((k, v) :: d) = Some v.
Proof. cbn [dict_get]. rewrite str_eqb_refl. reflexivity. Qed.

Lemma dict_del_head {V : Type} (k : str) (v : V) (d : dict V) :
  dict_del k ((k, v) :: d) = d.
Proof. cbn [dict_del]. rewrite str_eqb_refl. reflexivity. Qed.

Lemma rekey_step_head (t u : str) (q R : dict str) (dt : datetime) :
  parse_label t = Some dt ->
  ~ In (strftime_file dt) (dict_keys ((t, u) :: q)) ->
  rekey_step t (((t, u) :: q) ++ R)
  = Ok (q ++ dict_set (key_of t) u R).
Proof.
  intros Pt K. unfold rekey_step, key_of. rewrite Pt. cbn [app].
  rewrite dict_get_head.
  rewrite (app_comm_cons q R (t, u)), dict_set_app_r by exact K.
  rewrite <- app_comm_cons, dict_del_head. reflexivity.
Qed.

Lemma rekey_from (q R cat : dict str) :
  NoDup (dict_keys q) ->
  for_each rekey_step (dict_keys q) (q ++ R) = Ok cat ->
  cat = rekeyed q R.
Proof.
  revert R. induction q as [|[t u] q IH]; intros R N H.
  - inversion H. reflexivity.
  - change (dict_keys ((t, u) :: q)) with (t :: dict_keys q) in H, N.
    cbn [for_each] in H.
    destruct (rekey_step t (((t, u) :: q) ++ R)) as [d1|e] eqn:S;
      [|discriminate].
    pose proof (rekey_all_parse _ _ _ H) as P.
    destruct (parse_label t) as [dt|] eqn:Pt;
      [|unfold rekey_step in S; rewrite Pt in S; discriminate].
    assert (K : ~ In (strftime_file dt) (dict_keys ((t, u) :: q))).
    { change (dict_keys ((t, u) :: q)) with (t :: dict_keys q).
      intros [E|E].
      - rewrite E, encoding_is_no_label in Pt. discriminate.
      - destruct (P _ E) as [dt' E']. rewrite encoding_is_no_label in E'.
        discriminate. }
    rewrite (rekey_step_head _ _ _ _ _ Pt K) in S.
    inversion S; subst d1.
    apply NoDup_cons_iff in N.
    change (rekeyed ((t, u) :: q) R)
      with (rekeyed q (dict_set (key_of t) u R)).
    apply IH; [tauto | exact H].
Qed.

Lemma rekey_run (q R : dict str) :
  NoDup (dict_keys q) ->
  (forall t, In t (dict_keys q) -> parse_label t <> None) ->
  for_each rekey_step (dict_keys q) (q ++ R) = Ok (rekeyed q R).
Proof.
  revert R. induction q as [|[t u] q IH]; intros R N P; [reflexivity|].
  change (dict_keys ((t, u) :: q)) with (t :: dict_keys q) in *.
  cbn [for_each].
  destruct (parse_label t) as [dt|] eqn:Pt;
    [|exfalso; exact (P t (or_introl eq_refl) Pt)].
  assert (K : ~ In (strftime_file dt) (dict_keys ((t, u) :: q))).
  { change (dict_keys ((t, u) :: q)) with (t :: dict_keys q).
    intros [E|E].
    - rewrite E, encoding_is_no_label in Pt. discriminate.
    - exact (P _ (or_intror E) (encoding_is_no_label dt)). }
  rewrite (rekey_step_head _ _ _ _ _ Pt K).
  apply NoDup_cons_iff in N.
  change (rekeyed ((t, u) :: q) R)
    with (rekeyed q (dict_set (key_of t) u R)).
  apply IH; [tauto|]. intros t' Ht'. apply P. right. exact Ht'.
Qed.

Lemma rekey_spec (links cat : dict str) :
  NoDup (dict_keys links) -> rekey links = Ok cat -> cat = rekeyed links [].
Proof.
  intros N H. apply rekey_from; [exact N|]. rewrite app_nil_r. exact H.
Qed.

Lemma rekeyed_NoDup (links acc : dict str) :
  NoDup (dict_keys acc) -> NoDup (dict_keys (rekeyed links acc)).
Proof.
  revert acc. induction links as [|[t u] links IH]; intros acc N; simpl.
  - exact N.
  - apply IH. apply dict_set_NoDup. exact N.
Qed.

(** An entry of the result comes from the last label filed under its key,
    or from the starting dictionary when no label is. *)
Lemma rekeyed_get (links acc : dict str) (k : str) :
  (exists l1 t u l2,
      links = l1 ++ (t, u) :: l2 /\ key_of t = k
      /\ (forall t', In t' (dict_keys l2) -> key_of t' <> k)
      /\ dict_get k (rekeyed links acc) = Some u)
  \/ ((forall t', In t' (dict_keys links) -> key_of t' <> k)
      /\ dict_get k (rekeyed links acc) = dict_get k acc).
Proof.
  revert acc. induction links as [|[t u] links IH]; intros acc; simpl.
  - right. split; [contradiction | reflexivity].
  - destruct (IH (dict_set (key_of t) u acc))
      as [(l1 & t1 & u1 & l2 & -> & K & L & G)|[L G]].
    + left. exists ((t, u) :: l1), t1, u1, l2. auto.
    + destruct (str_eqb (key_of t) k) eqn:E.
      * apply str_eqb_eq in E. left. exists [], t, u, links.
        repeat split; auto. rewrite G, <- E. apply dict_get_set_eq.
      * apply str_eqb_neq in E. right. split.
        -- intros t' [<-|H]; auto.
        -- rewrite G. apply dict_get_set_neq. congruence.
Qed.

Lemma get_links_inv (soup : list anchor) (cat : dict str) :
  get_links soup = Ok cat ->
  exists links,
    supersede (collect soup) = Ok links /\ NoDup (dict_keys links)
    /\ rekey links = Ok cat /\ cat = rekeyed links [].
Proof.
  unfold get_links. destruct (supersede (collect soup)) as [links|e] eqn:S;
    [|discriminate].
  intros H. exists links.
  assert (N : NoDup (dict_keys links))
    by (eapply supersede_NoDup; [apply collect_NoDup | exact S]).
  repeat split; auto. apply rekey_spec; assumption.
Qed.

(** C1, as the code has it. [get_links] returns a catalog whenever the
    supersession pass succeeds and every label it leaves parses. Whenever
    it returns one, the keys of the catalog are pairwise distinct, and
    every entry carries the URL of the last label, in the order of the
    working map after the supersession pass, whose timestamp has that
    encoding: labels that parse to the same timestamp are merged, the later
    one replacing the earlier. *)
Theorem catalog_keys_unique :
  (forall soup links,
      supersede (collect soup) = Ok links ->
      (forall t, In t (dict_keys links) -> parse_label t <> None) ->
      exists cat, get_links soup = Ok cat)
  /\ (forall soup cat,
         get_links soup = Ok cat ->
         NoDup (dict_keys cat)
         /\ exists links,
             supersede (collect soup) = Ok links
             /\ NoDup (dict_keys links)
             /\ forall k u,
                 dict_get k cat = Some u <->
                 exists l1 t l2,
                   links = l1 ++ (t, u) :: l2 /\ key_of t = k
                   /\ forall t', In t' (dict_keys l2) -> key_of t' <> k).
Proof.
  split.
  { intros soup links S P. exists (rekeyed links []).
    unfold get_links, rekey. rewrite S.
    rewrite <- (app_nil_r links) at 2. apply rekey_run; [|exact P].
    eapply supersede_NoDup; [apply collect_NoDup | exact S]. }
  intros soup cat H.
  destruct (get_links_inv _ _ H) as (links & S & N & _ & ->).
  split; [apply rekeyed_NoDup; constructor|].
  exists links. split; [exact S|]. split; [exact N|].
  intros k u. split.
  - intros G. destruct (rekeyed_get links [] k)
      as [(l1 & t & u' & l2 & E & K & L & G')|[_ G']].
    + rewrite G in G'. inversion G'; subst u'. exists l1, t, l2. auto.
    + rewrite G in G'. discriminate.
  - intros (l1 & t & l2 & E & K & L).
    destruct (rekeyed_get links [] k)
      as [(l1' & t' & u' & l2' & E' & K' & L' & G')|[L' _]].
    + rewrite G'. f_equal.
      assert (X : l2' = l2 /\ (t', u') = (t, u)).
      { clear - E E' K K' L L'. rewrite E in E'. clear E. revert l1' E'.
        induction l1 as [|x l1 IH]; intros [|y l1'] E'; simpl in E'.
        - injection E' as -> ->. auto.
        - injection E' as -> E'. exfalso. apply (L t').
          + rewrite E'. unfold dict_keys. rewrite map_app. simpl.
            apply in_elt.
          + exact K'.
        - injection E' as <- E'. exfalso. apply (L' t).
          + rewrite <- E'. unfold dict_keys. rewrite map_app. simpl.
            apply in_elt.
          + exact K.
        - injection E' as -> E'. eauto. }
      destruct X as [_ X]. inversion X. reflexivity.
    + exfalso. apply (L' t); [|exact K]. rewrite E. unfold dict_keys.
      rewrite map_app. simpl. apply in_elt.
Qed.

Lemma same_hour_labels_parse (t : str) :
  In t (dict_keys [(lit "monday march 16 2020 2pm",
                    url_of "health-update-1.pdf");
                   (lit "monday march 16 2pm",
                    url_of "another-update.pdf")]) ->
  parse_label t <> None.
Proof. intros [<-|[<-|[]]]; vm_compute; discriminate. Qed.

Lemma catalog_keys_unique_witness :
  exists cat,
    get_links same_hour_listing = Ok cat /\ NoDup (dict_keys cat)
    /\ dict_get (lit "2020-03-16_1400") cat
       = Some (url_of "another-update.pdf").
Proof.
  destruct catalog_keys_unique as [T U].
  destruct (T same_hour_listing
              [(lit "monday march 16 2020 2pm",
                url_of "health-update-1.pdf");
               (lit "monday march 16 2pm", url_of "another-update.pdf")]
              eq_refl same_hour_labels_parse) as [cat E].
  exists cat. split; [exact E|]. split; [exact (proj1 (U _ _ E))|].
  assert (E' : get_links same_hour_listing
               = Ok [(lit "2020-03-16_1400", url_of "another-update.pdf")])
    by (vm_compute; reflexivity).
  rewrite E' in E. inversion E. reflexivity.
Defined.

(** C1 as it is worded does not hold: two labels, neither a correction,
    survive the supersession pass with different URLs, parse to the same
    timestamp, and the catalog keeps only the second URL. *)
Lemma same_hour_overwrites :
  supersede (collect same_hour_listing)
  = Ok [(lit "monday march 16 2020 2pm", url_of "health-update-1.pdf");
        (lit "monday march 16 2pm", url_of "another-update.pdf")]
  /\ contains corrected (lit "monday march 16 2020 2pm") = false
  /\ contains corrected (lit "monday march 16 2pm") = false
  /\ key_of (lit "monday march 16 2020 2pm") = lit "2020-03-16_1400"
  /\ key_of (lit "monday march 16 2pm") = lit "2020-03-16_1400"
  /\ get_links same_hour_listing
     = Ok [(lit "2020-03-16_1400", url_of "another-update.pdf")].
Proof. vm_compute. repeat split; reflexivity. Qed.

(** ** Labels *)

Lemma re_match_groups (r : regex) (s : str) (g : groups) (rest : str) :
  re_match r s = Some (g, rest) -> groups_after r [] g.
Proof.
  unfold re_match. intros H. apply rmatch_inv in H.
  destruct H as (s1 & s2 & g' & _ & _ & K & G). inversion K; subst.
  exact G.
Qed.

Lemma unbound_group (r : regex) (s : str) (g : groups) (rest : str) (n : nat) :
  re_match r s = Some (g, rest) -> bodies n r = [] -> group n g = None.
Proof.
  intros H B. apply re_match_groups in H. destruct H as [_ Q].
  destruct (group n g) as [v|] eqn:E; [|reflexivity].
  destruct (Q n v E) as [H|H]; [discriminate|].
  rewrite B in H. inversion H.
Qed.

Lemma label_whole_hour (r : regex) (text : str) (dt : datetime) :
  bodies gM r = [] -> strptime r text = Some dt -> minute dt = 0.
Proof.
  intros B. unfold strptime.
  destruct (re_match r text) as [[g [|c rest]]|] eqn:E; try discriminate.
  intros H. pose proof (unbound_group _ _ _ _ gM E B) as U.
  unfold datetime_of_groups in H. rewrite U in H.
  apply datetime_new_Some in H. destruct H as [-> _]. reflexivity.
Qed.

(** C6. For every label that [get_links] manages to parse: if the label
    contains "2020", the timestamp is exactly what the pattern with a year
    gives, with no change of the year; otherwise it is what the pattern
    without a year gives, with the year set to 2020 and the other fields
    kept. The key filed for the label is the year on four digits, the
    month and the day on two, an underscore, and the hour and the minute on
    two digits each, fifteen characters in all, and it reads back as the
    same timestamp. *)
Theorem parse_label_rule (text : str) (dt : datetime) :
  parse_label text = Some dt ->
  (contains (lit "2020") text = true ->
   strptime LABEL_YEAR_RE text = Some dt)
  /\ (contains (lit "2020") text = false ->
      exists dt0,
        strptime LABEL_RE text = Some dt0
        /\ dt = mkdt 2020 (month dt0) (day dt0) (hour dt0) (minute dt0))
  /\ valid_dt dt = true
  /\ minute dt = 0
  /\ key_of text
     = pad4 (year dt) ++ lit "-" ++ pad2 (month dt) ++ lit "-"
       ++ pad2 (day dt) ++ lit "_" ++ pad2 (hour dt) ++ pad2 (minute dt)
  /\ length (key_of text) = 15%nat
  /\ strptime FILE_RE (key_of text) = Some dt.
Proof.
  intros H. unfold key_of. rewrite H. unfold parse_label in H.
  assert (V : valid_dt dt = true /\ minute dt = 0).
  { destruct (contains (lit "2020") text).
    - split; [exact (strptime_valid _ _ _ H)|].
      apply (label_whole_hour LABEL_YEAR_RE text); [reflexivity | exact H].
    - destruct (strptime LABEL_RE text) as [dt0|] eqn:E; [|discriminate].
      apply datetime_new_Some in H. destruct H as [-> V]. split; [exact V|].
      exact (label_whole_hour LABEL_RE text dt0 eq_refl E). }
  destruct V as [V M0].
  split; [|split; [|split; [|split; [|split; [|split]]]]]; auto.
  - intros C. rewrite C in H. exact H.
  - intros C. rewrite C in H.
    destruct (strptime LABEL_RE text) as [dt0|]; [|discriminate].
    exists dt0. split; [reflexivity|].
    apply datetime_new_Some in H. tauto.
  - apply strptime_strftime_file. exact V.
Qed.

Lemma parse_label_rule_witness :
  parse_label (lit "monday march 16 2020 2pm") = Some (mkdt 2020 3 16 14 0)
  /\ parse_label (lit "monday march 16 2pm") = Some (mkdt 2020 3 16 14 0)
  /\ strptime LABEL_RE (lit "monday march 16 2pm")
     = Some (mkdt 1900 3 16 14 0)
  /\ key_of (lit "monday march 16 2pm") = lit "2020-03-16_1400"
  /\ strptime FILE_RE (key_of (lit "monday march 16 2pm"))
     = Some (mkdt 2020 3 16 14 0).
Proof.
  assert (E : parse_label (lit "monday march 16 2pm")
              = Some (mkdt 2020 3 16 14 0)) by reflexivity.
  destruct (parse_label_rule _ _ E) as (_ & _ & _ & _ & _ & _ & R).
  split; [reflexivity|]. split; [exact E|]. split; [reflexivity|].
  split; [reflexivity | exact R].
Defined.

(** ** Running in the world *)

Lemma with_stdout_same (w : world) : with_stdout w (w_stdout w) = w.
Proof. destruct w. reflexivity. Qed.

Lemma with_stdout_nil (w : world) : with_stdout w (w_stdout w ++ []) = w.
Proof. rewrite app_nil_r. apply with_stdout_same. Qed.

Lemma bind_ok {A B : Type} (c : M A) (f : A -> M B) (w w1 : world) (a : A) :
  c w = (Ok a, w1) -> bind c f w = f a w1.
Proof. intros H. unfold bind. rewrite H. reflexivity. Qed.

Lemma bind_raise {A B : Type} (c : M A) (f : A -> M B) (w w1 : world) e :
  c w = (Raise e, w1) -> bind c f w = (Raise e, w1).
Proof. intros H. unfold bind. rewrite H. reflexivity. Qed.

Lemma read_after_print (line pdf : str) (w : world) (dt : datetime)
      (acc : list row) :
  (print line ;;
   txt <- parse_pdf pdf ;;
   ret (acc ++ [make_row dt txt])) w
  = match dict_get pdf (w_pdfs w) with
    | Some (PdfFile pages) =>
        (Ok (acc ++ [make_row dt (pages_text pages)]),
         with_stdout w (w_stdout w ++ [line]))
    | _ => (Raise PdfReadError, with_stdout w (w_stdout w ++ [line]))
    end.
Proof.
  unfold print, parse_pdf, gets, ret, raise, with_stdout, bind.
  cbn [w_pdfs].
  destruct (dict_get pdf (w_pdfs w)) as [[pages|]|]; reflexivity.
Qed.

Lemma parse_loop_pure (lu : datetime) (names : list str) :
  forall (acc : list row) (w : world),
  exists lines,
    parse_loop lu names acc w
    = (select_rows (w_pdfs w) lu names acc,
       with_stdout w (w_stdout w ++ lines)).
Proof.
  induction names as [|pdf rest IH]; intros acc w.
  - exists []. rewrite with_stdout_nil. reflexivity.
  - cbn [parse_loop select_rows]. unfold parse_one.
    destruct (strptime FILE_RE (drop_ext pdf)) as [dt|].
    + destruct (dt_leb dt lu).
      * destruct (IH acc w) as [lines E]. exists lines.
        rewrite (bind_ok _ _ w w acc eq_refl). exact E.
      * pose proof (read_after_print
                      (lit "parsing info from: " ++ PDF_DIR ++ lit "/" ++ pdf)
                      pdf w dt acc) as R.
        destruct (dict_get pdf (w_pdfs w)) as [[pages|]|].
        -- rewrite (bind_ok _ _ _ _ _ R).
           destruct (IH (acc ++ [make_row dt (pages_text pages)])
                       (with_stdout w
                          (w_stdout w
                           ++ [lit "parsing info from: " ++ PDF_DIR
                               ++ lit "/" ++ pdf])))
             as [lines E].
           exists ([lit "parsing info from: " ++ PDF_DIR ++ lit "/" ++ pdf]
                     ++ lines).
           cbv beta. etransitivity; [exact E|].
           cbn [w_pdfs w_stdout with_stdout].
           rewrite <- app_assoc. reflexivity.
        -- rewrite (bind_raise _ _ _ _ _ R). eexists. reflexivity.
        -- rewrite (bind_raise _ _ _ _ _ R). eexists. reflexivity.
    + exists []. rewrite with_stdout_nil. reflexivity.
Qed.

Lemma parse_pdfs_pure (lu : datetime) (w : world) :
  exists lines,
    parse_pdfs lu w
    = (select_rows (w_pdfs w) lu (sort_strs (pdf_names w)) [],
       with_stdout w (w_stdout w ++ lines)).
Proof.
  unfold parse_pdfs, gets, bind. cbv beta iota.
  exact (parse_loop_pure lu (sorted_pdfs (w_pdfs w)) [] w).
Qed.

(** What the rows are when the selection succeeds. *)
Lemma select_rows_inv (pdfs : dict file_content) (lu : datetime) :
  forall (names : list str) (acc info : list row),
    select_rows pdfs lu names acc = Ok info ->
    exists dts sel,
      Forall2 (fun name dt => stamp name = Some dt) names dts
      /\ info = acc ++ map selected_row sel
      /\ map fst sel = filter (fun dt => negb (dt_leb dt lu)) dts.
Proof.
  induction names as [|pdf rest IH]; intros acc info H;
    cbn [select_rows] in H.
  - inversion H; subst. exists [], []. cbn [map]. rewrite app_nil_r.
    split; [constructor|]. split; reflexivity.
  - destruct (strptime FILE_RE (drop_ext pdf)) as [dt|] eqn:P;
      [|discriminate].
    destruct (dt_leb dt lu) eqn:L.
    + destruct (IH _ _ H) as (dts & sel & F & E & S).
      exists (dt :: dts), sel. split; [constructor; assumption|].
      split; [exact E|]. cbn [filter]. rewrite L. exact S.
    + destruct (dict_get pdf pdfs) as [[pages|]|]; try discriminate.
      destruct (IH _ _ H) as (dts & sel & F & E & S).
      exists (dt :: dts), ((dt, pages_text pages) :: sel).
      split; [constructor; assumption|].
      split; [rewrite E, <- app_assoc; reflexivity|].
      cbn [filter map fst]. rewrite L. cbn [negb]. rewrite S. reflexivity.
Qed.

(** When the selection succeeds. *)
Lemma select_rows_total (pdfs : dict file_content) (lu : datetime) :
  forall (names : list str) (acc : list row),
    (forall name, In name names ->
                  exists dt, stamp name = Some dt
                             /\ (dt_lt lu dt -> readable pdfs name)) ->
    exists info, select_rows pdfs lu names acc = Ok info.
Proof.
  induction names as [|pdf rest IH]; intros acc H; cbn [select_rows].
  - eauto.
  - destruct (H pdf (or_introl eq_refl)) as (dt & P & R).
    unfold stamp in P. rewrite P.
    destruct (dt_leb dt lu) eqn:L.
    + apply IH. intros name Hn. apply H. right. exact Hn.
    + destruct (R L) as [pages G]. rewrite G.
      apply IH. intros name Hn. apply H. right. exact Hn.
Qed.

(** ** The selection of parse_pdfs *)

Lemma drop_ext_canonical (dt : datetime) :
  drop_ext (strftime_file dt ++ pdf_ext) = strftime_file dt.
Proof. exact (firstn_consumed (strftime_file dt) pdf_ext). Qed.

Lemma stamp_canonical (dt : datetime) :
  valid_dt dt = true -> stamp (strftime_file dt ++ pdf_ext) = Some dt.
Proof.
  intros V. unfold stamp. rewrite drop_ext_canonical.
  apply strptime_strftime_file. exact V.
Qed.

Lemma canonical_stamp (name : str) (dt : datetime) :
  canonical name -> stamp name = Some dt ->
  valid_dt dt = true /\ name = strftime_file dt ++ pdf_ext.
Proof.
  intros (d0 & V & ->) H. rewrite (stamp_canonical d0 V) in H.
  inversion H; subst. auto.
Qed.

Lemma str_leb_strftime_file (a b : datetime) :
  valid_dt a = true -> valid_dt b = true ->
  str_leb (strftime_file a) (strftime_file b) = dt_leb a b.
Proof.
  intros Va Vb.
  rewrite str_leb_compare, str_compare_strftime_file by assumption.
  reflexivity.
Qed.

Lemma StronglySorted_filter {X : Type} (R : X -> X -> Prop) (f : X -> bool)
      (l : list X) :
  StronglySorted R l -> StronglySorted R (filter f l).
Proof.
  induction 1 as [|x l S IH F]; simpl; [constructor|].
  destruct (f x); [|exact IH]. constructor; [exact IH|].
  apply Forall_forall. intros y Hy. apply filter_In in Hy.
  rewrite Forall_forall in F. apply F. tauto.
Qed.

Lemma Forall2_In_r {X Y : Type} (R : X -> Y -> Prop) (l : list X)
      (l' : list Y) (y : Y) :
  Forall2 R l l' -> In y l' -> exists x, In x l /\ R x y.
Proof.
  induction 1 as [|x y' l l' Hxy F IH]; intros Hin; [contradiction|].
  destruct Hin as [<-|Hin].
  - exists x. split; [left; reflexivity | exact Hxy].
  - destruct (IH Hin) as (x' & H1 & H2). exists x'. split; [right|]; auto.
Qed.

Lemma Forall2_In_l {X Y : Type} (R : X -> Y -> Prop) (l : list X)
      (l' : list Y) (x : X) :
  Forall2 R l l' -> In x l -> exists y, In y l' /\ R x y.
Proof.
  induction 1 as [|x' y l l' Hxy F IH]; intros Hin; [contradiction|].
  destruct Hin as [<-|Hin].
  - exists y. split; [left; reflexivity | exact Hxy].
  - destruct (IH Hin) as (y' & H1 & H2). exists y'. split; [right|]; auto.
Qed.

Lemma stamps_sorted (names : list str) (dts : list datetime) :
  StronglySorted str_le names ->
  (forall name, In name names -> canonical name) ->
  Forall2 (fun name dt => stamp name = Some dt) names dts ->
  StronglySorted dt_le dts.
Proof.
  intros S C F. induction F as [|n d ns ds Hnd F IH]; [constructor|].
  apply StronglySorted_inv in S. destruct S as [S Hn].
  constructor.
  - apply IH; [exact S|]. intros name H. apply C. right. exact H.
  - apply Forall_forall. intros d' Hd'.
    destruct (Forall2_In_r _ _ _ _ F Hd') as (n' & Hn' & Hs').
    rewrite Forall_forall in Hn. specialize (Hn n' Hn').
    destruct (canonical_stamp n d (C n (or_introl eq_refl)) Hnd) as [V ->].
    destruct (canonical_stamp n' d' (C n' (or_intror Hn')) Hs') as [V' ->].
    unfold str_le in Hn. rewrite str_leb_canonical in Hn by assumption.
    exact Hn.
Qed.

Lemma encodings_sorted (dts : list datetime) :
  Forall (fun dt => valid_dt dt = true) dts ->
  StronglySorted dt_le dts ->
  StronglySorted str_le (map strftime_file dts).
Proof.
  intros V S. induction S as [|d ds S IH F]; simpl; [constructor|].
  inversion V as [|? ? Vd Vds]; subst.
  constructor; [apply IH; exact Vds|].
  apply Forall_forall. intros e He. apply in_map_iff in He.
  destruct He as (d' & <- & Hd'). unfold str_le.
  rewrite Forall_forall in F, Vds.
  rewrite str_leb_strftime_file by auto. apply F. exact Hd'.
Qed.

Lemma stamp_valid (name : str) (dt : datetime) :
  stamp name = Some dt -> valid_dt dt = true.
Proof. apply strptime_valid. Qed.

(** What [parse_pdfs] returns, in terms of the cache and the frontier. *)
Lemma parse_pdfs_inv (lu : datetime) (w w' : world) (info : list row) :
  parse_pdfs lu w = (Ok info, w') ->
  exists dts sel,
    Forall2 (fun name dt => stamp name = Some dt)
      (sort_strs (pdf_names w)) dts
    /\ info = map selected_row sel
    /\ map fst sel = filter (fun dt => negb (dt_leb dt lu)) dts
    /\ (exists lines, w' = with_stdout w (w_stdout w ++ lines)).
Proof.
  intros H. destruct (parse_pdfs_pure lu w) as [lines E].
  rewrite E in H. inversion H as [[H1 H2]].
  destruct (select_rows_inv _ _ _ _ _ H1) as (dts & sel & F & I & S).
  exists dts, sel. repeat split; eauto.
Qed.

Lemma selected_iff (lu : datetime) (w : world) (dts : list datetime)
      (sel : list (datetime * str)) :
  Forall2 (fun name dt => stamp name = Some dt)
    (sort_strs (pdf_names w)) dts ->
  map fst sel = filter (fun dt => negb (dt_leb dt lu)) dts ->
  forall dt, In dt (map fst sel) <-> cached w dt /\ dt_lt lu dt.
Proof.
  intros F S dt. rewrite S, filter_In. unfold dt_lt, cached.
  rewrite negb_true_iff. split; intros [H1 H2]; split; try exact H2.
  - destruct (Forall2_In_r _ _ _ _ F H1) as (n & Hn & Hs).
    exists n. split; [apply sort_strs_In; exact Hn | exact Hs].
  - destruct H1 as (n & Hn & Hs). apply sort_strs_In in Hn.
    destruct (Forall2_In_l _ _ _ _ F Hn) as (d & Hd & Hs').
    rewrite Hs in Hs'. inversion Hs'; subst. exact Hd.
Qed.

Lemma parse_pdfs_total (lu : datetime) (w : world) :
  (forall name, In name (pdf_names w) ->
                exists dt, stamp name = Some dt
                           /\ (dt_lt lu dt -> readable (w_pdfs w) name)) ->
  exists info w', parse_pdfs lu w = (Ok info, w').
Proof.
  intros H. destruct (parse_pdfs_pure lu w) as [lines E].
  destruct (select_rows_total (w_pdfs w) lu (sort_strs (pdf_names w)) [])
    as [info I].
  { intros name Hn. apply H. apply sort_strs_In. exact Hn. }
  rewrite I in E. eauto.
Qed.

(** C3, as the code has it. [parse_pdfs] returns, whenever every name in
    the cache reads as a timestamp and the files past the frontier are
    readable; the timestamps of its rows are exactly the cached timestamps
    strictly greater than the frontier, never one at or before it; with an
    empty timestamp column the frontier is [datetime.min], and then every
    cached timestamp other than [datetime.min] itself is selected; and when
    the cached files carry canonical names the rows come in ascending order
    of timestamp, which is the ascending order of the encodings. *)
Theorem frontier_select :
  (forall lu w,
      (forall name, In name (pdf_names w) ->
                    exists dt, stamp name = Some dt
                               /\ (dt_lt lu dt -> readable (w_pdfs w) name)) ->
      exists info w', parse_pdfs lu w = (Ok info, w'))
  /\ (forall lu w info w',
         parse_pdfs lu w = (Ok info, w') ->
         exists sel,
           info = map selected_row sel
           /\ Forall (fun s => dt_lt lu (fst s)) sel
           /\ (forall dt, In dt (map fst sel) <-> cached w dt /\ dt_lt lu dt)
           /\ (lu = datetime_min ->
               forall dt, cached w dt -> dt <> datetime_min ->
                          In dt (map fst sel))
           /\ ((forall name, In name (pdf_names w) -> canonical name) ->
               StronglySorted dt_le (map fst sel)
               /\ StronglySorted str_le (map strftime_file (map fst sel))))
  /\ last_update_of (read_column []) = Ok datetime_min.
Proof.
  split; [exact parse_pdfs_total|]. split; [|reflexivity].
  intros lu w info w' H.
  destruct (parse_pdfs_inv _ _ _ _ H) as (dts & sel & F & I & S & _).
  pose proof (selected_iff lu w dts sel F S) as Iff.
  exists sel. split; [exact I|]. split; [|split; [exact Iff|split]].
  - apply Forall_forall. intros s Hs.
    apply (in_map fst) in Hs. apply Iff in Hs. tauto.
  - intros -> dt C N. apply Iff. split; [exact C|].
    destruct C as (name & _ & Hs). apply above_min; [|exact N].
    exact (stamp_valid _ _ Hs).
  - intros C.
    assert (SS : StronglySorted dt_le (map fst sel)).
    { rewrite S. apply StronglySorted_filter.
      apply (stamps_sorted (sort_strs (pdf_names w))); auto.
      - apply sort_strs_sorted.
      - intros name Hn. apply C. apply sort_strs_In. exact Hn. }
    split; [exact SS|]. apply encodings_sorted; [|exact SS].
    apply Forall_forall. intros dt Hd. apply Iff in Hd.
    destruct Hd as [(name & _ & Hs) _]. exact (stamp_valid _ _ Hs).
Qed.

Lemma frontier_world_names (name : str) :
  In name (pdf_names frontier_world) ->
  canonical name
  /\ exists dt, stamp name = Some dt
                /\ (dt_lt (mkdt 2020 3 15 9 0) dt ->
                    readable (w_pdfs frontier_world) name).
Proof.
  intros H. vm_compute in H. destruct H as [<-|[<-|[]]].
  - split; [exists (mkdt 2020 3 16 14 0); split; reflexivity|].
    exists (mkdt 2020 3 16 14 0). split; [reflexivity|].
    intros _. eexists. reflexivity.
  - split; [exists (mkdt 2020 3 14 9 0); split; reflexivity|].
    exists (mkdt 2020 3 14 9 0). split; [reflexivity|].
    intros _. eexists. reflexivity.
Qed.

Lemma frontier_select_witness :
  exists sel,
    fst (parse_pdfs (mkdt 2020 3 15 9 0) frontier_world)
    = Ok (map selected_row sel)
    /\ Forall (fun s => dt_lt (mkdt 2020 3 15 9 0) (fst s)) sel
    /\ In (mkdt 2020 3 16 14 0) (map fst sel)
    /\ ~ In (mkdt 2020 3 14 9 0) (map fst sel)
    /\ StronglySorted dt_le (map fst sel).
Proof.
  destruct frontier_select as (T & P & _).
  destruct (T (mkdt 2020 3 15 9 0) frontier_world
              (fun name H => proj2 (frontier_world_names name H)))
    as (info & w' & E).
  destruct (P _ _ _ _ E) as (sel & I & L & Iff & _ & S).
  destruct (S (fun name H => proj1 (frontier_world_names name H)))
    as [S1 _].
  exists sel. rewrite E. split; [cbn [fst]; f_equal; exact I|].
  split; [exact L|]. split; [|split; [|exact S1]].
  - apply Iff. split; [|reflexivity].
    exists (lit "2020-03-16_1400.pdf").
    split; [left; reflexivity | vm_compute; reflexivity].
  - intros H. apply Iff in H. destruct H as [_ H]. discriminate.
Defined.

(** C3 as it is worded does not hold: with an empty timestamp column the
    frontier is [datetime.min], and a cached bulletin stamped with that
    very datetime is not selected. *)
Lemma frontier_min_not_selected :
  w_sheet min_world = []
  /\ last_update_of (read_column (w_sheet min_world)) = Ok datetime_min
  /\ cached min_world datetime_min
  /\ fst (parse_pdfs datetime_min min_world) = Ok [].
Proof.
  split; [reflexivity|]. split; [reflexivity|]. split.
  - exists (lit "0001-01-01_0000.pdf").
    split; [left; reflexivity | vm_compute; reflexivity].
  - vm_compute. reflexivity.
Qed.

(** ** The frontier marker *)

Lemma last_update_of_last (values : list (list str)) (cell : str)
      (more : list str) :
  last_update_of (values ++ [cell :: more])
  = match strptime SHEET_RE cell with
    | Some dt => Ok dt
    | None => Raise ValueError
    end.
Proof. unfold last_update_of. rewrite rev_unit. reflexivity. Qed.

Lemma sorted_last_greatest (ds : list datetime) (d : datetime) :
  StronglySorted dt_le (ds ++ [d]) -> forall x, In x (ds ++ [d]) -> dt_le x d.
Proof.
  induction ds as [|y ds IH]; simpl; intros S x Hx.
  - destruct Hx as [<-|[]]. apply dt_le_refl.
  - apply StronglySorted_inv in S. destruct S as [S F].
    destruct Hx as [<-|Hx]; [|apply IH; assumption].
    rewrite Forall_forall in F. apply F. apply in_or_app. right. left.
    reflexivity.
Qed.

Lemma last_update_sorted (values : list (list str)) (dts : list datetime) :
  Forall2 reads_as values dts -> StronglySorted dt_le dts -> values <> [] ->
  exists d, last_update_of values = Ok d /\ In d dts
            /\ forall dt, In dt dts -> dt_le dt d.
Proof.
  intros F S N. destruct (exists_last N) as (vs & r & ->).
  apply Forall2_app_inv_l in F. destruct F as (ds & dl & F1 & F2 & ->).
  inversion F2 as [|? d ? ? (cell & more & -> & P) F3]; subst.
  inversion F3; subst. exists d. rewrite last_update_of_last, P.
  split; [reflexivity|]. split; [apply in_or_app; right; left; reflexivity|].
  apply sorted_last_greatest. exact S.
Qed.

Lemma row_stamp_make_row (dt : datetime) (txt : str) :
  valid_dt dt = true -> row_stamp (make_row dt txt) = Some dt.
Proof.
  intros V. rewrite make_row_extract. cbn [app row_stamp].
  apply strptime_strftime_sheet. exact V.
Qed.

Lemma get_last_update_eq (w : world) :
  get_last_update w
  = if w_read_ok w then
      match last_update_of (read_column (w_sheet w)) with
      | Ok dt =>
          (Ok dt,
           with_stdout w
             (w_stdout w
              ++ [lit "last updated datetime: " ++ strftime_sheet dt]))
      | Raise e => (Raise e, w)
      end
    else (Raise HttpError, w).
Proof.
  unfold get_last_update, gets, lift, print, ret, raise, bind, with_stdout.
  cbv beta iota.
  destruct (w_read_ok w) eqn:R; [|reflexivity]. cbv beta iota.
  destruct (last_update_of (read_column (w_sheet w))); cbv beta iota;
    rewrite ?R; reflexivity.
Qed.

Lemma get_last_update_inv (w w' : world) (dt : datetime) :
  get_last_update w = (Ok dt, w') ->
  w_read_ok w = true
  /\ last_update_of (read_column (w_sheet w)) = Ok dt
  /\ w' = with_stdout w
            (w_stdout w
             ++ [lit "last updated datetime: " ++ strftime_sheet dt]).
Proof.
  rewrite get_last_update_eq.
  destruct (w_read_ok w); [|discriminate].
  destruct (last_update_of (read_column (w_sheet w))) as [d|e];
    [|discriminate].
  intros H. inversion H; subst. repeat split; reflexivity.
Qed.


Lemma rows_past_frontier (lu : datetime) (w w' : world) (info : list row) :
  parse_pdfs lu w = (Ok info, w') ->
  (forall r, In r info ->
             exists dt, row_stamp r = Some dt /\ dt_lt lu dt /\ cached w dt)
  /\ (forall dt, cached w dt -> dt_le dt lu ->
                 forall r, In r info -> row_stamp r <> Some dt).
Proof.
  intros H.
  destruct (parse_pdfs_inv _ _ _ _ H) as (dts & sel & F & -> & S & _).
  pose proof (selected_iff lu w dts sel F S) as Iff.
  assert (G : forall r, In r (map selected_row sel) ->
                        exists dt, row_stamp r = Some dt /\ dt_lt lu dt
                                   /\ cached w dt).
  { intros r Hr. apply in_map_iff in Hr. destruct Hr as ([d t] & <- & Hs).
    apply (in_map fst) in Hs. apply Iff in Hs. destruct Hs as [C L].
    exists d. split; [|auto]. apply row_stamp_make_row.
    destruct C as (name & _ & Hn). exact (stamp_valid _ _ Hn). }
  split; [exact G|].
  intros dt C L r Hr E. destruct (G r Hr) as (d & E' & L' & _).
  rewrite E in E'. inversion E'; subst d.
  unfold dt_lt in L'. unfold dt_le in L. congruence.
Qed.

(** C5, as the code has it. The frontier marker is read from the timestamp
    column below the header row and is the timestamp of its last row; when
    the column is in ascending order that is the latest timestamp in it.
    It is a strict lower bound: every row that [parse_pdfs] builds has a
    cached timestamp strictly after it, and no row is built for a cached
    timestamp at or before it. *)
Theorem last_update_is_last_row :
  (forall w w' dt,
      get_last_update w = (Ok dt, w') ->
      last_update_of (read_column (w_sheet w)) = Ok dt /\ store_kept w w')
  /\ (forall values cell more,
         last_update_of (values ++ [cell :: more])
         = match strptime SHEET_RE cell with
           | Some dt => Ok dt
           | None => Raise ValueError
           end)
  /\ (forall values dts,
         Forall2 reads_as values dts -> StronglySorted dt_le dts ->
         values <> [] ->
         exists d, last_update_of values = Ok d /\ In d dts
                   /\ forall dt, In dt dts -> dt_le dt d)
  /\ (forall lu w w' info,
         parse_pdfs lu w = (Ok info, w') ->
         (forall r, In r info ->
                    exists dt, row_stamp r = Some dt /\ dt_lt lu dt
                               /\ cached w dt)
         /\ (forall dt, cached w dt -> dt_le dt lu ->
                        forall r, In r info -> row_stamp r <> Some dt)).
Proof.
  split; [|split; [exact last_update_of_last|split]].
  - intros w w' dt H. apply get_last_update_inv in H.
    destruct H as (_ & L & ->). split; [exact L|]. split; reflexivity.
  - exact last_update_sorted.
  - intros lu w w' info. apply rows_past_frontier.
Qed.

Lemma last_update_is_last_row_witness :
  fst (get_last_update frontier_world) = Ok (mkdt 2020 3 15 9 0)
  /\ last_update_of (read_column (w_sheet frontier_world))
     = Ok (mkdt 2020 3 15 9 0)
  /\ forall r,
      In r (match fst (parse_pdfs (mkdt 2020 3 15 9 0) frontier_world) with
            | Ok info => info
            | Raise _ => []
            end) ->
      exists dt, row_stamp r = Some dt /\ dt_lt (mkdt 2020 3 15 9 0) dt.
Proof.
  destruct last_update_is_last_row as (G & _ & _ & P).
  destruct (get_last_update frontier_world) as [r w'] eqn:E.
  assert (R : r = Ok (mkdt 2020 3 15 9 0))
    by (change r with (fst (r, w')); rewrite <- E; vm_compute; reflexivity).
  subst r. destruct (G _ _ _ E) as [L _].
  split; [reflexivity|]. split; [exact L|].
  destruct (parse_pdfs (mkdt 2020 3 15 9 0) frontier_world)
    as [[info|e] w2] eqn:E2; cbn [fst]; [|contradiction].
  intros r Hr. destruct (proj1 (P _ _ _ _ E2) r Hr) as (dt & H1 & H2 & _).
  eauto.
Defined.

(** C5 as it is worded does not hold: the marker is the last row of the
    column, which is not its maximum when the column is out of order. *)
Lemma last_row_is_not_maximum :
  last_update_of (read_column unsorted_sheet) = Ok (mkdt 2020 3 15 9 0)
  /\ row_stamp (nth 0 unsorted_sheet []) = Some (mkdt 2020 3 16 14 0)
  /\ dt_lt (mkdt 2020 3 15 9 0) (mkdt 2020 3 16 14 0).
Proof. vm_compute. repeat split; reflexivity. Qed.

(** ** The steps of main *)

Lemma bind_inv {A B : Type} (c : M A) (f : A -> M B) (w w' : world)
      (r : result B) :
  bind c f w = (r, w') ->
  (exists a w1, c w = (Ok a, w1) /\ f a w1 = (r, w'))
  \/ (exists e, c w = (Raise e, w') /\ r = Raise e).
Proof.
  unfold bind. destruct (c w) as [[a|e] w1]; intros H.
  - left. eauto.
  - right. inversion H; subst. eauto.
Qed.

Lemma get_soup_eq (url : str) (w : world) :
  get_soup url w
  = match w_listing w with
    | Some soup => (Ok soup, w)
    | None =>
        (Raise (SystemExit_msg (lit "ERROR: could not connect to: " ++ url)),
         w)
    end.
Proof.
  unfold get_soup, gets, bind, ret, raise.
  destruct (w_listing w); reflexivity.
Qed.

Lemma get_sheet_service_eq (w : world) :
  get_sheet_service w
  = if w_auth w then (Ok tt, w) else (Raise AuthError, w).
Proof.
  unfold get_sheet_service, gets, bind, ret, raise.
  destruct (w_auth w); reflexivity.
Qed.

Lemma append_to_sheet_eq (info : list row) (w : world) :
  append_to_sheet info w
  = if w_append_ok w then
      (Ok tt,
       mkworld (w_listing w) (w_web w) (w_pdfs w) (w_auth w) (w_read_ok w)
         (w_append_ok w) (w_sheet w ++ info) (w_appends w ++ [info])
         (w_stdout w ++ [lit "updating spreadsheet..."]))
    else (Raise HttpError,
          with_stdout w (w_stdout w ++ [lit "updating spreadsheet..."])).
Proof.
  unfold append_to_sheet, print, bind, with_stdout. cbv beta iota.
  cbn [w_append_ok w_listing w_web w_pdfs w_auth w_read_ok w_sheet
       w_appends w_stdout].
  destruct (w_append_ok w) eqn:R; rewrite ?R; reflexivity.
Qed.

Lemma finish_eq (info : list row) (w : world) :
  finish info w
  = match info with
    | [] => (Raise (SystemExit_code 0),
             with_stdout w
               (w_stdout w ++ [lit "no new information to update"]))
    | _ :: _ => append_to_sheet info w
    end.
Proof. destruct info; reflexivity. Qed.

Lemma main_eq (w : world) :
  main w
  = match w_listing w with
    | None =>
        (Raise (SystemExit_msg
                  (lit "ERROR: could not connect to: " ++ ARCHIVE_URL)), w)
    | Some soup =>
        match get_links soup with
        | Raise e => (Raise e, w)
        | Ok links =>
            match download_pdfs links w with
            | (Raise e, w1) => (Raise e, w1)
            | (Ok _, w1) =>
                if w_auth w1 then
                  match get_last_update w1 with
                  | (Raise e, w2) => (Raise e, w2)
                  | (Ok lu, w2) =>
                      match parse_pdfs lu w2 with
                      | (Raise e, w3) => (Raise e, w3)
                      | (Ok info, w3) => finish info w3
                      end
                  end
                else (Raise AuthError, w1)
            end
        end
    end.
Proof.
  unfold main. fold finish.
  unfold bind at 1. rewrite get_soup_eq.
  destruct (w_listing w) as [soup|]; [|reflexivity].
  unfold bind at 1. unfold lift.
  destruct (get_links soup) as [links|e]; [|reflexivity].
  unfold bind at 1.
  destruct (download_pdfs links w) as [[[]|e] w1]; [|reflexivity].
  unfold bind at 1. rewrite get_sheet_service_eq.
  destruct (w_auth w1); [|reflexivity].
  unfold bind at 1.
  destruct (get_last_update w1) as [[lu|e] w2]; [|reflexivity].
  unfold bind at 1.
  destruct (parse_pdfs lu w2) as [[info|e] w3]; reflexivity.
Qed.

(** ** Downloading *)

Lemma download_pdfs_eq (links : dict str) :
  download_pdfs links = for_eachM download_item links.
Proof. reflexivity. Qed.

Lemma download_item_eq (item : str * str) (w : world) :
  download_item item w
  = if dict_mem (fst item ++ pdf_ext) (w_pdfs w) then (Ok tt, w)
    else
      let line := lit "downloading " ++ PDF_DIR ++ lit "/"
                  ++ (fst item ++ pdf_ext) ++ lit " <- "
                  ++ replace (DOMAIN ++ HREF_ROOT) [] (snd item) in
      match w_web w (snd item) with
      | None =>
          (Raise (SystemExit_msg
                    (lit "ERROR: could not access file: " ++ snd item)),
           with_stdout w (w_stdout w ++ [line]))
      | Some content =>
          (Ok tt,
           mkworld (w_listing w) (w_web w)
             (dict_set (fst item ++ pdf_ext) content (w_pdfs w)) (w_auth w)
             (w_read_ok w) (w_append_ok w) (w_sheet w) (w_appends w)
             (w_stdout w ++ [line]))
      end.
Proof.
  unfold download_item, download_pdf, write_file, print, gets, ret, raise,
    bind, with_stdout.
  cbv beta iota zeta.
  destruct (dict_mem (fst item ++ pdf_ext) (w_pdfs w)); [reflexivity|].
  cbv beta iota. cbn [w_web w_listing w_pdfs w_auth w_read_ok w_append_ok
                      w_sheet w_appends w_stdout].
  destruct (w_web w (snd item)); reflexivity.
Qed.

Lemma services_kept_refl (w : world) : services_kept w w.
Proof. repeat split. Qed.

Lemma services_kept_trans (w1 w2 w3 : world) :
  services_kept w1 w2 -> services_kept w2 w3 -> services_kept w1 w3.
Proof.
  unfold services_kept. intros (A1 & A2 & A3 & A4 & A5 & A6 & A7)
                               (B1 & B2 & B3 & B4 & B5 & B6 & B7).
  repeat split; congruence.
Qed.

Lemma services_kept_stdout (w : world) (out : list str) :
  services_kept w (with_stdout w out).
Proof. repeat split. Qed.

Lemma download_item_spec (item : str * str) (w w' : world)
      (r : result unit) :
  download_item item w = (r, w') ->
  services_kept w w'
  /\ cache_grown [item] w w'
  /\ (r = Ok tt -> In (fst item ++ pdf_ext) (dict_keys (w_pdfs w'))).
Proof.
  rewrite download_item_eq.
  destruct (dict_mem (fst item ++ pdf_ext) (w_pdfs w)) eqn:Mem.
  - intros H. inversion H; subst. split; [apply services_kept_refl|].
    split; [split; auto|]. intros _. apply dict_mem_In. exact Mem.
  - cbv zeta. destruct (w_web w (snd item)) as [c|]; intros H;
      inversion H; subst; clear H.
    + split; [repeat split|]. cbn [w_pdfs]. apply dict_mem_false in Mem.
      split; [split|].
      * intros name Hn. apply dict_get_set_neq. intros ->. tauto.
      * intros name Hn. cbn [w_pdfs] in Hn.
        rewrite dict_set_new in Hn by assumption.
        unfold dict_keys in Hn. rewrite map_app in Hn.
        apply in_app_or in Hn. destruct Hn as [Hn|[<-|[]]]; [left; exact Hn|].
        right. exists (fst item). split; [left|]; reflexivity.
      * intros _. apply dict_mem_In. unfold dict_mem.
        rewrite dict_get_set_eq. reflexivity.
    + split; [apply services_kept_stdout|]. split; [split; auto|].
      discriminate.
Qed.

Lemma download_pdfs_spec (links : dict str) :
  forall (w w' : world) (r : result unit),
    download_pdfs links w = (r, w') ->
    services_kept w w'
    /\ cache_grown links w w'
    /\ (r = Ok tt ->
        forall key, In key (dict_keys links) ->
                    In (key ++ pdf_ext) (dict_keys (w_pdfs w'))).
Proof.
  rewrite download_pdfs_eq.
  induction links as [|item links IH]; intros w w' r H.
  - inversion H; subst. split; [apply services_kept_refl|].
    split; [split; auto|]. intros _ key [].
  - cbn [for_eachM] in H. apply bind_inv in H.
    destruct H as [([] & w1 & H1 & H2)|(e & H1 & ->)].
    + apply download_item_spec in H1. destruct H1 as (S1 & [G1 G1'] & K1).
      destruct (IH _ _ _ H2) as (S2 & [G2 G2'] & K2).
      split; [eapply services_kept_trans; eauto|]. split; [split|].
      * intros name Hn. rewrite <- (G1 name Hn). apply G2.
        assert (X : dict_get name (w_pdfs w1) <> None).
        { rewrite (G1 name Hn). intros X. apply dict_get_None in X. tauto. }
        destruct (dict_mem name (w_pdfs w1)) eqn:Mm.
        -- apply dict_mem_In. exact Mm.
        -- unfold dict_mem in Mm. destruct (dict_get name (w_pdfs w1));
             [discriminate | congruence].
      * intros name Hn. destruct (G2' name Hn) as [Hn1|(key & Hk & ->)].
        -- destruct (G1' name Hn1) as [Hn0|(key & [<-|[]] & ->)]; [auto|].
           right. exists (fst item). split; [left|]; reflexivity.
        -- right. exists key. split; [right|]; auto.
      * intros -> key [<-|Hk]; [|apply (K2 eq_refl); exact Hk].
        specialize (K1 eq_refl).
        destruct (dict_mem (fst item ++ pdf_ext) (w_pdfs w')) eqn:Mm;
          [apply dict_mem_In; exact Mm|].
        exfalso. unfold dict_mem in Mm.
        rewrite (G2 _ K1) in Mm.
        apply dict_mem_In in K1. unfold dict_mem in K1.
        destruct (dict_get (fst item ++ pdf_ext) (w_pdfs w1)); discriminate.
    + apply download_item_spec in H1. destruct H1 as (S1 & [G1 G1'] & _).
      split; [exact S1|]. split; [split; [exact G1|]|discriminate].
      intros name Hn. destruct (G1' name Hn) as [Hn0|(key & [<-|[]] & ->)];
        [auto|].
      right. exists (fst item). split; [left|]; reflexivity.
Qed.

(** With every file already there, nothing is fetched. *)
Lemma download_pdfs_cached (links : dict str) (w : world) :
  (forall key, In key (dict_keys links) ->
               In (key ++ pdf_ext) (dict_keys (w_pdfs w))) ->
  download_pdfs links w = (Ok tt, w).
Proof.
  rewrite download_pdfs_eq. induction links as [|item links IH]; intros H.
  - reflexivity.
  - cbn [for_eachM].
    assert (E : download_item item w = (Ok tt, w)).
    { rewrite download_item_eq.
      destruct (dict_mem (fst item ++ pdf_ext) (w_pdfs w)) eqn:Mm;
        [reflexivity|].
      apply dict_mem_false in Mm. exfalso. apply Mm. apply H. left.
      reflexivity. }
    rewrite (bind_ok _ _ _ _ _ E). apply IH.
    intros key Hk. apply H. right. exact Hk.
Qed.

(** ** The store during a run *)

Lemma store_kept_refl (w : world) : store_kept w w.
Proof. split; reflexivity. Qed.

Lemma store_kept_trans (w1 w2 w3 : world) :
  store_kept w1 w2 -> store_kept w2 w3 -> store_kept w1 w3.
Proof. unfold store_kept. intros [A1 A2] [B1 B2]. split; congruence. Qed.

Lemma services_store (w w' : world) : services_kept w w' -> store_kept w w'.
Proof. unfold services_kept, store_kept. tauto. Qed.

Lemma get_last_update_store : keeps_store get_last_update.
Proof.
  intros w. rewrite get_last_update_eq. destruct (w_read_ok w);
    [|apply store_kept_refl].
  destruct (last_update_of (read_column (w_sheet w)));
    [split; reflexivity | apply store_kept_refl].
Qed.

Lemma parse_pdfs_store (lu : datetime) : keeps_store (parse_pdfs lu).
Proof.
  intros w. destruct (parse_pdfs_pure lu w) as [lines E]. rewrite E.
  split; reflexivity.
Qed.

Lemma download_pdfs_store (links : dict str) :
  keeps_store (download_pdfs links).
Proof.
  intros w. destruct (download_pdfs links w) as [r w'] eqn:E.
  apply download_pdfs_spec in E. apply services_store. tauto.
Qed.

Lemma finish_store (info : list row) (w : world) :
  one_batch_or_nothing w (finish info w).
Proof.
  rewrite finish_eq. destruct info as [|r info].
  - right. split; [discriminate | split; reflexivity].
  - rewrite append_to_sheet_eq. destruct (w_append_ok w).
    + left. split; [reflexivity|]. exists (r :: info).
      split; [discriminate | split; reflexivity].
    + right. split; [discriminate | split; reflexivity].
Qed.

Lemma one_batch_from (w w1 : world) (out : result unit * world) :
  store_kept w w1 -> one_batch_or_nothing w1 out ->
  one_batch_or_nothing w out.
Proof.
  intros [S A] [(R & info & N & H1 & H2)|[R K]].
  - left. split; [exact R|]. exists info. rewrite H1, H2, S, A. auto.
  - right. split; [exact R|]. eapply store_kept_trans; [split|]; eauto.
Qed.

Lemma raised_keeps (w w1 : world) (e : exn) :
  store_kept w w1 -> one_batch_or_nothing w (Raise e, w1).
Proof. intros K. right. split; [discriminate | exact K]. Qed.

(** C7. Whatever the listing, the web, the cache and the services do, a run
    of [main] either returns normally after exactly one append request,
    whose single batch holds all the new rows, or ends in any other way
    (a failed fetch, a label or file name that does not parse, an
    unreadable bulletin, a failed request, nothing new) with the store
    exactly as it was: no rows appended and no append request carried
    out. *)
Theorem store_written_once (w : world) :
  one_batch_or_nothing w (main w)
  /\ (length (w_appends (snd (main w))) <= length (w_appends w) + 1)%nat
  /\ (fst (main w) <> Ok tt ->
      w_sheet (snd (main w)) = w_sheet w
      /\ w_appends (snd (main w)) = w_appends w).
Proof.
  assert (O : one_batch_or_nothing w (main w)).
  { rewrite main_eq.
    destruct (w_listing w) as [soup|];
      [|apply raised_keeps, store_kept_refl].
    destruct (get_links soup) as [links|e];
      [|apply raised_keeps, store_kept_refl].
    pose proof (download_pdfs_store links w) as D.
    destruct (download_pdfs links w) as [[[]|e] w1]; cbn [snd] in D;
      [|apply raised_keeps, D].
    destruct (w_auth w1); [|apply raised_keeps, D].
    pose proof (get_last_update_store w1) as G.
    destruct (get_last_update w1) as [[lu|e] w2]; cbn [snd] in G;
      [|apply raised_keeps; eapply store_kept_trans; eauto].
    pose proof (parse_pdfs_store lu w2) as P.
    destruct (parse_pdfs lu w2) as [[info|e] w3]; cbn [snd] in P;
      [|apply raised_keeps; repeat (eapply store_kept_trans; eauto)].
    apply (one_batch_from w w3); [|apply finish_store].
    repeat (eapply store_kept_trans; eauto). }
  split; [exact O|]. destruct O as [(R & info & N & H1 & H2)|[R [K1 K2]]].
  - split; [rewrite H1, length_app; simpl; lia|]. intros X. contradiction.
  - split; [rewrite K2; lia|]. intros _. auto.
Qed.

Lemma store_written_once_witness :
  fst (main offline_world) <> Ok tt
  /\ w_sheet (snd (main offline_world)) = w_sheet offline_world
  /\ w_appends (snd (main offline_world)) = w_appends offline_world.
Proof.
  assert (N : fst (main offline_world) <> Ok tt)
    by (vm_compute; discriminate).
  split; [exact N|].
  exact (proj2 (proj2 (store_written_once offline_world)) N).
Defined.

(** ** Runs that reach the end of main *)

Lemma for_each_raise {X S : Type} (body : X -> S -> result S) (l : list X)
      (s : S) (e : exn) :
  for_each body l s = Raise e -> exists x s', body x s' = Raise e.
Proof.
  revert s. induction l as [|x l IH]; intros s H; simpl in H;
    [discriminate|].
  destruct (body x s) as [s'|e'] eqn:E.
  - eauto.
  - inversion H; subst. eauto.
Qed.

Lemma get_links_loud (soup : list anchor) (e : exn) :
  get_links soup = Raise e -> loud (@Raise (dict str) e).
Proof.
  unfold get_links. destruct (supersede (collect soup)) as [links|e'] eqn:S.
  - intros H. apply for_each_raise in H. destruct H as (t & d & H).
    unfold rekey_step in H. destruct (parse_label t).
    + destruct (dict_get t d); inversion H; exact I.
    + inversion H. exact I.
  - intros H. inversion H; subst. apply for_each_raise in S.
    destruct S as (t & d & S). unfold supersede_step in S.
    destruct (contains corrected t); [|discriminate].
    destruct (dict_mem _ d).
    + destruct (dict_get t d); inversion S; exact I.
    + inversion S. exact I.
Qed.

Lemma download_item_loud (item : str * str) (w w' : world) (e : exn) :
  download_item item w = (Raise e, w') -> loud (@Raise unit e).
Proof.
  rewrite download_item_eq.
  destruct (dict_mem _ _); [discriminate|]. cbv zeta.
  destruct (w_web w (snd item)); intros H; inversion H. exact I.
Qed.

Lemma download_pdfs_loud (links : dict str) (w w' : world) (e : exn) :
  download_pdfs links w = (Raise e, w') -> loud (@Raise unit e).
Proof.
  rewrite download_pdfs_eq. revert w.
  induction links as [|item links IH]; intros w H; [discriminate|].
  cbn [for_eachM] in H. apply bind_inv in H.
  destruct H as [([] & w1 & _ & H)|(e' & H & E)].
  - eapply IH. exact H.
  - inversion E; subst. eapply download_item_loud. exact H.
Qed.

Lemma last_update_of_loud (values : list (list str)) (e : exn) :
  last_update_of values = Raise e -> loud (@Raise unit e).
Proof.
  unfold last_update_of. destruct (rev values) as [|[|cell more] rest];
    try discriminate.
  - intros H. inversion H. exact I.
  - destruct (strptime SHEET_RE cell); intros H; inversion H. exact I.
Qed.

Lemma get_last_update_loud (w w' : world) (e : exn) :
  get_last_update w = (Raise e, w') -> loud (@Raise unit e).
Proof.
  rewrite get_last_update_eq. destruct (w_read_ok w).
  - destruct (last_update_of (read_column (w_sheet w))) eqn:L;
      intros H; inversion H; subst.
    eapply last_update_of_loud. exact L.
  - intros H. inversion H. exact I.
Qed.

Lemma select_rows_loud (pdfs : dict file_content) (lu : datetime)
      (names : list str) :
  forall acc e, select_rows pdfs lu names acc = Raise e ->
                loud (@Raise unit e).
Proof.
  induction names as [|pdf rest IH]; intros acc e H; cbn [select_rows] in H;
    [discriminate|].
  destruct (strptime FILE_RE (drop_ext pdf)); [|inversion H; exact I].
  destruct (dt_leb _ lu); [eapply IH; exact H|].
  destruct (dict_get pdf pdfs) as [[pages|]|];
    [eapply IH; exact H | inversion H; exact I | inversion H; exact I].
Qed.

Lemma parse_pdfs_loud (lu : datetime) (w w' : world) (e : exn) :
  parse_pdfs lu w = (Raise e, w') -> loud (@Raise unit e).
Proof.
  destruct (parse_pdfs_pure lu w) as [lines E]. rewrite E.
  intros H. inversion H as [[H1 H2]]. eapply select_rows_loud. exact H1.
Qed.

Lemma main_reaches_finish (w w' : world) (r : result unit) :
  main w = (r, w') -> ~ loud r ->
  exists links w1 lu w2 info w3,
    reached_finish w links w1 lu w2 info w3 /\ finish info w3 = (r, w').
Proof.
  rewrite main_eq. intros H L.
  destruct (w_listing w) as [soup|] eqn:El;
    [|inversion H; subst; exfalso; apply L; exact I].
  destruct (get_links soup) as [links|e] eqn:Eg;
    [|inversion H; subst; exfalso; apply L;
      exact (get_links_loud _ _ Eg)].
  destruct (download_pdfs links w) as [[[]|e] w1] eqn:Ed;
    [|inversion H; subst; exfalso; apply L;
      exact (download_pdfs_loud _ _ _ _ Ed)].
  destruct (w_auth w1) eqn:Ea;
    [|inversion H; subst; exfalso; apply L; exact I].
  destruct (get_last_update w1) as [[lu|e] w2] eqn:Eu;
    [|inversion H; subst; exfalso; apply L;
      exact (get_last_update_loud _ _ _ Eu)].
  destruct (parse_pdfs lu w2) as [[info|e] w3] eqn:Ep;
    [|inversion H; subst; exfalso; apply L;
      exact (parse_pdfs_loud _ _ _ _ Ep)].
  exists links, w1, lu, w2, info, w3. split; [|exact H].
  constructor; eauto.
Qed.

Lemma main_from_finish (w : world) links w1 lu w2 info w3 :
  reached_finish w links w1 lu w2 info w3 -> main w = finish info w3.
Proof.
  intros [(soup & El & Eg) Ed Ea Eu Ep].
  rewrite main_eq, El, Eg, Ed, Ea, Eu, Ep. reflexivity.
Qed.

Lemma pdf_names_eq (w1 w2 : world) :
  w_pdfs w1 = w_pdfs w2 -> pdf_names w1 = pdf_names w2.
Proof. unfold pdf_names. intros ->. reflexivity. Qed.

(** The worlds of a run that reached the end: same services and store,
    the cache grown by the download and then fixed. *)
Lemma reached_worlds (w : world) links w1 lu w2 info w3 :
  reached_finish w links w1 lu w2 info w3 ->
  services_kept w w1 /\ cache_grown links w w1
  /\ (forall key, In key (dict_keys links) ->
                  In (key ++ pdf_ext) (dict_keys (w_pdfs w1)))
  /\ last_update_of (read_column (w_sheet w)) = Ok lu
  /\ (exists out2, w2 = with_stdout w1 out2)
  /\ (exists out3, w3 = with_stdout w1 out3).
Proof.
  intros [_ Ed _ Eu Ep].
  apply download_pdfs_spec in Ed. destruct Ed as (S & G & K).
  apply get_last_update_inv in Eu. destruct Eu as (_ & L & ->).
  destruct (parse_pdfs_inv _ _ _ _ Ep) as (_ & _ & _ & _ & _ & lines & ->).
  split; [exact S|]. split; [exact G|]. split; [exact (K eq_refl)|].
  split; [|split; eexists; reflexivity].
  destruct S as (_ & _ & _ & _ & _ & <- & _). exact L.
Qed.

Lemma kept_names (links : dict str) (w w1 : world) (name : str) :
  cache_grown links w w1 -> In name (pdf_names w) -> In name (pdf_names w1).
Proof.
  intros [G _]. unfold pdf_names. rewrite !filter_In. intros [Hn Hp].
  split; [|exact Hp]. specialize (G name Hn).
  destruct (dict_mem name (w_pdfs w1)) eqn:Mm; [apply dict_mem_In, Mm|].
  exfalso. unfold dict_mem in Mm. rewrite G in Mm.
  apply dict_mem_In in Hn. unfold dict_mem in Hn.
  destruct (dict_get name (w_pdfs w)); discriminate.
Qed.

Lemma finish_Ok (info : list row) (w w' : world) :
  finish info w = (Ok tt, w') ->
  info <> [] /\ w_sheet w' = w_sheet w ++ info.
Proof.
  rewrite finish_eq. destruct info as [|r info]; [discriminate|].
  rewrite append_to_sheet_eq. destruct (w_append_ok w); [|discriminate].
  intros H. inversion H; subst. split; [discriminate | reflexivity].
Qed.

(** C10. What [parse_pdfs] returns depends on the cache directory and the
    frontier alone, not on the listing or the catalog; and in a run that
    appends, every file of the cache directory as it was before the run
    whose name reads as a timestamp after the frontier has its row among
    the appended ones, whether or not the listing mentions it. *)
Theorem cache_decides_rows :
  (forall lu w1 w2,
      w_pdfs w1 = w_pdfs w2 ->
      fst (parse_pdfs lu w1) = fst (parse_pdfs lu w2))
  /\ (forall w w',
         main w = (Ok tt, w') ->
         exists lu info,
           last_update_of (read_column (w_sheet w)) = Ok lu
           /\ w_sheet w' = w_sheet w ++ info
           /\ forall name dt,
               In name (pdf_names w) -> stamp name = Some dt ->
               dt_lt lu dt ->
               exists r, In r info /\ row_stamp r = Some dt).
Proof.
  split.
  - intros lu w1 w2 E.
    destruct (parse_pdfs_pure lu w1) as [l1 E1].
    destruct (parse_pdfs_pure lu w2) as [l2 E2].
    rewrite E1, E2. cbn [fst]. rewrite (pdf_names_eq _ _ E), E.
    reflexivity.
  - intros w w' H.
    destruct (main_reaches_finish _ _ _ H (fun X => X))
      as (links & w1 & lu & w2 & info & w3 & RF & Fin).
    destruct (reached_worlds _ _ _ _ _ _ _ RF)
      as (S & G & _ & L & [o2 ->] & [o3 ->]).
    destruct (finish_Ok _ _ _ Fin) as [_ Sh].
    exists lu, info. split; [exact L|]. split.
    + rewrite Sh. cbn [w_sheet with_stdout].
      destruct S as (_ & _ & _ & _ & _ & -> & _). reflexivity.
    + intros name dt Hn Hs Hl.
      destruct RF as [_ _ _ _ Ep].
      destruct (parse_pdfs_inv _ _ _ _ Ep) as (dts & sel & F & -> & Sel & _).
      pose proof (selected_iff lu _ dts sel F Sel dt) as Iff.
      assert (C : cached (with_stdout w1 o2) dt).
      { exists name. split; [|exact Hs].
        change (pdf_names (with_stdout w1 o2)) with (pdf_names w1).
        eapply kept_names; eauto. }
      destruct Iff as [_ Iff]. specialize (Iff (conj C Hl)).
      apply in_map_iff in Iff. destruct Iff as ([d t] & Ed & Hin).
      cbn [fst] in Ed. subst d. exists (selected_row (dt, t)).
      split; [apply in_map; exact Hin|].
      apply row_stamp_make_row. exact (stamp_valid _ _ Hs).
Qed.

Lemma cache_decides_rows_witness :
  w_listing unlisted_world = Some []
  /\ exists info r,
      w_sheet (snd (main unlisted_world)) = w_sheet unlisted_world ++ info
      /\ In r info /\ row_stamp r = Some (mkdt 2020 3 16 14 0).
Proof.
  split; [reflexivity|].
  destruct (main unlisted_world) as [res w'] eqn:E.
  assert (R : res = Ok tt)
    by (change res with (fst (res, w')); rewrite <- E; vm_compute;
        reflexivity).
  subst res.
  destruct (proj2 cache_decides_rows _ _ E) as (lu & info & L & Sh & Rows).
  assert (L' : last_update_of (read_column (w_sheet unlisted_world))
               = Ok (mkdt 2020 3 15 9 0)) by (vm_compute; reflexivity).
  rewrite L' in L. inversion L; subst lu.
  destruct (Rows (lit "2020-03-16_1400.pdf") (mkdt 2020 3 16 14 0))
    as (r & Hr & Hs).
  - left. reflexivity.
  - vm_compute. reflexivity.
  - reflexivity.
  - exists info, r. cbn [snd]. auto.
Defined.

(** ** A second run *)

Lemma parse_label_valid (text : str) (dt : datetime) :
  parse_label text = Some dt -> valid_dt dt = true.
Proof.
  unfold parse_label. destruct (contains (lit "2020") text).
  - apply strptime_valid.
  - destruct (strptime LABEL_RE text); [|discriminate].
    intros H. apply datetime_new_Some in H. tauto.
Qed.

Lemma dict_keys_set_In {V : Type} (k k' : str) (v : V) (d : dict V) :
  In k (dict_keys (dict_set k' v d)) -> k = k' \/ In k (dict_keys d).
Proof.
  induction d as [|[k2 v2] d IH]; simpl.
  - intros [<-|[]]. auto.
  - destruct (str_eqb k' k2) eqn:E; simpl.
    + apply str_eqb_eq in E. subst. intros [<-|H]; auto.
    + intros [<-|H]; [auto|]. destruct (IH H); auto.
Qed.

Lemma rekeyed_keys (links acc : dict str) (k : str) :
  In k (dict_keys (rekeyed links acc)) ->
  In k (dict_keys acc) \/ exists t, In t (dict_keys links) /\ k = key_of t.
Proof.
  revert acc. induction links as [|[t u] links IH]; intros acc H.
  - left. exact H.
  - change (rekeyed ((t, u) :: links) acc)
      with (rekeyed links (dict_set (key_of t) u acc)) in H.
    destruct (IH _ H) as [H1|(t' & H1 & H2)].
    + apply dict_keys_set_In in H1. destruct H1 as [->|H1]; [|auto].
      right. exists t. split; [left|]; reflexivity.
    + right. exists t'. split; [right|]; auto.
Qed.


Lemma read_column_last (sheet : list row) (r : row) (cell : str) :
  cell_A r = [cell] ->
  read_column (sheet ++ [r]) = map cell_A sheet ++ [[cell]].
Proof.
  intros C. unfold read_column. rewrite map_app. cbn [map].
  rewrite rev_unit, C. cbn [drop_empty]. cbn [rev].
  rewrite rev_involutive. reflexivity.
Qed.

Lemma cell_A_selected (s : datetime * str) :
  cell_A (selected_row s) = [strftime_sheet (fst s)].
Proof. unfold selected_row. rewrite make_row_extract. reflexivity. Qed.

Lemma last_update_after_append (sheet : list row)
      (sel : list (datetime * str)) (d : datetime) (t : str) :
  valid_dt d = true ->
  last_update_of (read_column (sheet ++ map selected_row (sel ++ [(d, t)])))
  = Ok d.
Proof.
  intros V. rewrite map_app, app_assoc. cbn [map].
  rewrite (read_column_last _ _ _ (cell_A_selected (d, t))).
  rewrite last_update_of_last. cbn [fst].
  rewrite strptime_strftime_sheet by exact V. reflexivity.
Qed.





(** C9. The claim fails on the code at a cache directory that holds
    2020-03-17_0900.pdf and 2020-3-16_1400.pdf, with an empty listing and
    an empty store. [parse_pdfs] walks the files in the order of their
    names, not of their timestamps as its comment says, so the first run
    appends the row of 17 March before the row of 16 March and leaves the
    older timestamp in the last row; the second run, with nothing changed
    in between, takes that row as the frontier, returns normally and has
    appended a third row, where the claim has it append none. *)
Lemma rerun_appends_again :
  let w1 := snd (main odd_name_world) in
  let w2 := snd (main w1) in
  fst (main odd_name_world) = Ok tt
  /\ w_listing w1 = w_listing odd_name_world
  /\ length (w_sheet w1) = 2%nat
  /\ fst (main w1) = Ok tt
  /\ length (w_sheet w2) = 3%nat.
Proof. vm_compute. repeat split; reflexivity. Qed.

(** * Further properties of the code *)

(** ** Timestamps as text *)

(** X1. Both renderings of a valid datetime, the file-name one and the
    sheet one, are read back by [strptime] as the same datetime, and two
    valid datetimes with the same file-name rendering are equal. *)
Theorem timestamp_round_trip :
  (forall d, valid_dt d = true ->
             strptime FILE_RE (strftime_file d) = Some d
             /\ strptime SHEET_RE (strftime_sheet d) = Some d)
  /\ (forall a b, valid_dt a = true -> valid_dt b = true ->
                  strftime_file a = strftime_file b -> a = b).
Proof.
  split.
  - intros d V. split;
      [apply strptime_strftime_file | apply strptime_strftime_sheet]; exact V.
  - intros a b Va Vb E.
    pose proof (strptime_strftime_file a Va) as Ha.
    rewrite E, (strptime_strftime_file b Vb) in Ha. congruence.
Qed.

Lemma timestamp_round_trip_witness :
  strptime FILE_RE (strftime_file (mkdt 2020 3 16 14 0))
  = Some (mkdt 2020 3 16 14 0)
  /\ strftime_sheet (mkdt 2020 3 16 14 0) = lit "2020-03-16 14:00".
Proof.
  split; [|reflexivity].
  exact (proj1 (proj1 timestamp_round_trip (mkdt 2020 3 16 14 0) eq_refl)).
Defined.

Lemma stamps_of_canonical (names : list str) :
  (forall name, In name names -> canonical name) ->
  exists dts, Forall2 (fun name dt => stamp name = Some dt) names dts.
Proof.
  induction names as [|n names IH]; intros C.
  - exists []. constructor.
  - destruct (C n (or_introl eq_refl)) as (d & V & ->).
    destruct IH as [dts F]; [intros name H; apply C; right; exact H|].
    exists (d :: dts). constructor; [apply stamp_canonical; exact V | exact F].
Qed.

(** X2. For files named by the canonical encoding, the order of the names
    is the order of the timestamps; so the sorted list of cached names that
    [parse_pdfs] walks is a rearrangement of the names [glob] gives in
    which the timestamps ascend. *)
Theorem name_order_is_time_order :
  (forall a b, valid_dt a = true -> valid_dt b = true ->
               str_leb (strftime_file a ++ pdf_ext)
                       (strftime_file b ++ pdf_ext)
               = dt_leb a b)
  /\ (forall pdfs,
         (forall name, In name (filter is_pdf_name (dict_keys pdfs)) ->
                       canonical name) ->
         Permutation (sorted_pdfs pdfs) (filter is_pdf_name (dict_keys pdfs))
         /\ exists dts,
             Forall2 (fun name dt => stamp name = Some dt)
               (sorted_pdfs pdfs) dts
             /\ StronglySorted dt_le dts).
Proof.
  split; [exact str_leb_canonical|].
  intros pdfs C. split; [apply sort_strs_perm|].
  assert (C' : forall name, In name (sorted_pdfs pdfs) -> canonical name).
  { intros name H. apply C. apply (proj1 (sort_strs_In _ _)). exact H. }
  destruct (stamps_of_canonical _ C') as [dts F]. exists dts.
  split; [exact F|].
  exact (stamps_sorted _ _ (sort_strs_sorted _) C' F).
Qed.

Lemma name_order_is_time_order_witness :
  str_leb (lit "2020-03-14_0900.pdf") (lit "2020-03-16_1400.pdf") = true
  /\ sorted_pdfs (w_pdfs frontier_world)
     = [lit "2020-03-14_0900.pdf"; lit "2020-03-16_1400.pdf"].
Proof.
  split; [|reflexivity].
  exact (proj1 name_order_is_time_order (mkdt 2020 3 14 9 0)
           (mkdt 2020 3 16 14 0) eq_refl eq_refl).
Defined.

(** ** Labels without a year *)

(** X3. A label read with the year-less pattern gets the year 1900, so it
    can never be 29 February; and setting its year to 2020 always
    succeeds, keeping month, day, hour and minute. *)
Theorem yearless_label (text : str) (dt0 : datetime) :
  strptime LABEL_RE text = Some dt0 ->
  year dt0 = 1900
  /\ ~ (month dt0 = 2 /\ day dt0 = 29)
  /\ replace_year 2020 dt0
     = Some (mkdt 2020 (month dt0) (day dt0) (hour dt0) (minute dt0)).
Proof.
  intros H. pose proof (strptime_valid _ _ _ H) as V.
  assert (Y : year dt0 = 1900).
  { unfold strptime in H.
    destruct (re_match LABEL_RE text) as [[g [|c rest]]|] eqn:E;
      try discriminate.
    pose proof (unbound_group _ _ _ _ gY E eq_refl) as U.
    unfold datetime_of_groups in H. rewrite U in H.
    apply datetime_new_Some in H. destruct H as [-> _]. reflexivity. }
  unfold valid_dt in V. rewrite Y in V. rewrite !andb_true_iff in V.
  destruct V as ((((_ & Vm) & Vd) & VH) & VM).
  assert (D : day dt0 <= days_in_month 1900 (month dt0))
    by (unfold between in Vd; apply andb_true_iff in Vd;
        destruct Vd as [_ Vd]; apply Z.leb_le; exact Vd).
  assert (D1 : 1 <= day dt0)
    by (unfold between in Vd; apply andb_true_iff in Vd;
        destruct Vd as [Vd _]; apply Z.leb_le; exact Vd).
  split; [exact Y|]. split.
  - intros [M2 D29]. rewrite M2 in D.
    change (days_in_month 1900 2) with 28 in D. lia.
  - unfold replace_year, datetime_new, valid_dt. cbn [year month day hour
      minute]. rewrite Vm, VH, VM.
    assert (Vd' : between 1 (day dt0) (days_in_month 2020 (month dt0)) = true).
    { unfold between. apply andb_true_iff. split; apply Z.leb_le; [lia|].
      assert (days_in_month 1900 (month dt0)
              <= days_in_month 2020 (month dt0)).
      { unfold days_in_month.
        destruct (month dt0 =? 2); [vm_compute; discriminate|].
        destruct ((month dt0 =? 4) || (month dt0 =? 6) || (month dt0 =? 9)
                  || (month dt0 =? 11))%bool; lia. }
      lia. }
    rewrite Vd'. reflexivity.
Qed.

Lemma yearless_label_witness :
  year (mkdt 1900 3 16 14 0) = 1900
  /\ replace_year 2020 (mkdt 1900 3 16 14 0) = Some (mkdt 2020 3 16 14 0)
  /\ strptime LABEL_RE (lit "saturday february 29 2pm") = None.
Proof.
  destruct (yearless_label (lit "monday march 16 2pm") (mkdt 1900 3 16 14 0)
              eq_refl) as (Y & _ & R).
  split; [exact Y|]. split; [exact R | reflexivity].
Defined.

(** ** The supersession pass, again *)

Lemma supersede_nothing (q : list str) (d : dict str) :
  (forall t, In t q -> contains corrected t = false) ->
  for_each supersede_step q d = Ok d.
Proof.
  induction q as [|t q IH]; intros H; [reflexivity|].
  cbn [for_each]. unfold supersede_step at 1.
  rewrite (H t (or_introl eq_refl)). apply IH.
  intros t' Ht'. apply H. right. exact Ht'.
Qed.

(** X4. The supersession pass is idempotent: run on a working map that it
    has already resolved, it succeeds and changes nothing. *)
Theorem supersede_idempotent (links links' : dict str) :
  NoDup (dict_keys links) -> supersede links = Ok links' ->
  supersede links' = Ok links'.
Proof.
  intros N H. unfold supersede. apply supersede_nothing.
  intros t Ht. rewrite (supersede_keys _ _ N H) in Ht.
  apply filter_In in Ht. destruct Ht as [_ Ht]. unfold not_corrected in Ht.
  apply negb_true_iff in Ht. exact Ht.
Qed.

Lemma supersede_idempotent_witness :
  exists links',
    supersede (collect corrected_listing) = Ok links'
    /\ supersede links' = Ok links'
    /\ dict_keys links' = [lit "monday march 16 2020 2pm"].
Proof.
  exists [(lit "monday march 16 2020 2pm", url_of "health-update-1-v2.pdf")].
  assert (E : supersede (collect corrected_listing)
              = Ok [(lit "monday march 16 2020 2pm",
                     url_of "health-update-1-v2.pdf")])
    by (vm_compute; reflexivity).
  split; [exact E|]. split; [|reflexivity].
  exact (supersede_idempotent _ _ (collect_NoDup corrected_listing) E).
Defined.

(** ** Appending, then reading the frontier *)

(** X5. After [append_to_sheet] has appended the rows built for some
    bulletins, [get_last_update] reads the timestamp of the last of them. *)
Theorem frontier_after_append (w w1 : world)
        (sel : list (datetime * str)) (d : datetime) (t : str) :
  valid_dt d = true -> w_read_ok w = true ->
  append_to_sheet (map selected_row (sel ++ [(d, t)])) w = (Ok tt, w1) ->
  fst (get_last_update w1) = Ok d.
Proof.
  intros V R H. rewrite append_to_sheet_eq in H.
  destruct (w_append_ok w); [|discriminate]. inversion H; subst w1; clear H.
  rewrite get_last_update_eq. cbn [w_read_ok w_sheet]. rewrite R.
  rewrite (last_update_after_append _ _ _ _ V). reflexivity.
Qed.

Lemma frontier_after_append_witness :
  fst (get_last_update
         (snd (append_to_sheet
                 (map selected_row [(mkdt 2020 3 16 14 0, lit "text")])
                 frontier_world)))
  = Ok (mkdt 2020 3 16 14 0).
Proof.
  destruct (append_to_sheet
              (map selected_row [(mkdt 2020 3 16 14 0, lit "text")])
              frontier_world) as [r w1] eqn:E.
  assert (R : r = Ok tt)
    by (change r with (fst (r, w1)); rewrite <- E; reflexivity).
  subst r.
  exact (frontier_after_append frontier_world w1 [] (mkdt 2020 3 16 14 0)
           (lit "text") eq_refl eq_refl E).
Defined.

(** ** Cleaning a label *)

Lemma normalize_eq (t : str) : normalize t = squeeze (map norm_char t).
Proof. unfold normalize, lower. rewrite !map_map. reflexivity. Qed.

Lemma norm_char_clean (x : ascii) :
  N.ltb 127 (code (norm_char x)) = false
  /\ is_punct (norm_char x) = false
  /\ in_range 65 90 (norm_char x) = false
  /\ norm_char (norm_char x) = norm_char x.
Proof.
  destruct x as [[] [] [] [] [] [] [] []]; vm_compute;
    repeat split; reflexivity.
Qed.

Lemma is_sp_eq (x : ascii) : is_sp x = true -> x = space.
Proof. unfold is_sp. apply chr_eqb_eq. Qed.

Lemma squeeze_In (s : str) (c : ascii) : In c (squeeze s) -> In c s.
Proof.
  induction s as [|x s IH]; [contradiction|]. cbn [squeeze].
  destruct (is_sp x).
  - destruct s as [|y s']; [auto|].
    destruct (is_sp y).
    + intros H. right. exact (IH H).
    + intros [<-|H]; [left; reflexivity | right; exact (IH H)].
  - intros [<-|H]; [left; reflexivity | right; exact (IH H)].
Qed.

Lemma double_blank_cons (x y : ascii) (s : str) :
  double_blank (x :: y :: s)
  = ((is_sp x && is_sp y) || double_blank (y :: s))%bool.
Proof. reflexivity. Qed.

Lemma squeeze_shape (s : str) :
  double_blank (squeeze s) = false
  /\ forall x s', s = x :: s' -> exists r, squeeze s = x :: r.
Proof.
  induction s as [|x s IH]; [split; [reflexivity | discriminate]|].
  destruct IH as [IH1 IH2]. cbn [squeeze].
  destruct (is_sp x) eqn:Ex.
  - destruct s as [|y s']; [split; [reflexivity|]; intros ? ? E;
                            inversion E; eauto|].
    destruct (IH2 y s' eq_refl) as [r Er].
    destruct (is_sp y) eqn:Ey.
    + split; [exact IH1|]. intros x0 s0 E. inversion E; subst.
      rewrite Er. rewrite (is_sp_eq _ Ex), (is_sp_eq _ Ey). eauto.
    + split; [|intros x0 s0 E; inversion E; eauto].
      rewrite Er in *. rewrite double_blank_cons, Ey, andb_false_r.
      exact IH1.
  - split; [|intros x0 s0 E; inversion E; eauto].
    destruct (squeeze s) as [|z r]; [reflexivity|].
    rewrite double_blank_cons, Ex. exact IH1.
Qed.

Lemma squeeze_fixed (s : str) : double_blank s = false -> squeeze s = s.
Proof.
  induction s as [|x s IH]; [reflexivity|].
  destruct s as [|y s']; [cbn; destruct (is_sp x); reflexivity|].
  rewrite double_blank_cons. intros H. apply orb_false_iff in H.
  destruct H as [H1 H2]. cbn [squeeze]. cbn [squeeze] in IH.
  rewrite (IH H2). destruct (is_sp x); [|reflexivity].
  cbn [andb] in H1. rewrite H1. reflexivity.
Qed.

Lemma contains_double_blank (s : str) :
  contains (lit "  ") s = double_blank s.
Proof.
  induction s as [|x s IH]; [reflexivity|].
  destruct s as [|y s']; [destruct x as [[] [] [] [] [] [] [] []];
                          reflexivity|].
  change (contains (lit "  ") (x :: y :: s'))
    with (if (chr_eqb space x && (chr_eqb space y && true))%bool
          then true else contains (lit "  ") (y :: s')).
  rewrite IH, double_blank_cons. unfold is_sp.
  replace (chr_eqb space x) with (chr_eqb x space)
    by (unfold chr_eqb; apply Ascii.eqb_sym).
  replace (chr_eqb space y) with (chr_eqb y space)
    by (unfold chr_eqb; apply Ascii.eqb_sym).
  rewrite andb_true_r.
  destruct (chr_eqb x space && chr_eqb y space)%bool; reflexivity.
Qed.

(** X6. A label as the first loop of [get_links] cleans it holds no
    character above code 127, no punctuation, no capital letter and no two
    blanks in a row; and cleaning a cleaned label changes nothing. *)
Theorem normalize_clean (t : str) :
  (forall c, In c (normalize t) ->
             N.ltb 127 (code c) = false /\ is_punct c = false
             /\ in_range 65 90 c = false)
  /\ contains (lit "  ") (normalize t) = false
  /\ normalize (normalize t) = normalize t.
Proof.
  rewrite !normalize_eq.
  assert (C : forall c, In c (squeeze (map norm_char t)) ->
                        exists x, c = norm_char x).
  { intros c H. apply squeeze_In in H. apply in_map_iff in H.
    destruct H as (x & <- & _). eauto. }
  split; [|split].
  - intros c H. destruct (C c H) as [x ->].
    destruct (norm_char_clean x) as (H1 & H2 & H3 & _). auto.
  - rewrite contains_double_blank. apply squeeze_shape.
  - assert (M : map norm_char (squeeze (map norm_char t))
                = squeeze (map norm_char t)).
    { rewrite <- (map_id (squeeze (map norm_char t))) at 2.
      apply map_ext_in. intros c H. destruct (C c H) as [x ->].
      apply norm_char_clean. }
    rewrite M. apply squeeze_fixed. apply squeeze_shape.
Qed.

(** ** The first loop of get_links *)

Lemma collect_eq (soup : list anchor) :
  collect soup = collect_from (find_all soup) [].
Proof. reflexivity. Qed.

Lemma collect_from_cons (a : anchor) (l : list anchor) (acc : dict str) :
  collect_from (a :: l) acc
  = collect_from l
      (if excluded (normalize (a_text a)) then acc
       else dict_set (normalize (a_text a)) (full_url (a_href a)) acc).
Proof. reflexivity. Qed.

Lemma collect_from_get (l : list anchor) (k : str) :
  forall acc,
    (exists l1 a l2,
        l = l1 ++ a :: l2 /\ normalize (a_text a) = k
        /\ excluded k = false
        /\ (forall a', In a' l2 -> normalize (a_text a') <> k)
        /\ dict_get k (collect_from l acc) = Some (full_url (a_href a)))
    \/ ((forall a', In a' l -> normalize (a_text a') = k ->
                    excluded k = true)
        /\ dict_get k (collect_from l acc) = dict_get k acc).
Proof.
  induction l as [|a l IH]; intros acc.
  - right. split; [contradiction | reflexivity].
  - rewrite collect_from_cons.
    destruct (IH (if excluded (normalize (a_text a)) then acc
                  else dict_set (normalize (a_text a))
                         (full_url (a_href a)) acc))
      as [(l1 & a1 & l2 & -> & K & X & L & G)|[L G]].
    + left. exists (a :: l1), a1, l2. auto.
    + destruct (excluded (normalize (a_text a))) eqn:Ex.
      * right. split; [|exact G].
        intros a' [<-|H] E; [rewrite <- E; exact Ex | eauto].
      * destruct (str_eqb (normalize (a_text a)) k) eqn:Ek.
        -- apply str_eqb_eq in Ek. left. exists [], a, l.
           split; [reflexivity|]. split; [exact Ek|].
           split; [rewrite <- Ek; exact Ex|]. split.
           ++ intros a' H E. specialize (L a' H E). rewrite <- Ek in L.
              congruence.
           ++ rewrite G, Ek. apply dict_get_set_eq.
        -- apply str_eqb_neq in Ek. right. split.
           ++ intros a' [<-|H] E; [congruence | eauto].
           ++ rewrite G. apply dict_get_set_neq. congruence.
Qed.

Lemma last_unique {X : Type} (P : X -> Prop) (l1 l2 l1' l2' : list X)
      (a a' : X) :
  l1 ++ a :: l2 = l1' ++ a' :: l2' -> P a -> P a' ->
  (forall x, In x l2 -> ~ P x) -> (forall x, In x l2' -> ~ P x) ->
  a = a'.
Proof.
  revert l1'. induction l1 as [|x l1 IH]; intros [|y l1'] E Pa Pa' N N';
    simpl in E.
  - injection E as -> _. reflexivity.
  - injection E as -> E. exfalso. apply (N a'); [|exact Pa'].
    rewrite E. apply in_elt.
  - injection E as <- E. exfalso. apply (N' a); [|exact Pa].
    rewrite <- E. apply in_elt.
  - injection E as _ E. eauto.
Qed.

(** X7. The working map after the first loop holds, under a cleaned label,
    the full URL of the last link of the page with that label among the
    links under the files root; labels that mention a statement or a zip
    code are never keys. *)
Theorem collect_last_wins (soup : list anchor) (k u : str) :
  dict_get k (collect soup) = Some u <->
  excluded k = false
  /\ exists l1 a l2,
      find_all soup = l1 ++ a :: l2
      /\ normalize (a_text a) = k
      /\ full_url (a_href a) = u
      /\ forall a', In a' l2 -> normalize (a_text a') <> k.
Proof.
  rewrite collect_eq. split.
  - intros G.
    destruct (collect_from_get (find_all soup) k [])
      as [(l1 & a & l2 & E & K & X & L & G')|[_ G']];
      rewrite G in G'; [|discriminate].
    inversion G'; subst u. split; [exact X|]. exists l1, a, l2. auto.
  - intros (X & l1 & a & l2 & E & K & U & L).
    destruct (collect_from_get (find_all soup) k [])
      as [(l1' & a' & l2' & E' & K' & _ & L' & G')|[L' _]].
    + assert (Ea : a = a').
      { apply (last_unique (fun b => normalize (a_text b) = k)
                 l1 l2 l1' l2'); auto. congruence. }
      rewrite G', <- U, Ea. reflexivity.
    + exfalso. rewrite (L' a) in X; [discriminate| |exact K].
      rewrite E. apply in_elt.
Qed.

Lemma collect_last_wins_witness :
  dict_get (lit "monday march 16 2020 2pm") (collect corrected_listing)
  = Some (url_of "health-update-1.pdf")
  /\ excluded (lit "monday march 16 2020 2pm") = false.
Proof.
  assert (G : dict_get (lit "monday march 16 2020 2pm")
                (collect corrected_listing)
              = Some (url_of "health-update-1.pdf")) by reflexivity.
  split; [exact G|].
  exact (proj1 (proj1 (collect_last_wins _ _ _) G)).
Defined.

(** ** How get_links fails *)

Lemma supersede_raise_from (q F : list str) (d : dict str) (e : exn) :
  dict_keys d = F ++ q -> NoDup (F ++ q) ->
  for_each supersede_step q d = Raise e -> e = uncorrected_missing.
Proof.
  revert F d. induction q as [|text q IH]; intros F d K N H;
    [discriminate|].
  cbn [for_each] in H.
  destruct (supersede_step text d) as [d1|e1] eqn:S.
  - pose proof (supersede_step_keys _ _ _ _ _ K N S) as K1.
    destruct (not_corrected text); simpl in K1.
    + apply (IH (F ++ [text]) d1); rewrite <- ?app_assoc; auto.
    + apply (IH F d1); auto. apply NoDup_remove_1 in N. exact N.
  - inversion H; subst e1. clear H. unfold supersede_step in S.
    destruct (contains corrected text); [|discriminate].
    destruct (dict_mem _ d).
    + destruct (dict_get text d) eqn:G; [discriminate|].
      exfalso. apply dict_get_None in G. apply G. rewrite K.
      apply in_elt.
    + inversion S. reflexivity.
Qed.

Lemma key_survives_step {V : Type} (x t k : str) (u : V) (d : dict V) :
  In x (dict_keys d) -> x <> t ->
  In x (dict_keys (dict_del t (dict_set k u d))).
Proof.
  intros H N.
  destruct (dict_get x (dict_del t (dict_set k u d))) eqn:G.
  - apply dict_mem_In. unfold dict_mem. rewrite G. reflexivity.
  - exfalso. rewrite dict_get_del_neq in G by exact N.
    destruct (str_eqb x k) eqn:E.
    + apply str_eqb_eq in E. subst. rewrite dict_get_set_eq in G.
      discriminate.
    + apply str_eqb_neq in E. rewrite dict_get_set_neq in G by exact E.
      apply dict_get_None in G. contradiction.
Qed.

Lemma rekey_outcome (q : list str) :
  forall d : dict str,
    NoDup q -> (forall t, In t q -> In t (dict_keys d)) ->
    (for_each rekey_step q d = Raise ValueError
     /\ exists t, In t q /\ parse_label t = None)
    \/ ((exists cat, for_each rekey_step q d = Ok cat)
        /\ forall t, In t q -> parse_label t <> None).
Proof.
  induction q as [|t q IH]; intros d N M.
  - right. split; [exists d; reflexivity | contradiction].
  - cbn [for_each]. unfold rekey_step at 1 3.
    destruct (parse_label t) as [dt|] eqn:P.
    + destruct (dict_get t d) as [url|] eqn:G.
      * apply NoDup_cons_iff in N. destruct N as [Nt Nq].
        destruct (IH (dict_del t (dict_set (strftime_file dt) url d)) Nq)
          as [[R (t' & Ht' & Pt')]|[R A]].
        -- intros x Hx. apply key_survives_step; [apply M; right; exact Hx|].
           intros ->. contradiction.
        -- left. split; [exact R|]. exists t'. split; [right|]; assumption.
        -- right. split; [exact R|].
           intros x [<-|Hx]; [congruence | apply A; exact Hx].
      * exfalso. apply dict_get_None in G. apply G. apply M. left.
        reflexivity.
    + left. split; [reflexivity|]. exists t. split; [left; reflexivity|].
      exact P.
Qed.

Lemma rekey_outcome_links (links : dict str) :
  NoDup (dict_keys links) ->
  (rekey links = Raise ValueError
   /\ exists t, In t (dict_keys links) /\ parse_label t = None)
  \/ ((exists cat, rekey links = Ok cat)
      /\ forall t, In t (dict_keys links) -> parse_label t <> None).
Proof.
  intros N. apply rekey_outcome; [exact N | auto].
Qed.

Lemma get_links_unparsable (soup : list anchor) (links : dict str) (t : str) :
  supersede (collect soup) = Ok links -> In t (dict_keys links) ->
  parse_label t = None -> get_links soup = Raise ValueError.
Proof.
  intros S Ht P. unfold get_links. rewrite S.
  assert (N : NoDup (dict_keys links))
    by (eapply supersede_NoDup; [apply collect_NoDup | exact S]).
  destruct (rekey_outcome_links links N) as [[R _]|[_ A]]; [exact R|].
  exfalso. exact (A t Ht P).
Qed.

(** X8. [get_links] fails in two ways only. It ends the run with
    "ERROR: uncorrected link not found" when the supersession pass meets a
    corrected label without its base label; and it raises [ValueError]
    exactly when that pass succeeds and leaves a label that is no date of
    either form. A lookup in the working map never fails. *)
Theorem get_links_failures :
  (forall soup e,
      get_links soup = Raise e ->
      (e = uncorrected_missing /\ supersede (collect soup) = Raise e)
      \/ (e = ValueError
          /\ exists links t,
              supersede (collect soup) = Ok links
              /\ In t (dict_keys links) /\ parse_label t = None))
  /\ (forall soup links t,
         supersede (collect soup) = Ok links -> In t (dict_keys links) ->
         parse_label t = None -> get_links soup = Raise ValueError).
Proof.
  split; [|exact get_links_unparsable].
  intros soup e H. unfold get_links in H.
  destruct (supersede (collect soup)) as [links|e'] eqn:S.
  - right.
    assert (N : NoDup (dict_keys links))
      by (eapply supersede_NoDup; [apply collect_NoDup | exact S]).
    destruct (rekey_outcome_links links N)
      as [[R (t & Ht & P)]|[[cat R] _]]; rewrite R in H; [|discriminate].
    inversion H. split; [reflexivity|]. exists links, t. auto.
  - left. inversion H; subst e'. split; [|reflexivity].
    exact (supersede_raise_from _ [] _ _ eq_refl (collect_NoDup soup) S).
Qed.

Lemma get_links_failures_witness :
  get_links bad_label_listing = Raise ValueError
  /\ get_links corrected_inside_listing = Raise uncorrected_missing.
Proof.
  destruct get_links_failures as [F1 F2]. split.
  - apply (F2 bad_label_listing
             [(lit "monday march 16 2020 2pm", url_of "health-update-1.pdf");
              (lit "press briefing", url_of "briefing.pdf")]
             (lit "press briefing")); [reflexivity | | reflexivity].
    right. left. reflexivity.
  - destruct (get_links corrected_inside_listing) as [cat|e] eqn:E;
      [vm_compute in E; discriminate|].
    destruct (F1 _ _ E) as [[-> _]|[-> (links & t & S & _)]];
      [reflexivity|].
    vm_compute in S. discriminate.
Defined.

(** X9. When a label that survives the supersession pass is no date, the
    whole run stops with [ValueError] before anything is downloaded,
    printed or written: the world is left exactly as it was. *)
Theorem bad_label_stops_run (w : world) (soup : list anchor)
        (links : dict str) (t : str) :
  w_listing w = Some soup ->
  supersede (collect soup) = Ok links -> In t (dict_keys links) ->
  parse_label t = None ->
  main w = (Raise ValueError, w).
Proof.
  intros L S Ht P. rewrite main_eq, L.
  rewrite (get_links_unparsable _ _ _ S Ht P). reflexivity.
Qed.

Lemma bad_label_stops_run_witness :
  main bad_label_world = (Raise ValueError, bad_label_world).
Proof.
  apply (bad_label_stops_run bad_label_world bad_label_listing
           [(lit "monday march 16 2020 2pm", url_of "health-update-1.pdf");
            (lit "press briefing", url_of "briefing.pdf")]
           (lit "press briefing")); try reflexivity.
  right. left. reflexivity.
Defined.

(** ** Where the URLs of the catalog come from *)

Lemma all_values_set {V : Type} (P : V -> Prop) (k : str) (v : V)
      (d : dict V) :
  all_values P d -> P v -> all_values P (dict_set k v d).
Proof.
  intros A Pv. induction d as [|[k' v'] d IH]; simpl.
  - intros k0 v0 [E|[]]. inversion E; subst. exact Pv.
  - destruct (str_eqb k k').
    + intros k0 v0 [E|H]; [inversion E; subst; exact Pv|].
      apply (A k0 v0). right. exact H.
    + intros k0 v0 [E|H].
      * inversion E; subst. apply (A k0 v0). left. reflexivity.
      * apply (IH (fun k1 v1 H1 => A k1 v1 (or_intror H1)) k0 v0 H).
Qed.

Lemma all_values_del {V : Type} (P : V -> Prop) (k : str) (d : dict V) :
  all_values P d -> all_values P (dict_del k d).
Proof.
  intros A. induction d as [|[k' v'] d IH]; simpl; [exact A|].
  destruct (str_eqb k k').
  - intros k0 v0 H. apply (A k0 v0). right. exact H.
  - intros k0 v0 [E|H].
    + apply (A k0 v0). left. exact E.
    + apply (IH (fun k1 v1 H1 => A k1 v1 (or_intror H1)) k0 v0 H).
Qed.

Lemma moved_value (P : str -> Prop) (t k : str) (d : dict str) (url : str) :
  all_values P d -> dict_get t d = Some url ->
  all_values P (dict_del t (dict_set k url d)).
Proof.
  intros A G. apply all_values_del, all_values_set; [exact A|].
  apply (A t url). apply dict_get_In. exact G.
Qed.

Lemma for_each_values (P : str -> Prop)
      (step : str -> dict str -> result (dict str)) :
  (forall t d d', all_values P d -> step t d = Ok d' -> all_values P d') ->
  forall q d d', all_values P d -> for_each step q d = Ok d' ->
                 all_values P d'.
Proof.
  intros St. induction q as [|t q IH]; intros d d' A H; cbn [for_each] in H.
  - inversion H; subst. exact A.
  - destruct (step t d) as [d1|e] eqn:S; [|discriminate].
    exact (IH _ _ (St _ _ _ A S) H).
Qed.

Lemma collect_values (soup : list anchor) :
  all_values (from_listing soup) (collect soup).
Proof.
  rewrite collect_eq.
  assert (G : forall l acc,
             (forall a, In a l -> In a (find_all soup)) ->
             all_values (from_listing soup) acc ->
             all_values (from_listing soup) (collect_from l acc)).
  { induction l as [|a l IH]; intros acc Sub A; [exact A|].
    rewrite collect_from_cons. apply IH; [intros b H; apply Sub; right;
                                          exact H|].
    destruct (excluded (normalize (a_text a))) eqn:Ex; [exact A|].
    apply all_values_set; [exact A|].
    assert (Ha : In a (find_all soup)) by (apply Sub; left; reflexivity).
    apply filter_In in Ha. exists a. tauto. }
  apply G; [auto|]. intros k v [].
Qed.

(** X10. Every URL of the catalog is the full URL of a link of the page
    whose address lies under the files root and whose label mentions
    neither a statement nor a zip code; an address that starts with a
    slash has the domain put in front. *)
Theorem catalog_urls (soup : list anchor) (cat : dict str) (k url : str) :
  get_links soup = Ok cat -> dict_get k cat = Some url ->
  exists a,
    In a soup
    /\ contains HREF_ROOT (a_href a) = true
    /\ excluded (normalize (a_text a)) = false
    /\ url = full_url (a_href a)
    /\ (startswith (lit "/") (a_href a) = true -> url = DOMAIN ++ a_href a).
Proof.
  intros H G. unfold get_links in H.
  destruct (supersede (collect soup)) as [links|e] eqn:S; [|discriminate].
  assert (A1 : all_values (from_listing soup) links).
  { apply (for_each_values _ supersede_step) with (3 := S);
      [|apply collect_values].
    intros t d d' A St. unfold supersede_step in St.
    destruct (contains corrected t); [|inversion St; subst; exact A].
    destruct (dict_mem _ d); [|discriminate].
    destruct (dict_get t d) as [u|] eqn:Gt; [|discriminate].
    inversion St; subst. apply moved_value; assumption. }
  assert (A2 : all_values (from_listing soup) cat).
  { apply (for_each_values _ rekey_step) with (3 := H); [|exact A1].
    intros t d d' A St. unfold rekey_step in St.
    destruct (parse_label t); [|discriminate].
    destruct (dict_get t d) as [u|] eqn:Gt; [|discriminate].
    inversion St; subst. apply moved_value; assumption. }
  destruct (A2 k url (dict_get_In _ _ _ G)) as (a & Ha & Hr & Hx & Hu).
  exists a. repeat split; try assumption.
  intros Sl. rewrite Hu. unfold full_url. rewrite Sl. reflexivity.
Qed.

Lemma catalog_urls_witness :
  exists a,
    In a corrected_listing
    /\ url_of "health-update-1-v2.pdf" = DOMAIN ++ a_href a.
Proof.
  destruct (catalog_urls corrected_listing
              [(lit "2020-03-16_1400", url_of "health-update-1-v2.pdf")]
              (lit "2020-03-16_1400") (url_of "health-update-1-v2.pdf"))
    as (a & Ha & _ & _ & Hu & Hs).
  - vm_compute. reflexivity.
  - reflexivity.
  - exists a. split; [exact Ha|]. apply Hs.
    destruct Ha as [<-|[<-|[]]]; reflexivity.
Defined.

(** ** What download_pdfs leaves in the cache *)

Lemma download_item_content (item : str * str) (w w' : world) :
  download_item item w = (Ok tt, w') ->
  ~ In (fst item ++ pdf_ext) (dict_keys (w_pdfs w)) ->
  dict_get (fst item ++ pdf_ext) (w_pdfs w') = w_web w (snd item).
Proof.
  rewrite download_item_eq. intros H N. apply dict_mem_false in N.
  rewrite N in H. cbv zeta in H.
  destruct (w_web w (snd item)) as [c|]; [|discriminate].
  inversion H; subst w'. cbn [w_pdfs]. apply dict_get_set_eq.
Qed.

Lemma download_content (links : dict str) :
  forall (w w1 : world) (key url : str),
    download_pdfs links w = (Ok tt, w1) ->
    NoDup (dict_keys links) -> In (key, url) links ->
    ~ In (key ++ pdf_ext) (dict_keys (w_pdfs w)) ->
    dict_get (key ++ pdf_ext) (w_pdfs w1) = w_web w url.
Proof.
  rewrite download_pdfs_eq.
  induction links as [|item links IH]; intros w w1 key url H N Hin Miss;
    [contradiction|].
  cbn [for_eachM] in H. apply bind_inv in H.
  destruct H as [([] & w' & H1 & H2)|(e & _ & E)]; [|discriminate].
  pose proof (download_item_spec _ _ _ _ H1) as (S1 & [_ G1] & K1).
  change (dict_keys (item :: links)) with (fst item :: dict_keys links) in N.
  apply NoDup_cons_iff in N. destruct N as [N1 N2].
  destruct Hin as [->|Hin].
  - pose proof (download_item_content _ _ _ H1 Miss) as C.
    cbn [fst snd] in *.
    pose proof (download_pdfs_spec links w' w1 (Ok tt)) as D.
    rewrite download_pdfs_eq in D. destruct (D H2) as (_ & [G2 _] & _).
    rewrite (G2 _ (K1 eq_refl)). exact C.
  - assert (W : w_web w' = w_web w) by (destruct S1 as (_ & W & _); exact W).
    rewrite <- W. apply (IH w' w1 key url H2 N2 Hin).
    intros X. destruct (G1 _ X) as [X0|(k0 & [<-|[]] & E0)]; [tauto|].
    apply app_inv_tail in E0. subst key. apply N1.
    apply (in_map fst) in Hin. exact Hin.
Qed.

(** X11. After [download_pdfs] succeeds, every entry of the catalog has its
    file in the cache, a file that was not there before holds what its URL
    returned, the files that were there before are untouched, and a second
    call fetches nothing and changes nothing. *)
Theorem download_fills_cache (links : dict str) (w w1 : world) :
  download_pdfs links w = (Ok tt, w1) ->
  (forall key, In key (dict_keys links) ->
               In (key ++ pdf_ext) (dict_keys (w_pdfs w1)))
  /\ (forall key url,
         NoDup (dict_keys links) -> In (key, url) links ->
         ~ In (key ++ pdf_ext) (dict_keys (w_pdfs w)) ->
         dict_get (key ++ pdf_ext) (w_pdfs w1) = w_web w url)
  /\ (forall name, In name (dict_keys (w_pdfs w)) ->
                   dict_get name (w_pdfs w1) = dict_get name (w_pdfs w))
  /\ download_pdfs links w1 = (Ok tt, w1).
Proof.
  intros H. destruct (download_pdfs_spec _ _ _ _ H) as (_ & [G _] & K).
  split; [exact (K eq_refl)|]. split; [|split; [exact G|]].
  - intros key url N Hin Miss. exact (download_content _ _ _ _ _ H N Hin Miss).
  - apply download_pdfs_cached. exact (K eq_refl).
Qed.

Lemma download_fills_cache_witness :
  exists links w1,
    get_links
      [anchor_of "Monday March 16 2020 2PM"
         "/files/health/coronavirus/health-update-1.pdf"] = Ok links
    /\ download_pdfs links fetching_world = (Ok tt, w1)
    /\ dict_get (lit "2020-03-16_1400.pdf") (w_pdfs w1) = Some page_142
    /\ download_pdfs links w1 = (Ok tt, w1).
Proof.
  exists [(lit "2020-03-16_1400", url_of "health-update-1.pdf")].
  destruct (download_pdfs
              [(lit "2020-03-16_1400", url_of "health-update-1.pdf")]
              fetching_world) as [r w1] eqn:E.
  assert (R : r = Ok tt)
    by (change r with (fst (r, w1)); rewrite <- E; vm_compute; reflexivity).
  subst r. exists w1.
  destruct (download_fills_cache _ _ _ E) as (_ & C & _ & I).
  split; [vm_compute; reflexivity|]. split; [reflexivity|].
  split; [|exact I].
  apply (C (lit "2020-03-16_1400") (url_of "health-update-1.pdf")).
  - repeat constructor. intros [].
  - left. reflexivity.
  - intros [].
Defined.

Lemma download_item_raise (item : str * str) (w w1 : world) (e : exn) :
  download_item item w = (Raise e, w1) ->
  w_web w (snd item) = None /\ e = access_error (snd item)
  /\ ~ In (fst item ++ pdf_ext) (dict_keys (w_pdfs w))
  /\ w_pdfs w1 = w_pdfs w.
Proof.
  rewrite download_item_eq.
  destruct (dict_mem _ (w_pdfs w)) eqn:Mm; [discriminate|]. cbv zeta.
  destruct (w_web w (snd item)); [discriminate|].
  intros H. inversion H; subst. apply dict_mem_false in Mm.
  repeat split; auto.
Qed.

(** X12. [download_pdfs] fails only when a bulletin that is not yet cached
    cannot be fetched: the run ends with "ERROR: could not access file: "
    and that URL, no file is written for that bulletin, and what was
    fetched before the failure stays in the cache. *)
Theorem download_failure (links : dict str) :
  forall (w w1 : world) (e : exn),
    download_pdfs links w = (Raise e, w1) ->
    exists key url,
      In (key, url) links /\ w_web w url = None
      /\ e = access_error url
      /\ ~ In (key ++ pdf_ext) (dict_keys (w_pdfs w1))
      /\ cache_grown links w w1.
Proof.
  intros w w1 e H.
  pose proof (download_pdfs_spec _ _ _ _ H) as (_ & G & _).
  revert w w1 e H G. rewrite download_pdfs_eq.
  induction links as [|item links IH]; intros w w1 e H G; [discriminate|].
  cbn [for_eachM] in H. apply bind_inv in H.
  destruct H as [([] & w' & H1 & H2)|(e' & H1 & E)].
  - pose proof (download_item_spec _ _ _ _ H1) as (S1 & _ & _).
    pose proof (download_pdfs_spec links w' w1 (Raise e)) as D.
    rewrite download_pdfs_eq in D. destruct (D H2) as (_ & G2 & _).
    destruct (IH w' w1 e H2 G2) as (key & url & Hin & W & Ee & Miss & _).
    exists key, url. split; [right; exact Hin|].
    destruct S1 as (_ & <- & _). auto.
  - inversion E; subst e'. apply download_item_raise in H1.
    destruct H1 as (W & Ee & Miss & P).
    exists (fst item), (snd item). rewrite P.
    split; [left; destruct item; reflexivity|]. auto.
Qed.

Lemma download_failure_witness :
  exists w1,
    download_pdfs [(lit "2020-03-16_1400", url_of "health-update-1.pdf")]
      unreachable_world
    = (Raise (access_error (url_of "health-update-1.pdf")), w1)
    /\ w_pdfs w1 = [].
Proof.
  destruct (download_pdfs
              [(lit "2020-03-16_1400", url_of "health-update-1.pdf")]
              unreachable_world) as [r w1] eqn:E.
  assert (R : exists e, r = Raise e).
  { change r with (fst (r, w1)). rewrite <- E. eexists. vm_compute.
    reflexivity. }
  destruct R as [e ->]. exists w1.
  destruct (download_failure _ _ _ _ E)
    as (key & url & [Hin|[]] & _ & -> & _ & _).
  inversion Hin; subst. split; [reflexivity|].
  assert (W : snd (download_pdfs
                     [(lit "2020-03-16_1400", url_of "health-update-1.pdf")]
                     unreachable_world) = w1) by (rewrite E; reflexivity).
  rewrite <- W. reflexivity.
Defined.

(** ** Files that parse_pdfs cannot take *)

Lemma select_rows_stray (pdfs : dict file_content) (lu : datetime)
      (names : list str) (name : str) :
  In name names -> stamp name = None ->
  forall acc,
    select_rows pdfs lu names acc = Raise ValueError
    \/ select_rows pdfs lu names acc = Raise PdfReadError.
Proof.
  intros Hin Hs. induction names as [|pdf rest IH]; [contradiction|].
  intros acc. cbn [select_rows].
  destruct (strptime FILE_RE (drop_ext pdf)) as [dt|] eqn:P; [|auto].
  destruct Hin as [->|Hin]; [unfold stamp in Hs; congruence|].
  destruct (dt_leb dt lu); [apply IH; exact Hin|].
  destruct (dict_get pdf pdfs) as [[pages|]|]; [apply IH; exact Hin|auto|auto].
Qed.

(** X13. One file in the cache directory that [glob] finds and whose name
    is no timestamp makes [parse_pdfs] fail, whatever the frontier is and
    however old the other bulletins are. *)
Theorem stray_pdf_fails (w : world) (lu : datetime) (name : str) :
  In name (pdf_names w) -> stamp name = None ->
  fst (parse_pdfs lu w) = Raise ValueError
  \/ fst (parse_pdfs lu w) = Raise PdfReadError.
Proof.
  intros Hin Hs. destruct (parse_pdfs_pure lu w) as [lines E].
  rewrite E. cbn [fst]. apply (select_rows_stray _ _ _ name); [|exact Hs].
  apply sort_strs_In. exact Hin.
Qed.

Lemma stray_pdf_fails_witness :
  fst (parse_pdfs (mkdt 2020 3 15 9 0) stray_world) = Raise ValueError
  /\ fst (main stray_world) = Raise ValueError.
Proof.
  split; [|vm_compute; reflexivity].
  destruct (stray_pdf_fails stray_world (mkdt 2020 3 15 9 0)
              (lit "notes.pdf")) as [H|H].
  - right. left. reflexivity.
  - reflexivity.
  - exact H.
  - exfalso. assert (X : fst (parse_pdfs (mkdt 2020 3 15 9 0) stray_world)
                         = Raise ValueError) by (vm_compute; reflexivity).
    rewrite X in H. discriminate.
Defined.

(** ** The order of the appended rows *)

Lemma dt_le_neq_lt (a b : datetime) : dt_le a b -> a <> b -> dt_lt a b.
Proof.
  intros L N. unfold dt_lt. apply dt_leb_false. intros L'.
  apply N. apply dt_le_antisym; assumption.
Qed.

Lemma stamps_strictly_sorted (names : list str) (dts : list datetime) :
  StronglySorted str_le names -> NoDup names ->
  (forall name, In name names -> canonical name) ->
  Forall2 (fun name dt => stamp name = Some dt) names dts ->
  StronglySorted dt_lt dts.
Proof.
  intros S N C F. induction F as [|n d ns ds Hnd F IH]; [constructor|].
  apply StronglySorted_inv in S. destruct S as [S Hn].
  apply NoDup_cons_iff in N. destruct N as [N1 N2].
  constructor.
  - apply IH; auto. intros name H. apply C. right. exact H.
  - apply Forall_forall. intros d' Hd'.
    destruct (Forall2_In_r _ _ _ _ F Hd') as (n' & Hn' & Hs').
    rewrite Forall_forall in Hn. specialize (Hn n' Hn').
    destruct (canonical_stamp n d (C n (or_introl eq_refl)) Hnd) as [V E].
    destruct (canonical_stamp n' d' (C n' (or_intror Hn')) Hs') as [V' E'].
    apply dt_le_neq_lt.
    + unfold str_le in Hn. rewrite E, E', str_leb_canonical in Hn
        by assumption. exact Hn.
    + intros ->. apply N1. rewrite E, <- E'. exact Hn'.
Qed.

(** X14. In a cache directory whose bulletin files are distinct and carry
    canonical names, the rows that [parse_pdfs] returns have strictly
    ascending timestamps: no timestamp gets two rows in one run. *)
Theorem rows_strictly_ascend (w w' : world) (lu : datetime)
        (info : list row) :
  NoDup (dict_keys (w_pdfs w)) ->
  (forall name, In name (pdf_names w) -> canonical name) ->
  parse_pdfs lu w = (Ok info, w') ->
  exists sel,
    info = map selected_row sel
    /\ StronglySorted dt_lt (map fst sel)
    /\ Forall (fun r => exists dt, In dt (map fst sel)
                                   /\ row_stamp r = Some dt) info.
Proof.
  intros N C H.
  destruct (parse_pdfs_inv _ _ _ _ H) as (dts & sel & F & -> & S & _).
  exists sel. split; [reflexivity|]. split.
  - rewrite S. apply StronglySorted_filter.
    apply (stamps_strictly_sorted (sort_strs (pdf_names w))); auto.
    + apply sort_strs_sorted.
    + apply (Permutation_NoDup (l := pdf_names w));
        [symmetry; apply sort_strs_perm | apply NoDup_filter; exact N].
    + intros name Hn. apply C. apply (proj1 (sort_strs_In _ _)). exact Hn.
  - apply Forall_forall. intros r Hr. apply in_map_iff in Hr.
    destruct Hr as ([d t] & <- & Hs). exists d.
    split; [apply (in_map fst) in Hs; exact Hs|].
    apply row_stamp_make_row.
    assert (Hd : In d (filter (fun dt => negb (dt_leb dt lu)) dts))
      by (rewrite <- S; apply (in_map fst) in Hs; exact Hs).
    apply filter_In in Hd. destruct Hd as [Hd _].
    destruct (Forall2_In_r _ _ _ _ F Hd) as (n & _ & Hn).
    exact (stamp_valid _ _ Hn).
Qed.

Lemma rows_strictly_ascend_witness :
  exists sel,
    fst (parse_pdfs datetime_min frontier_world) = Ok (map selected_row sel)
    /\ StronglySorted dt_lt (map fst sel).
Proof.
  destruct (parse_pdfs datetime_min frontier_world) as [r w'] eqn:E.
  assert (R : exists info, r = Ok info).
  { change r with (fst (r, w')). rewrite <- E. eexists. vm_compute.
    reflexivity. }
  destruct R as [info ->].
  destruct (rows_strictly_ascend frontier_world w' datetime_min info)
    as (sel & I & S & _).
  - repeat constructor; simpl; intuition discriminate.
  - intros name H. exact (proj1 (frontier_world_names name H)).
  - exact E.
  - exists sel. split; [cbn [fst]; f_equal; exact I | exact S].
Defined.

(** ** The exit status *)

Lemma exit_status_loud {A : Type} (r : result A) : loud r -> exit_status r = 1.
Proof. destruct r as [a|[]]; simpl; intros H; try contradiction; reflexivity. Qed.

(** X15. A run ends with status 0 or 1; it ends with 0 exactly when the
    listing, the catalog, the downloads, the credentials, the frontier and
    the extraction all went through and then either there was nothing to
    append or the append request succeeded. *)
Theorem exit_status_of_run (w : world) :
  (exit_status (fst (main w)) = 0 \/ exit_status (fst (main w)) = 1)
  /\ (exit_status (fst (main w)) = 0 <->
      exists links w1 lu w2 info w3,
        reached_finish w links w1 lu w2 info w3 /\ ends_well w3 info).
Proof.
  assert (Fin : forall info w3,
             (ends_well w3 info /\ exit_status (fst (finish info w3)) = 0)
             \/ (~ ends_well w3 info
                 /\ exit_status (fst (finish info w3)) = 1)).
  { intros info w3. rewrite finish_eq. unfold ends_well.
    destruct info as [|r info]; [left; auto|].
    rewrite append_to_sheet_eq. destruct (w_append_ok w3).
    - left. auto.
    - right. split; [|reflexivity]. intros [X|X]; discriminate. }
  destruct (main w) as [r w'] eqn:E. cbn [fst].
  assert (D : loud r \/ ~ loud r).
  { destruct r as [[]|[]]; simpl; auto. }
  destruct D as [L|L].
  - rewrite (exit_status_loud r L). split; [auto|]. split; [discriminate|].
    intros (links & w1 & lu & w2 & info & w3 & RF & Ew). exfalso.
    rewrite (main_from_finish _ _ _ _ _ _ _ RF) in E.
    destruct (Fin info w3) as [[_ X]|[X _]]; [|contradiction].
    rewrite E in X. cbn [fst] in X. rewrite (exit_status_loud r L) in X.
    discriminate.
  - destruct (main_reaches_finish _ _ _ E L)
      as (links & w1 & lu & w2 & info & w3 & RF & F).
    destruct (Fin info w3) as [[Ew X]|[Ew X]]; rewrite F in X; cbn [fst] in X.
    + split; [auto|]. split; [|intros _; exact X].
      intros _. exists links, w1, lu, w2, info, w3. auto.
    + split; [auto|]. split; [rewrite X; discriminate|].
      intros (links' & w1' & lu' & w2' & info' & w3' & RF' & Ew').
      exfalso. rewrite (main_from_finish _ _ _ _ _ _ _ RF') in E.
      destruct (Fin info' w3') as [[_ Y]|[Y _]]; [|contradiction].
      rewrite E in Y. cbn [fst] in Y. rewrite X in Y. discriminate.
Qed.

Lemma exit_status_of_run_witness :
  exit_status (fst (main frontier_world)) = 0
  /\ exit_status (fst (main offline_world)) = 1.
Proof.
  split; [|reflexivity].
  apply (proj2 (exit_status_of_run frontier_world)).
  destruct (main_reaches_finish frontier_world
              (snd (main frontier_world)) (fst (main frontier_world)))
    as (links & w1 & lu & w2 & info & w3 & RF & F).
  - destruct (main frontier_world); reflexivity.
  - vm_compute. exact (fun X => X).
  - exists links, w1, lu, w2, info, w3. split; [exact RF|]. right.
    destruct (reached_worlds _ _ _ _ _ _ _ RF)
      as ((_ & _ & _ & _ & A & _) & _ & _ & _ & _ & [o3 ->]).
    exact A.
Defined.

(** ** Pages *)

Lemma lang_one_line (r : regex) (s : str) :
  lang r s -> one_line r = true -> ~ In newline s.
Proof.
  induction 1 as [|c x Hx|r1 r2 s1 s2 _ IH1 _ IH2|r1 r2 s _ IH|r1 r2 s _ IH
                  |c s F|n r s _ IH]; simpl; intros O.
  - intros [].
  - intros [->|[]]. unfold cls_one_line in O. rewrite Hx in O. discriminate.
  - apply andb_true_iff in O. destruct O as [O1 O2]. intros H.
    apply in_app_or in H. destruct H; [apply IH1 | apply IH2]; assumption.
  - apply andb_true_iff in O. apply IH. apply O.
  - apply andb_true_iff in O. apply IH. apply O.
  - intros H. rewrite Forall_forall in F. specialize (F _ H).
    unfold cls_one_line in O. rewrite F in O. discriminate.
  - apply IH. exact O.
Qed.

Lemma lang_nil_nullable (r : regex) (s : str) :
  lang r s -> s = [] -> nullable r = true.
Proof.
  induction 1 as [|c x Hx|r1 r2 s1 s2 _ IH1 _ IH2|r1 r2 s _ IH|r1 r2 s _ IH
                  |c s F|n r s _ IH]; simpl; intros E; try reflexivity.
  - discriminate.
  - apply app_eq_nil in E. destruct E as [E1 E2].
    rewrite (IH1 E1), (IH2 E2). reflexivity.
  - rewrite (IH E). reflexivity.
  - rewrite (IH E). apply orb_true_r.
  - exact (IH E).
Qed.

Lemma firstn_cut (s0 s1 t : str) (x : ascii) :
  (length s1 <= length s0)%nat ->
  firstn (length (s0 ++ x :: t) - length (s1 ++ x :: t)) (s0 ++ x :: t)
  = firstn (length (s0 ++ [x]) - length (s1 ++ [x])) (s0 ++ [x]).
Proof.
  intros L. rewrite !length_app. cbn [length].
  replace (length s0 + S (length t) - (length s1 + S (length t)))%nat
    with (length s0 - length s1)%nat by lia.
  replace (length s0 + 1 - (length s1 + 1))%nat
    with (length s0 - length s1)%nat by lia.
  rewrite !firstn_app.
  replace (length s0 - length s1 - length s0)%nat with O by lia.
  reflexivity.
Qed.

Section Cut.
Context {A : Type}.

Lemma star_match_cut (c : cclass) (t : str) :
  cls_one_line c = true ->
  forall (s0 : str) (k k' : str -> option A),
    (forall s1, (length s1 <= length s0)%nat ->
                k (s1 ++ newline :: t) = k' (s1 ++ [newline])) ->
    star_match c (s0 ++ newline :: t) k = star_match c (s0 ++ [newline]) k'.
Proof.
  intros O. unfold cls_one_line in O. apply negb_true_iff in O.
  induction s0 as [|x s0 IH]; intros k k' H; cbn [app star_match].
  - rewrite O. exact (H [] (Nat.le_refl _)).
  - rewrite (IH k k') by (intros s1 L; apply H; simpl; lia).
    pose proof (H (x :: s0) (Nat.le_refl _)) as Hx. cbn [app] in Hx.
    rewrite Hx. reflexivity.
Qed.

Lemma rmatch_cut (r : regex) (t : str) :
  one_line r = true ->
  forall (s0 : str) (g : groups) (k k' : str -> groups -> option A),
    (forall s1 g1, (length s1 <= length s0)%nat ->
                   k (s1 ++ newline :: t) g1 = k' (s1 ++ [newline]) g1) ->
    rmatch r (s0 ++ newline :: t) g k = rmatch r (s0 ++ [newline]) g k'.
Proof.
  induction r as [|c|r1 IH1 r2 IH2|r1 IH1 r2 IH2|c|n r IH];
    cbn [rmatch one_line]; intros O s0 g k k' H.
  - exact (H s0 g (Nat.le_refl _)).
  - destruct s0 as [|x s0]; cbn [app].
    + unfold cls_one_line in O. apply negb_true_iff in O. rewrite O.
      reflexivity.
    + destruct (cmatch c x); [|reflexivity]. apply H. simpl. lia.
  - apply andb_true_iff in O. destruct O as [O1 O2].
    apply IH1; [exact O1|]. intros s1 g1 L. apply IH2; [exact O2|].
    intros s2 g2 L2. apply H. lia.
  - apply andb_true_iff in O. destruct O as [O1 O2].
    rewrite (IH1 O1 s0 g k k' H), (IH2 O2 s0 g k k' H). reflexivity.
  - apply star_match_cut; [exact O|]. intros s1 L. apply H. exact L.
  - apply IH; [exact O|]. intros s1 g1 L.
    rewrite (firstn_cut s0 s1 t newline L). apply H. exact L.
Qed.
End Cut.

Lemma rmatch_short (r : regex) (s : str) :
  one_line r = true -> nullable r = false ->
  s = [] \/ s = [newline] ->
  rmatch r s [] (fun _ g => Some g) = None.
Proof.
  intros O N Hs.
  destruct (rmatch r s [] (fun _ g => Some g)) as [m|] eqn:E; [|reflexivity].
  exfalso. apply rmatch_sound in E.
  destruct E as (s1 & s2 & g' & Es & L & _).
  destruct s1 as [|x s1].
  - rewrite (lang_nil_nullable r [] L eq_refl) in N. discriminate.
  - apply (lang_one_line r _ L O). destruct Hs as [->| ->]; [discriminate|].
    injection Es as <- _. left. reflexivity.
Qed.

Lemma re_search_cut (r : regex) (s0 t : str) :
  one_line r = true -> nullable r = false ->
  re_search r (s0 ++ newline :: t)
  = match re_search r (s0 ++ [newline]) with
    | Some m => Some m
    | None => re_search r t
    end.
Proof.
  intros O N. induction s0 as [|x s0 IH].
  - change ([] ++ newline :: t) with (newline :: t).
    change ([] ++ [newline]) with [newline]. cbn [re_search].
    rewrite (rmatch_short r [newline] O N) by auto.
    rewrite (rmatch_short r [] O N) by auto.
    change (newline :: t) with ([] ++ newline :: t).
    rewrite (rmatch_cut r t O [] [] _ (fun _ g => Some g))
      by (intros ? ? ?; reflexivity).
    change ([] ++ [newline]) with [newline].
    rewrite (rmatch_short r [newline] O N) by auto. reflexivity.
  - change ((x :: s0) ++ newline :: t) with (x :: (s0 ++ newline :: t)).
    change ((x :: s0) ++ [newline]) with (x :: (s0 ++ [newline])).
    cbn [re_search].
    change (x :: (s0 ++ newline :: t)) with ((x :: s0) ++ newline :: t).
    rewrite (rmatch_cut r t O (x :: s0) [] _ (fun _ g => Some g))
      by (intros ? ? ?; reflexivity).
    change ((x :: s0) ++ [newline]) with (x :: (s0 ++ [newline])).
    destruct (rmatch r (x :: s0 ++ [newline]) [] (fun _ g => Some g));
      [reflexivity | exact IH].
Qed.

Lemma pages_text_from (pages : list str) (out : str) :
  fold_left (fun out txt => out ++ page_text txt) pages out
  = out ++ pages_text pages.
Proof.
  unfold pages_text. revert out.
  induction pages as [|p ps IH]; intros out; simpl.
  - symmetry. apply app_nil_r.
  - rewrite IH, (IH (page_text p)), app_assoc. reflexivity.
Qed.

Lemma pages_text_cons (p : str) (ps : list str) :
  pages_text (p :: ps) = page_text p ++ pages_text ps.
Proof. unfold pages_text at 1. simpl. apply pages_text_from. Qed.

Lemma page_text_ends (p : str) :
  exists s0, page_text p = s0 ++ [newline].
Proof.
  exists (sub_blanks false (replace [newline] [] p)
          ++ newline :: repeat "-"%char 79).
  unfold page_text, page_separator. rewrite <- !app_assoc. reflexivity.
Qed.

Lemma REGEXS_one_line (r : regex) :
  In r REGEXS -> one_line r = true /\ nullable r = false.
Proof.
  simpl. intros H.
  repeat (destruct H as [<-|H]; [split; reflexivity|]). contradiction.
Qed.

Lemma search_first_page (r : regex) (p : str) (ps : list str) :
  In r REGEXS ->
  re_search r (pages_text (p :: ps))
  = match re_search r (page_text p) with
    | Some m => Some m
    | None => re_search r (pages_text ps)
    end.
Proof.
  intros Hr. destruct (REGEXS_one_line r Hr) as [O N].
  rewrite pages_text_cons. destruct (page_text_ends p) as [s0 ->].
  rewrite <- app_assoc. change ([newline] ++ pages_text ps)
    with (newline :: pages_text ps).
  apply re_search_cut; assumption.
Qed.

(** X16. The text of a bulletin is searched page by page: a field takes
    its value from the first page on which its pattern has a match, and it
    is "n/a" exactly when no single page has one, so a sentence that runs
    over a page break is never found. *)
Theorem first_page_wins (r : regex) (pages : list str) :
  In r REGEXS ->
  (forall pre p post,
      pages = pre ++ p :: post ->
      (forall q, In q pre -> ~ has_match r (page_text q)) ->
      has_match r (page_text p) ->
      search_for r (pages_text pages) = search_for r (page_text p))
  /\ (search_for r (pages_text pages) = Some (lit "n/a")
      <-> forall q, In q pages -> ~ has_match r (page_text q)).
Proof.
  intros Hr.
  assert (None_iff : forall ps,
             re_search r (pages_text ps) = None
             <-> forall q, In q ps -> ~ has_match r (page_text q)).
  { induction ps as [|p ps IH].
    - split; [intros _ q []|]. intros _.
      destruct (REGEXS_one_line r Hr) as [O N].
      change (pages_text []) with (@nil ascii). cbn [re_search].
      rewrite (rmatch_short r [] O N) by auto. reflexivity.
    - rewrite (search_first_page r p ps Hr). split.
      + intros H q [<-|Hq].
        * apply re_search_None_iff.
          destruct (re_search r (page_text p)); [discriminate|reflexivity].
        * destruct (re_search r (page_text p)); [discriminate|].
          apply (proj1 IH H q Hq).
      + intros H.
        rewrite (proj2 (re_search_None_iff r (page_text p)))
          by (apply H; left; reflexivity).
        apply IH. intros q Hq. apply H. right. exact Hq. }
  split.
  - intros pre p post -> Hpre Hp. unfold search_for.
    induction pre as [|q pre IH]; simpl app.
    + rewrite (search_first_page r p post Hr).
      destruct (re_search r (page_text p)) eqn:E; [reflexivity|].
      exfalso. apply (proj1 (re_search_None_iff _ _) E). exact Hp.
    + rewrite (search_first_page r q (pre ++ p :: post) Hr).
      rewrite (proj2 (re_search_None_iff r (page_text q)))
        by (apply Hpre; left; reflexivity).
      apply IH. intros q' Hq'. apply Hpre. right. exact Hq'.
  - rewrite <- None_iff.
    destruct (search_for_value r (pages_text pages) Hr)
      as [[E S]|[E (v & S & Nv)]].
    + split; auto.
    + split; [|intros X; contradiction].
      rewrite S. intros X. injection X as ->.
      exfalso. exact (not_numeric_sentinel Nv).
Qed.

Lemma first_page_wins_witness :
  search_for (nth 0 REGEXS REps) (pages_text three_pages) = Some (lit "142")
  /\ search_for (nth 0 REGEXS REps) (pages_text broken_pages)
     = Some (lit "n/a").
Proof.
  destruct (first_page_wins (nth 0 REGEXS REps) three_pages
              (or_introl eq_refl)) as [F _].
  destruct (first_page_wins (nth 0 REGEXS REps) broken_pages
              (or_introl eq_refl)) as [_ G].
  split.
  - rewrite (F [lit "County update"] (lit "There are 142 confirmed cases")
               [lit "There are 150 confirmed cases"] eq_refl).
    + vm_compute. reflexivity.
    + intros q [<-|[]]. apply re_search_None_iff. vm_compute. reflexivity.
    + eapply re_search_sound. vm_compute. reflexivity.
  - apply G. intros q [<-|[<-|[]]]; apply re_search_None_iff; vm_compute;
      reflexivity.
Defined.

(** ** Blanks in the text of a bulletin *)

Lemma sub_blanks_shape (s : str) :
  (forall b, double_blank (sub_blanks b s) = false)
  /\ forall x s', s = x :: s' -> is_sp x = false ->
                  forall b, exists r, sub_blanks b s = x :: r.
Proof.
  induction s as [|x s IH]; [split; [reflexivity | discriminate]|].
  destruct IH as [IH1 IH2]. split.
  - intros b. cbn [sub_blanks]. destruct (is_sp x) eqn:Ex.
    + destruct b; [apply IH1|].
      destruct s as [|y s']; [reflexivity|].
      destruct (is_sp y) eqn:Ey.
      * specialize (IH1 true). 
        destruct (sub_blanks true (y :: s')) as [|z r]; [reflexivity|].
        rewrite double_blank_cons. exact IH1.
      * destruct (IH2 y s' eq_refl Ey false) as [r Er].
        specialize (IH1 false). rewrite Er in *.
        rewrite double_blank_cons, Ey, andb_false_r. exact IH1.
    + specialize (IH1 false).
      destruct (sub_blanks false s) as [|z r]; [reflexivity|].
      rewrite double_blank_cons, Ex. exact IH1.
  - intros x0 s0 E Hx b. injection E as <- <-. cbn [sub_blanks].
    rewrite Hx. eauto.
Qed.

Lemma double_blank_mid (a b : str) (x : ascii) :
  is_sp x = false ->
  double_blank (a ++ x :: b) = (double_blank a || double_blank b)%bool.
Proof.
  intros Hx. induction a as [|y a IH].
  - cbn [app]. destruct b as [|z b]; [reflexivity|].
    rewrite double_blank_cons, Hx. reflexivity.
  - destruct a as [|z a].
    + cbn [app] in *. rewrite double_blank_cons, Hx, andb_false_r.
      cbn [orb]. rewrite IH. reflexivity.
    + change ((y :: z :: a) ++ x :: b) with (y :: z :: (a ++ x :: b)).
      rewrite !double_blank_cons.
      change (z :: a ++ x :: b) with ((z :: a) ++ x :: b).
      rewrite IH, orb_assoc. reflexivity.
Qed.

Lemma page_text_blanks (p : str) (rest : str) :
  double_blank (page_text p ++ rest) = double_blank rest.
Proof.
  replace (page_text p ++ rest)
    with (sub_blanks false (replace [newline] [] p)
          ++ newline :: (repeat "-"%char 79 ++ newline :: rest))
    by (unfold page_text, page_separator; rewrite <- !app_assoc;
        reflexivity).
  rewrite double_blank_mid by reflexivity.
  rewrite (proj1 (sub_blanks_shape _)). cbn [orb].
  rewrite double_blank_mid by reflexivity. reflexivity.
Qed.

Lemma pages_text_blanks (pages : list str) :
  double_blank (pages_text pages) = false.
Proof.
  induction pages as [|p ps IH]; [reflexivity|].
  rewrite pages_text_cons, page_text_blanks. exact IH.
Qed.

Lemma lang_blanks (mid : str) :
  lang (RPlus (CChr " ")) mid ->
  exists n, mid = space :: repeat space n.
Proof.
  intros L. inversion L as [| |r1 r2 s1 s2 L1 L2| | | |]; subst.
  inversion L1 as [|c x Hx| | | | |]; subst.
  inversion L2 as [| | | | |c s F|]; subst.
  assert (Sp : forall y, cmatch (CChr " ") y = true -> y = space).
  { intros y. destruct y as [[] [] [] [] [] [] [] []]; simpl;
      intros H; try discriminate; reflexivity. }
  assert (R : forall s, Forall (fun y => cmatch (CChr " ") y = true) s ->
                        s = repeat space (length s)).
  { induction 1 as [|y s Hy _ IH]; [reflexivity|].
    simpl. rewrite (Sp y Hy). f_equal. exact IH. }
  rewrite (Sp x Hx). exists (length s2). cbn [app]. f_equal. exact (R s2 F).
Qed.

(** X17. [parse_pdf] turns every run of two or more blanks into a line
    break, so the text that the patterns are matched on never holds two
    blanks in a row; the " +" of the pattern for deaths can therefore only
    ever match a single blank. *)
Theorem blank_runs_are_gone (pages : list str) :
  contains (lit "  ") (pages_text pages) = false
  /\ forall pre mid post,
      pages_text pages = pre ++ mid ++ post ->
      lang (RPlus (CChr " ")) mid -> mid = [space].
Proof.
  pose proof (pages_text_blanks pages) as D.
  split; [rewrite contains_double_blank; exact D|].
  intros pre mid post E L. destruct (lang_blanks mid L) as [n ->].
  destruct n as [|n]; [reflexivity|]. exfalso.
  rewrite <- contains_double_blank in D.
  assert (C : contains (lit "  ") (pages_text pages) = true).
  { apply contains_app. exists pre, (repeat space n ++ post).
    rewrite E. reflexivity. }
  rewrite C in D. discriminate.
Qed.

Lemma blank_runs_are_gone_witness :
  contains (lit "  ") (pages_text wide_page) = false
  /\ lit " " = [space].
Proof.
  destruct (blank_runs_are_gone wide_page) as [C _].
  destruct (blank_runs_are_gone narrow_page) as [_ H].
  split; [exact C|].
  apply (H (lit "Deaths related to COVID-19") (lit " ")
           (lit "5 patients" ++ page_separator)); [reflexivity|].
  apply (L_seq _ _ [space] []); constructor; [reflexivity | constructor].
Defined.

(** ** Letter case *)

Lemma lower_ascii_lower_char (x : ascii) :
  lower_char (ascii_lower_char x) = lower_char x.
Proof. destruct x as [[] [] [] [] [] [] [] []]; reflexivity. Qed.

Lemma cmatch_ascii_lower (c : cclass) (x : ascii) :
  cls_range_free c = true -> cmatch c (ascii_lower_char x) = cmatch c x.
Proof.
  destruct c as [a| | | |lo hi]; intros H; try discriminate.
  - simpl. rewrite lower_ascii_lower_char. reflexivity.
  - destruct x as [[] [] [] [] [] [] [] []]; reflexivity.
  - destruct x as [[] [] [] [] [] [] [] []]; reflexivity.
  - destruct x as [[] [] [] [] [] [] [] []]; reflexivity.
Qed.

Lemma group_ascii_lower (n : nat) (g : groups) :
  group n (ascii_lower_groups g) = option_map ascii_lower (group n g).
Proof.
  induction g as [|[m v] g IH]; [reflexivity|]. simpl.
  destruct (Nat.eqb m n); [reflexivity | exact IH].
Qed.

Section AsciiLower.
Context {A B : Type} (f : A -> B).

Lemma star_match_ascii_lower (c : cclass) :
  cls_range_free c = true ->
  forall (s : str) (k : str -> option A) (k' : str -> option B),
    (forall s1, k' (ascii_lower s1) = option_map f (k s1)) ->
    star_match c (ascii_lower s) k' = option_map f (star_match c s k).
Proof.
  intros R. induction s as [|x s IH]; intros k k' H.
  - exact (H []).
  - cbn [ascii_lower map star_match]. rewrite (cmatch_ascii_lower c x R).
    change (map ascii_lower_char s) with (ascii_lower s).
    rewrite (IH k k' H).
    pose proof (H (x :: s)) as Hx. cbn [ascii_lower map] in Hx.
    change (map ascii_lower_char s) with (ascii_lower s) in Hx. rewrite Hx.
    destruct (cmatch c x); [|reflexivity].
    destruct (star_match c s k); reflexivity.
Qed.

Lemma rmatch_ascii_lower (r : regex) :
  range_free r = true ->
  forall (s : str) (g : groups) (k : str -> groups -> option A)
         (k' : str -> groups -> option B),
    (forall s1 g1,
        k' (ascii_lower s1) (ascii_lower_groups g1) = option_map f (k s1 g1)) ->
    rmatch r (ascii_lower s) (ascii_lower_groups g) k'
    = option_map f (rmatch r s g k).
Proof.
  induction r as [|c|r1 IH1 r2 IH2|r1 IH1 r2 IH2|c|n r IH];
    cbn [rmatch range_free]; intros R s g k k' H.
  - apply H.
  - destruct s as [|x s]; [reflexivity|]. cbn [ascii_lower map].
    rewrite (cmatch_ascii_lower c x R). destruct (cmatch c x); [|reflexivity].
    apply H.
  - apply andb_true_iff in R. destruct R as [R1 R2].
    apply IH1; [exact R1|]. intros s1 g1. apply IH2; [exact R2 | exact H].
  - apply andb_true_iff in R. destruct R as [R1 R2].
    rewrite (IH1 R1 s g k k' H), (IH2 R2 s g k k' H).
    destruct (rmatch r1 s g k); reflexivity.
  - apply star_match_ascii_lower; [exact R|]. intros s1. apply H.
  - apply IH; [exact R|]. intros s1 g1.
    replace (firstn (length (ascii_lower s) - length (ascii_lower s1))
               (ascii_lower s))
      with (ascii_lower (firstn (length s - length s1) s))
      by (unfold ascii_lower; rewrite !length_map, firstn_map; reflexivity).
    apply (H s1 ((n, firstn (length s - length s1) s) :: g1)).
Qed.
End AsciiLower.

Lemma re_search_ascii_lower (r : regex) (s : str) :
  range_free r = true ->
  re_search r (ascii_lower s)
  = option_map ascii_lower_groups (re_search r s).
Proof.
  intros R. induction s as [|x s IH].
  - cbn [ascii_lower map re_search].
    change (@nil ascii) with (ascii_lower []) at 1.
    change (@nil (nat * str)) with (ascii_lower_groups []) at 1.
    rewrite (rmatch_ascii_lower ascii_lower_groups r R [] []
               (fun _ g => Some g)) by reflexivity.
    destruct (rmatch r [] [] (fun _ g => Some g)); reflexivity.
  - cbn [ascii_lower map re_search].
    change (ascii_lower_char x :: map ascii_lower_char s)
      with (ascii_lower (x :: s)).
    change (@nil (nat * str)) with (ascii_lower_groups []) at 1.
    rewrite (rmatch_ascii_lower ascii_lower_groups r R (x :: s) []
               (fun _ g => Some g)) by reflexivity.
    change (map ascii_lower_char s) with (ascii_lower s). rewrite IH.
    destruct (rmatch r (x :: s) [] (fun _ g => Some g)); reflexivity.
Qed.

Lemma ascii_lower_numeric (v : str) : numeric v -> ascii_lower v = v.
Proof.
  intros [_ H]. induction v as [|x v IH]; [reflexivity|].
  simpl in H. apply andb_true_iff in H. destruct H as [Hx Hv].
  cbn [ascii_lower map]. change (map ascii_lower_char v) with (ascii_lower v).
  rewrite (IH Hv). f_equal.
  destruct x as [[] [] [] [] [] [] [] []]; try discriminate; reflexivity.
Qed.

Lemma search_for_ascii_lower (r : regex) (txt : str) :
  In r REGEXS -> search_for r (ascii_lower txt) = search_for r txt.
Proof.
  intros Hr.
  assert (R : range_free r = true).
  { simpl in Hr. repeat (destruct Hr as [<-|Hr]; [reflexivity|]).
    contradiction. }
  destruct (search_for_value r txt Hr) as [[E S]|[E (v & S & Nv)]];
    rewrite S; unfold search_for in *;
    rewrite (re_search_ascii_lower r txt R).
  - rewrite E. reflexivity.
  - destruct (re_search r txt) as [m|]; [|congruence]. cbn [option_map].
    rewrite group_ascii_lower, S. cbn [option_map].
    rewrite (ascii_lower_numeric v Nv). reflexivity.
Qed.

(** X18. The patterns are matched without regard to the case of the
    letters A-Z: two bulletin texts that are the same once their capitals
    A-Z are replaced by the small letters, every other character compared
    as it is, give the same values, and so the same row. *)
Theorem extract_ignores_case (t1 t2 : str) :
  ascii_lower t1 = ascii_lower t2 ->
  extract t1 = extract t2
  /\ forall dt, make_row dt t1 = make_row dt t2.
Proof.
  intros E.
  assert (X : extract t1 = extract t2).
  { rewrite !extract_map. apply map_ext_in. intros r Hr.
    rewrite <- (search_for_ascii_lower r t1 Hr),
      <- (search_for_ascii_lower r t2 Hr), E.
    reflexivity. }
  split; [exact X|]. intros dt. rewrite !make_row_extract, X. reflexivity.
Qed.

Lemma extract_ignores_case_witness :
  extract shouted = extract (lit "There are 142 confirmed cases")
  /\ nth_error (extract shouted) 0 = Some (Some (lit "142")).
Proof.
  destruct (extract_ignores_case shouted
              (lit "There are 142 confirmed cases") eq_refl) as [E _].
  split; [exact E | reflexivity].
Defined.

(** ** Where a captured group stands in the match *)

Section Around.
Context {A : Type}.

Lemma around_match (n : nat) (r RA RD RB : regex) :
  around n r RA RD RB -> bodies n RB = [] ->
  forall (s : str) (g : groups) (k : str -> groups -> option A) m,
    rmatch r s g k = Some m ->
    exists a v b rest g',
      s = a ++ v ++ b ++ rest /\ lang RA a /\ lang RD v /\ lang RB b
      /\ k rest g' = Some m /\ group n g' = Some v.
Proof.
  induction 1 as [D B|X Y A0 D B Ar IH]; intros Hb s g k m H.
  - cbn [rmatch] in H. apply rmatch_inv in H.
    destruct H as (v & s2 & g1 & -> & Lv & H & _).
    rewrite firstn_consumed in H. apply rmatch_inv in H.
    destruct H as (b & rest & g2 & -> & Lb & K & [P Q]).
    exists [], v, b, rest, g2.
    split; [reflexivity|]. split; [constructor|]. split; [exact Lv|].
    split; [exact Lb|]. split; [exact K|].
    assert (G : group n ((n, v) :: g1) = Some v)
      by (simpl; rewrite Nat.eqb_refl; reflexivity).
    destruct (group n g2) as [v'|] eqn:Eg.
    + destruct (Q n v' Eg) as [G'|Ex].
      * rewrite G in G'. symmetry. exact G'.
      * rewrite Hb in Ex. inversion Ex.
    + exfalso. apply (P n); [left; rewrite G; discriminate | exact Eg].
  - cbn [rmatch] in H. apply rmatch_sound in H.
    destruct H as (x & s2 & g1 & -> & Lx & H).
    destruct (IH Hb _ _ _ _ H)
      as (a & v & b & rest & g' & -> & La & Lv & Lb & K & G).
    exists (x ++ a), v, b, rest, g'. rewrite <- app_assoc.
    split; [reflexivity|]. split; [constructor; assumption|]. auto.
Qed.
End Around.

Lemma around_lang (n : nat) (r RA RD RB : regex) :
  around n r RA RD RB ->
  forall a v b, lang RA a -> lang RD v -> lang RB b -> lang r (a ++ v ++ b).
Proof.
  induction 1 as [D B|X Y A0 D B Ar IH]; intros a v b La Lv Lb.
  - inversion La; subst. cbn [app].
    constructor; [constructor; exact Lv | exact Lb].
  - inversion La as [| |r1 r2 s1 s2 L1 L2| | | |]; subst.
    rewrite <- app_assoc. constructor; [exact L1 | apply IH; assumption].
Qed.

Lemma re_search_spec (r : regex) (txt : str) (m : groups) :
  re_search r txt = Some m ->
  exists pre s,
    txt = pre ++ s
    /\ rmatch r s [] (fun _ g => Some g) = Some m
    /\ forall p1 p2, pre = p1 ++ p2 -> p2 <> [] ->
                     rmatch r (p2 ++ s) [] (fun _ g => Some g) = None.
Proof.
  assert (Nil : forall (p1 p2 : str), [] = p1 ++ p2 -> p2 <> [] -> False).
  { intros p1 p2 E N. symmetry in E. apply app_eq_nil in E.
    destruct E as [_ E]. contradiction. }
  induction txt as [|x txt IH]; cbn [re_search].
  - destruct (rmatch r [] [] (fun _ g => Some g)) eqn:E; [|discriminate].
    intros H. injection H as ->. exists [], [].
    split; [reflexivity|]. split; [exact E|].
    intros p1 p2 E' N. destruct (Nil p1 p2 E' N).
  - destruct (rmatch r (x :: txt) [] (fun _ g => Some g)) eqn:E.
    + intros H. injection H as ->. exists [], (x :: txt).
      split; [reflexivity|]. split; [exact E|].
      intros p1 p2 E' N. destruct (Nil p1 p2 E' N).
    + intros H. destruct (IH H) as (pre & s & -> & M & F).
      exists (x :: pre), s. split; [reflexivity|]. split; [exact M|].
      intros p1 p2 E' N. destruct p1 as [|y p1].
      * cbn [app] in E'. subst p2. exact E.
      * injection E' as _ E'. exact (F p1 p2 E' N).
Qed.

Lemma is_digit_In (x : ascii) :
  is_digit x = true -> In x (lit "0123456789").
Proof.
  destruct x as [[] [] [] [] [] [] [] []]; intros D; try discriminate D;
    simpl; tauto.
Qed.

Lemma cls_no_digit_ok (c : cclass) (x : ascii) :
  cls_no_digit c = true -> cmatch c x = true -> is_digit x = false.
Proof.
  intros H Hc. destruct (is_digit x) eqn:D; [|reflexivity].
  unfold cls_no_digit in H. rewrite forallb_forall in H.
  specialize (H x (is_digit_In x D)). rewrite Hc in H. discriminate.
Qed.

Lemma starts_plain_ok (r : regex) (s : str) :
  lang r s -> starts_plain r = true ->
  exists c q, s = c :: q /\ is_digit c = false.
Proof.
  induction 1 as [|c x Hx|r1 r2 s1 s2 _ IH1 _ IH2|r1 r2 s _ IH|r1 r2 s _ IH
                  |c s F|n r s _ IH]; cbn [starts_plain]; intros P;
    try discriminate.
  - exists x, []. split; [reflexivity | exact (cls_no_digit_ok c x P Hx)].
  - destruct (IH1 P) as (c & q & -> & D). exists c, (q ++ s2). auto.
  - apply andb_true_iff in P. apply IH. apply P.
  - apply andb_true_iff in P. apply IH. apply P.
  - exact (IH P).
Qed.

Lemma last_case (s : str) : s = [] \/ exists p c, s = p ++ [c].
Proof.
  destruct s as [|x s]; [left; reflexivity|]. right.
  destruct (exists_last (l := x :: s)) as (p & c & E); [discriminate|].
  eauto.
Qed.

Lemma ends_plain_ok (r : regex) (s : str) :
  lang r s -> ends_plain r = true ->
  forall p c, s = p ++ [c] -> is_digit c = false.
Proof.
  induction 1 as [|c x Hx|r1 r2 s1 s2 L1 IH1 L2 IH2|r1 r2 s _ IH|r1 r2 s _ IH
                  |c s F|n r s _ IH]; cbn [ends_plain]; intros P p c0 E.
  - destruct p; discriminate.
  - change [x] with ([] ++ [x]) in E. apply app_inj_tail in E.
    destruct E as [_ <-]. exact (cls_no_digit_ok c x P Hx).
  - apply andb_true_iff in P. destruct P as [P2 P1].
    destruct (last_case s2) as [->|(p2 & c2 & ->)].
    + rewrite (lang_nil_nullable r2 [] L2 eq_refl) in P1. cbn in P1.
      rewrite app_nil_r in E. exact (IH1 P1 p c0 E).
    + rewrite app_assoc in E. apply app_inj_tail in E.
      destruct E as [_ <-]. exact (IH2 P2 p2 c2 eq_refl).
  - apply andb_true_iff in P. exact (IH (proj1 P) p c0 E).
  - apply andb_true_iff in P. exact (IH (proj2 P) p c0 E).
  - rewrite Forall_forall in F. apply (cls_no_digit_ok c c0 P).
    apply F. rewrite E. apply in_or_app. right. left. reflexivity.
  - exact (IH P p c0 E).
Qed.

Lemma numeric_lang (v : str) : numeric v -> lang (RPlus CDigit) v.
Proof.
  intros [N H]. destruct v as [|x v]; [contradiction|].
  simpl in H. apply andb_true_iff in H. destruct H as [Hx Hv].
  apply (L_seq _ _ [x] v); constructor; [exact Hx|].
  apply Forall_forall. rewrite forallb_forall in Hv. exact Hv.
Qed.

Lemma REGEXS_around (r : regex) :
  In r REGEXS ->
  exists RA RB,
    around 1 r RA (RPlus CDigit) RB
    /\ bodies 1 RB = [] /\ starts_plain RB = true /\ ends_plain RA = true.
Proof.
  intros H. simpl in H.
  repeat (destruct H as [<-|H];
          [do 2 eexists; split; [repeat constructor|];
           split; [reflexivity|]; split; reflexivity|]).
  contradiction.
Qed.

(** X19. A value that [search_for] finds is a whole number of the text,
    never a piece of a longer one: it is a run of digits with no digit
    right before it and none right after it. *)
Theorem value_is_whole_number (r : regex) (txt v : str) :
  In r REGEXS -> search_for r txt = Some v -> v <> lit "n/a" ->
  numeric v /\ whole_number v txt.
Proof.
  intros Hr S Nv. unfold search_for in S.
  destruct (re_search r txt) as [m|] eqn:E;
    [|injection S as <-; contradiction].
  destruct (REGEXS_around r Hr) as (RA & RB & Ar & Hb & Ps & Pe).
  destruct (re_search_spec r txt m E) as (pre & s & -> & M & F).
  destruct (around_match 1 r RA _ RB Ar Hb _ _ _ _ M)
    as (a & v' & b & rest & g' & -> & La & Lv & Lb & K & G).
  injection K as ->. rewrite S in G. injection G as ->.
  split; [exact (lang_plus_digits v' Lv)|].
  exists (pre ++ a), (b ++ rest). split; [rewrite <- app_assoc; reflexivity|].
  split.
  - intros p c Ep. destruct (last_case a) as [->|(a' & c' & ->)].
    + rewrite app_nil_r in Ep. subst pre.
      destruct (is_digit c) eqn:D; [|reflexivity]. exfalso.
      specialize (F p [c] eq_refl ltac:(discriminate)).
      assert (L : lang r ([] ++ (c :: v') ++ b)).
      { apply (around_lang 1 r RA _ RB Ar); [exact La | | exact Lb].
        apply numeric_lang. destruct (lang_plus_digits v' Lv) as [_ Hv].
        split; [discriminate|]. simpl. rewrite D. exact Hv. }
      cbn [app] in F, L.
      change (c :: v' ++ b ++ rest) with ((c :: v') ++ b ++ rest) in F.
      rewrite app_assoc in F.
      destruct (rmatch_complete r _ _ _ _ L F) as [g' X]. discriminate.
    + rewrite app_assoc in Ep. apply app_inj_tail in Ep.
      destruct Ep as [_ <-]. exact (ends_plain_ok RA _ La Pe a' c' eq_refl).
  - intros c q Eq. destruct (starts_plain_ok RB b Lb Ps) as (c0 & q0 & -> & D).
    injection Eq as <- _. exact D.
Qed.

Lemma value_is_whole_number_witness :
  numeric (lit "7142") /\ whole_number (lit "7142") ward_text.
Proof.
  apply (value_is_whole_number (nth 2 REGEXS REps) ward_text (lit "7142")).
  - right. right. left. reflexivity.
  - vm_compute. reflexivity.
  - discriminate.
Defined.

(** ** The year of a label *)

Lemma dcount_app (a b : str) : dcount (a ++ b) = (dcount a + dcount b)%nat.
Proof. unfold dcount. rewrite filter_app, length_app. reflexivity. Qed.

Lemma dmax_ok (r : regex) (s : str) :
  lang r s -> forall n, dmax r = Some n -> (dcount s <= n)%nat.
Proof.
  induction 1 as [|c x Hx|r1 r2 s1 s2 _ IH1 _ IH2|r1 r2 s _ IH|r1 r2 s _ IH
                  |c s F|k r s _ IH]; cbn [dmax]; intros n E.
  - unfold dcount. simpl. lia.
  - injection E as <-. unfold dcount. cbn [filter].
    destruct (cls_no_digit c) eqn:C.
    + rewrite (cls_no_digit_ok c x C Hx). simpl. lia.
    + destruct (is_digit x); simpl; lia.
  - destruct (dmax r1) as [a|]; [|discriminate].
    destruct (dmax r2) as [b|]; [|discriminate]. injection E as <-.
    rewrite dcount_app. specialize (IH1 a eq_refl).
    specialize (IH2 b eq_refl). lia.
  - destruct (dmax r1) as [a|]; [|discriminate].
    destruct (dmax r2) as [b|]; [|discriminate]. injection E as <-.
    specialize (IH a eq_refl). lia.
  - destruct (dmax r1) as [a|]; [|discriminate].
    destruct (dmax r2) as [b|]; [|discriminate]. injection E as <-.
    specialize (IH b eq_refl). lia.
  - destruct (cls_no_digit c) eqn:C; [|discriminate]. injection E as <-.
    induction F as [|x s Hx F IH]; [unfold dcount; simpl; lia|].
    unfold dcount in *. cbn [filter].
    rewrite (cls_no_digit_ok c x C Hx). exact IH.
  - exact (IH n E).
Qed.

(** An occurrence of [w] in [x ++ c :: y], where [c] is not in [w], lies
    in [x] or in [y]. *)
Lemma window_split (w x y pre post : str) (c : ascii) :
  ~ In c w -> pre ++ w ++ post = x ++ c :: y ->
  (exists post', x = pre ++ w ++ post') \/ (exists pre', y = pre' ++ w ++ post).
Proof.
  intros Nc E. apply app_eq_app in E. destruct E as [l [[E1 E2]|[E1 E2]]].
  - destruct l as [|c' l].
    + cbn [app] in E2. destruct w as [|z w].
      * left. exists []. rewrite E1. rewrite !app_nil_r. reflexivity.
      * injection E2 as -> _. exfalso. apply Nc. left. reflexivity.
    + injection E2 as _ ->. right. exists l. reflexivity.
  - symmetry in E2. apply app_eq_app in E2.
    destruct E2 as [l2 [[E3 E4]|[E3 E4]]].
    + left. exists l2. rewrite E1, E3. reflexivity.
    + destruct l2 as [|c' l2].
      * left. exists []. rewrite E1, E3, !app_nil_r. reflexivity.
      * injection E4 as -> _. exfalso. apply Nc. rewrite E3.
        apply in_or_app. right. left. reflexivity.
Qed.

Lemma dcount_window (pre w post : str) :
  (dcount w <= dcount (pre ++ w ++ post))%nat.
Proof. rewrite !dcount_app. lia. Qed.

Lemma same_length_window (v pre w post : str) :
  v = pre ++ w ++ post -> length v = length w -> v = w.
Proof.
  intros -> L. rewrite !length_app in L.
  destruct pre; [|simpl in L; lia]. destruct post; [|simpl in L; lia].
  cbn [app]. apply app_nil_r.
Qed.

Lemma digits_window (text a v b w : str) :
  text = a ++ v ++ b ->
  contains w text = true ->
  forallb is_digit w = true -> length v = length w ->
  (forall p c, a = p ++ [c] -> is_digit c = false) ->
  (exists c q, b = c :: q /\ is_digit c = false) ->
  (dcount a < dcount w)%nat -> (dcount b < dcount w)%nat ->
  v = w.
Proof.
  intros -> C Dw Lv Ea (c2 & b' & -> & D2) Ca Cb.
  apply contains_app in C. destruct C as (pre & post & E).
  assert (Nd : forall c, is_digit c = false -> ~ In c w).
  { intros c D H. rewrite forallb_forall in Dw. rewrite (Dw c H) in D.
    discriminate. }
  rewrite app_assoc in E. symmetry in E.
  destruct (window_split w _ _ pre post c2 (Nd c2 D2) E)
    as [[post' E1]|[pre' E1]].
  - destruct (last_case a) as [->|(a' & c1 & ->)].
    + exact (same_length_window v pre w post' E1 Lv).
    + rewrite <- app_assoc in E1. cbn [app] in E1. symmetry in E1.
      destruct (window_split w _ _ pre post' c1
                  (Nd c1 (Ea a' c1 eq_refl)) E1) as [[post2 E2]|[pre2 E2]].
      * exfalso. rewrite dcount_app, E2 in Ca.
        pose proof (dcount_window pre w post2). lia.
      * exact (same_length_window v pre2 w post' E2 Lv).
  - exfalso. change (c2 :: b') with ([c2] ++ b') in Cb.
    rewrite dcount_app, E1 in Cb.
    pose proof (dcount_window pre' w post). lia.
Qed.

Lemma lang_four_digits (v : str) :
  lang (RSeqs [RCls CDigit; RCls CDigit; RCls CDigit; RCls CDigit]) v ->
  length v = 4%nat.
Proof.
  cbn [RSeqs]. intros L.
  repeat match goal with
         | H : lang (RSeq _ _) _ |- _ => inversion H; subst; clear H
         | H : lang (RCls _) _ |- _ => inversion H; subst; clear H
         end.
  reflexivity.
Qed.

Lemma label_year_around :
  exists RA RB,
    around gY LABEL_YEAR_RE RA
           (RSeqs [RCls CDigit; RCls CDigit; RCls CDigit; RCls CDigit]) RB
    /\ bodies gY RB = [] /\ starts_plain RB = true /\ ends_plain RA = true
    /\ dmax RA = Some 2%nat /\ dmax RB = Some 2%nat.
Proof.
  do 2 eexists. split.
  - unfold LABEL_YEAR_RE. cbn [RSeqs]. do 6 apply around_later.
    unfold re_Y. apply around_here.
  - repeat split; vm_compute; reflexivity.
Qed.

Lemma year_of_label (text : str) (dt : datetime) :
  parse_label text = Some dt -> year dt = 2020.
Proof.
  unfold parse_label. destruct (contains (lit "2020") text) eqn:C.
  - unfold strptime, re_match.
    destruct (rmatch LABEL_YEAR_RE text [] (fun rest g => Some (g, rest)))
      as [[g rest]|] eqn:E; [|discriminate].
    destruct rest; [|discriminate]. intros H.
    destruct label_year_around as (RA & RB & Ar & Hb & Ps & Pe & Da & Db).
    destruct (around_match gY _ RA _ RB Ar Hb _ _ _ _ E)
      as (a & v & b & rest & g' & -> & La & Lv & Lb & K & G).
    injection K as -> ->. rewrite app_nil_r in C.
    assert (V : v = lit "2020").
    { apply (digits_window (a ++ v ++ b) a v b); auto.
      - exact (lang_four_digits v Lv).
      - exact (ends_plain_ok RA a La Pe).
      - exact (starts_plain_ok RB b Lb Ps).
      - pose proof (dmax_ok RA a La _ Da).
        change (dcount (lit "2020")) with 4%nat. lia.
      - pose proof (dmax_ok RB b Lb _ Db).
        change (dcount (lit "2020")) with 4%nat. lia. }
    unfold datetime_of_groups in H. rewrite G, V in H.
    apply datetime_new_Some in H. destruct H as [-> _]. reflexivity.
  - destruct (strptime LABEL_RE text) as [d0|]; [|discriminate].
    unfold replace_year. intros H. apply datetime_new_Some in H.
    destruct H as [-> _]. reflexivity.
Qed.

(** X20. Every key of the catalog is a timestamp of the year 2020 and
    begins with "2020-": a label that parses reads as a moment of 2020,
    whether it names the year or leaves it out. *)
Theorem catalog_year (soup : list anchor) (cat : dict str) (key : str) :
  get_links soup = Ok cat -> In key (dict_keys cat) ->
  exists dt,
    key = strftime_file dt /\ valid_dt dt = true /\ year dt = 2020
    /\ startswith (lit "2020-") key = true.
Proof.
  intros H Hk.
  destruct (get_links_inv _ _ H) as (links & _ & _ & R & ->).
  apply rekeyed_keys in Hk. destruct Hk as [[]|(t & Ht & ->)].
  destruct (rekey_all_parse _ _ _ R t Ht) as [dt P].
  exists dt. unfold key_of. rewrite P.
  pose proof (year_of_label t dt P) as Y.
  split; [reflexivity|]. split; [exact (parse_label_valid _ _ P)|].
  split; [exact Y|]. unfold strftime_file. rewrite Y. reflexivity.
Qed.

Lemma catalog_year_witness :
  (exists dt,
      lit "2020-03-16_1400" = strftime_file dt /\ valid_dt dt = true
      /\ year dt = 2020
      /\ startswith (lit "2020-") (lit "2020-03-16_1400") = true)
  /\ get_links next_year_listing = Raise ValueError.
Proof.
  split; [|reflexivity].
  apply (catalog_year corrected_listing
           (match get_links corrected_listing with
            | Ok cat => cat
            | Raise _ => []
            end)).
  - vm_compute. reflexivity.
  - vm_compute. left. reflexivity.
Defined.

(** ** Reading the frontier *)

Lemma drop_empty_first (rows : list row) :
  match drop_empty (map cell_A rows) with
  | [] => first_cell rows = None
  | [] :: _ => False
  | (c :: _) :: _ => first_cell rows = Some c
  end.
Proof.
  induction rows as [|r rows IH]; [reflexivity|].
  cbn [map drop_empty first_cell].
  destruct (cell_A r) as [|c more]; [exact IH | reflexivity].
Qed.

Lemma last_update_of_column (sheet : list row) :
  last_update_of (read_column sheet)
  = match last_cell sheet with
    | None => Ok datetime_min
    | Some cell =>
        match strptime SHEET_RE cell with
        | Some dt => Ok dt
        | None => Raise ValueError
        end
    end.
Proof.
  unfold last_update_of, read_column, last_cell.
  rewrite rev_involutive, <- map_rev.
  pose proof (drop_empty_first (rev sheet)) as H.
  destruct (drop_empty (map cell_A (rev sheet))) as [|[|c more] rest];
    [rewrite H; reflexivity | contradiction | rewrite H; reflexivity].
Qed.

(** X21. The frontier that [get_last_update] returns is read off the last
    filled cell of the timestamp column, blank rows left aside: with no
    filled cell it is [datetime.min]; a cell that is no timestamp is a
    [ValueError]; and the indexing [values[-1][0]] never fails. *)
Theorem frontier_is_last_filled_cell (w : world) :
  fst (get_last_update w)
  = (if w_read_ok w then
       match last_cell (w_sheet w) with
       | None => Ok datetime_min
       | Some cell =>
           match strptime SHEET_RE cell with
           | Some dt => Ok dt
           | None => Raise ValueError
           end
       end
     else Raise HttpError)
  /\ fst (get_last_update w) <> Raise IndexError.
Proof.
  assert (E : fst (get_last_update w)
              = if w_read_ok w then last_update_of (read_column (w_sheet w))
                else Raise HttpError).
  { rewrite get_last_update_eq. destruct (w_read_ok w); [|reflexivity].
    destruct (last_update_of (read_column (w_sheet w))); reflexivity. }
  rewrite E, last_update_of_column. split; [reflexivity|].
  destruct (w_read_ok w); [|discriminate].
  destruct (last_cell (w_sheet w)) as [cell|]; [|discriminate].
  destruct (strptime SHEET_RE cell); discriminate.
Qed.

(** ** Running again *)


